(** * replicator: one-way folder synchronisation (src/main.py)

    A shallow embedding of [same_file_check], [update_log] and
    [folder_synchronization], over a model of the part of the filesystem the
    program touches.

    The filesystem is a pair of trees, one mounted at the source folder and
    one at the destination folder (neither folder lies inside the other, and
    the log file lies in neither). A directory lists its entries in the
    order [os.scandir] reports them, and carries the permission to change
    them; reading is always permitted. The only links are dangling ones.
    Every call of the [os], [os.path] and [shutil] modules that the program
    makes is a function on this model that either returns or raises; nothing
    else changes the filesystem while a pass runs. The modification times of
    [os.stat] are integers, compared for equality only. Of the scheduling
    loop of [main], the argument of [time.sleep] on line 25 is modelled,
    over the binary64 floats of the clock; the sleeping itself is left
    out. *)

From Stdlib Require Import Floats List String Ascii ZArith Bool Lia Permutation.
Import ListNotations.
Local Open Scope string_scope.
Local Open Scope list_scope.
Local Open Scope Z_scope.
Set Warnings "-register-all".

(** ** Exceptions and results *)

(** The subclasses of [OSError] the modelled calls raise. *)
Inductive exn : Type :=
| FileNotFoundError
| FileExistsError
| PermissionError
| NotADirectoryError
| IsADirectoryError
| DirectoryNotEmpty
| SameFileError.

(** A call either returns a value or raises. *)
Inductive result (A : Type) : Type :=
| Ok (a : A)
| Raise (e : exn).
Arguments Ok {A} a.
Arguments Raise {A} e.

Definition bind {A B : Type} (r : result A) (k : A -> result B) : result B :=
  match r with
  | Ok a => k a
  | Raise e => Raise e
  end.

Notation "x <- r ;; k" := (bind r (fun x => k))
  (at level 61, r at next level, right associativity).

(** ** Filesystem trees *)

(** What [os.stat] reports of a regular file besides its size, and what
    [shutil.copystat] carries over. *)
Record fattr : Type := { f_mtime : Z; f_mode : Z }.

(** Attributes of a directory: [d_writable] is the permission to add and
    remove entries. *)
Record dattr : Type := { d_mtime : Z; d_size : Z; d_writable : bool }.

(** [Dangling] is a symbolic link whose target, and the directory of its
    target, are missing: it is listed by its directory, but [os.stat] and
    [open] fail on it. *)
Inductive node : Type :=
| File (a : fattr) (data : string)
| Dir (a : dattr) (entries : list (string * node))
| Dangling.

Definition entries_t : Type := list (string * node).

Definition is_dir (c : node) : bool :=
  match c with Dir _ _ => true | _ => false end.

Fixpoint find_entry (n : string) (es : entries_t) : option node :=
  match es with
  | [] => None
  | (m, c) :: r => if String.eqb n m then Some c else find_entry n r
  end.

Fixpoint remove_entry (n : string) (es : entries_t) : entries_t :=
  match es with
  | [] => []
  | (m, c) :: r =>
      if String.eqb n m then remove_entry n r else (m, c) :: remove_entry n r
  end.

(** Replace the entry called [n], or append it when the name is new. *)
Fixpoint set_entry (n : string) (c : node) (es : entries_t) : entries_t :=
  match es with
  | [] => [(n, c)]
  | (m, d) :: r =>
      if String.eqb n m then (m, c) :: r else (m, d) :: set_entry n c r
  end.

(** The node a list of path components leads to, links not followed. *)
Fixpoint lookup (t : node) (p : list string) : option node :=
  match p with
  | [] => Some t
  | n :: q =>
      match t with
      | Dir _ es =>
          match find_entry n es with
          | Some c => lookup c q
          | None => None
          end
      | _ => None
      end
  end.

(** The error [os.stat] raises on a path that does not resolve. *)
Fixpoint errno_of (t : node) (p : list string) : exn :=
  match p with
  | [] => FileNotFoundError
  | n :: q =>
      match t with
      | Dir _ es =>
          match find_entry n es with
          | Some c => errno_of c q
          | None => FileNotFoundError
          end
      | Dangling => FileNotFoundError
      | File _ _ => NotADirectoryError
      end
  end.

(** Rewrite the node at [p] with [g]; [None] when [p] does not resolve or
    [g] refuses. *)
Fixpoint modify (t : node) (p : list string) (g : node -> option node)
  : option node :=
  match p with
  | [] => g t
  | n :: q =>
      match t with
      | Dir a es =>
          match find_entry n es with
          | Some c =>
              match modify c q g with
              | Some c' => Some (Dir a (set_entry n c' es))
              | None => None
              end
          | None => None
          end
      | _ => None
      end
  end.

(** ** The world: two mounted trees and a clock *)

Inductive mount : Type := Source | Destination.

(** A path is a mount and the components below its root:
    [os.path.join(root, item)] appends a component,
    [os.path.relpath(p, root)] are the components, and
    [os.path.basename(p)] is the last of them (a folder itself is named
    outside the model: its components are none). *)
Definition path : Type := (mount * list string)%type.

Definition source_folder : path := (Source, []).
Definition destination_folder : path := (Destination, []).

Definition join (p : path) (item : string) : path := (fst p, snd p ++ [item]).
Definition relpath (p : path) : list string := snd p.
Definition join_rel (root : path) (rel : list string) : path :=
  (fst root, snd root ++ rel).
Definition basename (p : path) : string := last (snd p) EmptyString.

(** [w_src], [w_dst]: the trees at the two folders, [None] when the folder
    is missing. [w_parent_writable]: whether the directory that holds the
    destination folder admits a new entry. [w_clock]: the time the next
    change is stamped with. *)
Record world : Type := {
  w_src : option node;
  w_dst : option node;
  w_parent_writable : bool;
  w_clock : Z
}.

Definition root_of (w : world) (m : mount) : option node :=
  match m with Source => w_src w | Destination => w_dst w end.

(** Install a new tree at a mount; the clock ticks. *)
Definition set_root (w : world) (m : mount) (t : option node) : world :=
  match m with
  | Source =>
      {| w_src := t; w_dst := w_dst w;
         w_parent_writable := w_parent_writable w; w_clock := w_clock w + 1 |}
  | Destination =>
      {| w_src := w_src w; w_dst := t;
         w_parent_writable := w_parent_writable w; w_clock := w_clock w + 1 |}
  end.

Definition lookup_path (w : world) (p : path) : option node :=
  match root_of w (fst p) with
  | Some t => lookup t (snd p)
  | None => None
  end.

(** [os.stat]: follows links, so a dangling link has no status. *)
Definition stat (w : world) (p : path) : result node :=
  match root_of w (fst p) with
  | Some t =>
      match lookup t (snd p) with
      | Some Dangling => Raise FileNotFoundError
      | Some c => Ok c
      | None => Raise (errno_of t (snd p))
      end
  | None => Raise FileNotFoundError
  end.

(** [os.path.exists] and [os.path.isdir] swallow the error of [os.stat]. *)
Definition os_path_exists (w : world) (p : path) : bool :=
  match stat w p with Ok _ => true | Raise _ => false end.

Definition os_path_isdir (w : world) (p : path) : bool :=
  match stat w p with Ok c => is_dir c | Raise _ => false end.

Definition st_mtime (c : node) : Z :=
  match c with
  | File a _ => f_mtime a
  | Dir a _ => d_mtime a
  | Dangling => 0
  end.

Definition st_size (c : node) : Z :=
  match c with
  | File _ data => Z.of_nat (String.length data)
  | Dir a _ => d_size a
  | Dangling => 0
  end.

Definition os_path_getmtime (w : world) (p : path) : result Z :=
  c <- stat w p ;; Ok (st_mtime c).

Definition os_path_getsize (w : world) (p : path) : result Z :=
  c <- stat w p ;; Ok (st_size c).

(** ** Directory entries *)

Fixpoint split_last (p : list string) : option (list string * string) :=
  match p with
  | [] => None
  | n :: r =>
      match split_last r with
      | None => Some ([], n)
      | Some (q, l) => Some (n :: q, l)
      end
  end.

Definition touch (a : dattr) (now : Z) : dattr :=
  {| d_mtime := now; d_size := d_size a; d_writable := d_writable a |}.

(** The directory entry a path names: whether the directory that holds it
    admits changes, and the node in it, if any. Raises when that directory
    does not resolve. The entry of a folder itself is in the directory
    outside the model. *)
Definition entry_of (w : world) (item : path) : result (bool * option node) :=
  match split_last (snd item) with
  | None => Ok (w_parent_writable w, root_of w (fst item))
  | Some (q, n) =>
      match root_of w (fst item) with
      | None => Raise FileNotFoundError
      | Some t =>
          match lookup t q with
          | Some (Dir a es) => Ok (d_writable a, find_entry n es)
          | Some (File _ _) => Raise NotADirectoryError
          | Some Dangling => Raise FileNotFoundError
          | None => Raise (errno_of t q)
          end
      end
  end.

(** Refill ([Some c]) or clear ([None]) the directory entry a path names;
    the directory's modification time becomes the clock's. *)
Definition set_entry_of (w : world) (item : path) (c : option node) : world :=
  match split_last (snd item) with
  | None => set_root w (fst item) c
  | Some (q, n) =>
      match root_of w (fst item) with
      | None => w
      | Some t =>
          let g d :=
            match d with
            | Dir a es =>
                Some (Dir (touch a (w_clock w))
                          (match c with
                           | Some c' => set_entry n c' es
                           | None => remove_entry n es
                           end))
            | _ => None
            end in
          match modify t q g with
          | Some t' => set_root w (fst item) (Some t')
          | None => w
          end
      end
  end.

(** Replace the node at an existing path, its directory left as it is. *)
Definition overwrite (w : world) (item : path) (c : node) : world :=
  match root_of w (fst item) with
  | None => w
  | Some t =>
      match modify t (snd item) (fun _ => Some c) with
      | Some t' => set_root w (fst item) (Some t')
      | None => w
      end
  end.

(** ** The calls that change the filesystem *)

(** [os.remove]: unlinks anything but a directory. *)
Definition os_remove (w : world) (item : path) : result world :=
  x <- entry_of w item ;;
  match x with
  | (_, None) => Raise FileNotFoundError
  | (false, Some _) => Raise PermissionError
  | (true, Some (Dir _ _)) => Raise IsADirectoryError
  | (true, Some _) => Ok (set_entry_of w item None)
  end.

(** [os.rmdir]: removes an empty directory only. *)
Definition os_rmdir (w : world) (item : path) : result world :=
  x <- entry_of w item ;;
  match x with
  | (_, None) => Raise FileNotFoundError
  | (false, Some _) => Raise PermissionError
  | (true, Some (Dir _ [])) => Ok (set_entry_of w item None)
  | (true, Some (Dir _ (_ :: _))) => Raise DirectoryNotEmpty
  | (true, Some _) => Raise NotADirectoryError
  end.

Definition fresh_dir_size : Z := 4096.

Definition fresh_dir (now : Z) : node :=
  Dir {| d_mtime := now; d_size := fresh_dir_size; d_writable := true |} [].

(** [os.mkdir] *)
Definition os_mkdir (w : world) (item : path) : result world :=
  x <- entry_of w item ;;
  match x with
  | (_, Some _) => Raise FileExistsError
  | (false, None) => Raise PermissionError
  | (true, None) => Ok (set_entry_of w item (Some (fresh_dir (w_clock w))))
  end.

(** [os.makedirs(name)] with [exist_ok=False], on the components of [name]
    in reverse: when the head of the path is missing it is made first, a
    [FileExistsError] of that recursive call being passed over; then the
    leaf is made with [os.mkdir]. The head of a folder itself is outside
    the model. *)
Fixpoint makedirs_rev (w : world) (m : mount) (rp : list string)
  : result world :=
  match rp with
  | [] => os_mkdir w (m, [])
  | n :: rq =>
      if os_path_exists w (m, rev rq) then os_mkdir w (m, rev rq ++ [n])
      else
        match makedirs_rev w m rq with
        | Ok w' => os_mkdir w' (m, rev rq ++ [n])
        | Raise FileExistsError => os_mkdir w (m, rev rq ++ [n])
        | Raise e => Raise e
        end
  end.

Definition os_makedirs (w : world) (name : path) : result world :=
  makedirs_rev w (fst name) (rev (snd name)).

Definition mount_eqb (a b : mount) : bool :=
  match a, b with
  | Source, Source | Destination, Destination => true
  | _, _ => false
  end.

Definition path_eqb (p q : path) : bool :=
  mount_eqb (fst p) (fst q)
  && (if list_eq_dec string_dec (snd p) (snd q) then true else false).

(** [shutil.copy2(src, dst)]: a [dst] that is a directory stands for the
    entry of that directory named as [src] is; then [shutil.copyfile] opens
    [src] for reading and [dst] for writing and copies the content, and
    [shutil.copystat] carries the modification time and the mode over. *)
Definition shutil_copy2 (w : world) (src dst : path) : result world :=
  let dst := if os_path_isdir w dst then join dst (basename src) else dst in
  if path_eqb src dst && os_path_exists w src then Raise SameFileError
  else
    s <- stat w src ;;
    match s with
    | File a data =>
        x <- entry_of w dst ;;
        match x with
        | (_, Some (File _ _)) => Ok (overwrite w dst (File a data))
        | (_, Some (Dir _ _)) => Raise IsADirectoryError
        | (_, Some Dangling) => Raise FileNotFoundError
        | (false, None) => Raise PermissionError
        | (true, None) => Ok (set_entry_of w dst (Some (File a data)))
        end
    | _ => Raise IsADirectoryError
    end.

(** ** same_file_check *)

(** [True] if the item should be copied. The two pairs of attributes are
    read in the order the conjunction evaluates them, the sizes only when
    the modification times are equal; a failing [os.stat] raises. *)
Definition same_file_check (w : world) (source_item dest_item : path)
  : result bool :=
  if negb (os_path_exists w dest_item) then Ok true
  else if negb (os_path_isdir w source_item) then
    md <- os_path_getmtime w dest_item ;;
    ms <- os_path_getmtime w source_item ;;
    if negb (md =? ms) then Ok true
    else
      sd <- os_path_getsize w dest_item ;;
      ss <- os_path_getsize w source_item ;;
      Ok (negb (sd =? ss))
  else Ok false.

(** ** os.walk *)

Fixpoint dirnames (es : entries_t) : list string :=
  match es with
  | [] => []
  | (n, c) :: r => if is_dir c then n :: dirnames r else dirnames r
  end.

Fixpoint filenames (es : entries_t) : list string :=
  match es with
  | [] => []
  | (n, c) :: r => if is_dir c then filenames r else n :: filenames r
  end.

Definition walk_item : Type := (list string * (list string * list string))%type.

(** [os.walk(top, topdown)]: the triple of a directory comes before
    ([topdown]) or after the triples of its subdirectories, which are walked
    in the order listed; what is not a directory yields nothing. [top] is
    given by its components below the folder. *)
Fixpoint os_walk (topdown : bool) (top : list string) (t : node)
  : list walk_item :=
  match t with
  | Dir _ es =>
      let here := (top, (dirnames es, filenames es)) in
      let below :=
        (fix sub (l : entries_t) : list walk_item :=
           match l with
           | [] => []
           | (n, c) :: r =>
               (if is_dir c then os_walk topdown (top ++ [n]) c else [])
               ++ sub r
           end) es in
      if topdown then here :: below else below ++ [here]
  | _ => []
  end.

Definition walk_folder (topdown : bool) (w : world) (folder : mount)
  : list walk_item :=
  match root_of w folder with
  | Some t => os_walk topdown [] t
  | None => []
  end.

(** The paths [os.path.join(root, item)] of the two nested loops
    [for root, dirs, files in ...: for item in dirs + files]. *)
Definition loop_items (folder : mount) (walked : list walk_item) : list path :=
  flat_map
    (fun x : walk_item =>
       let '(root, (dirs, files)) := x in
       map (fun item => join (folder, root) item) (dirs ++ files))
    walked.

(** ** Outcome records *)

(** The messages appended to [messages_for_log], one constructor per
    f-string of [folder_synchronization]. *)
Inductive outcome : Type :=
| SourceMissing
| CreatedFolder
| CreateFolderFailed (e : exn)
| Removed (item : path)
| RemoveFailed (item : path) (e : exn)
| Created (dest_item : path)
| CreateFailed (dest_item : path) (e : exn)
| Copied (source_item dest_item : path)
| CopyFailed (source_item dest_item : path) (e : exn).

Definition is_error (o : outcome) : bool :=
  match o with
  | SourceMissing | CreateFolderFailed _ | RemoveFailed _ _
  | CreateFailed _ _ | CopyFailed _ _ _ => true
  | _ => false
  end.

(** The outcomes that report a change made to the destination. *)
Definition is_change (o : outcome) : bool :=
  match o with
  | CreatedFolder | Removed _ | Created _ | Copied _ _ => true
  | _ => false
  end.

(** The destination path an outcome is about. *)
Definition subject (o : outcome) : path :=
  match o with
  | SourceMissing => source_folder
  | CreatedFolder | CreateFolderFailed _ => destination_folder
  | Removed item | RemoveFailed item _ => item
  | Created d | CreateFailed d _ => d
  | Copied _ d | CopyFailed _ d _ => d
  end.

(** ** The phases of a pass *)

Definition pass_state : Type := (world * list outcome)%type.

(** Lines 116-121: the destination items with nothing at their relative
    path under the source folder. *)
Definition items_to_remove (w : world) : list path :=
  filter
    (fun dest_item =>
       negb (os_path_exists w (join_rel source_folder (relpath dest_item))))
    (loop_items Destination (walk_folder false w Destination)).

(** Lines 124-131: the body of the removal loop. *)
Definition remove_step (st : pass_state) (item : path) : pass_state :=
  let (w, messages_for_log) := st in
  match (if os_path_isdir w item then os_rmdir w item else os_remove w item)
  with
  | Ok w' => (w', messages_for_log ++ [Removed item])
  | Raise e => (w, messages_for_log ++ [RemoveFailed item e])
  end.

Definition removal_phase (st : pass_state) : pass_state :=
  fold_left remove_step (items_to_remove (fst st)) st.

(** Lines 135-152: the body of the creation loop. [same_file_check] is
    called outside the [try] blocks. *)
Definition create_step (st : pass_state) (source_item : path)
  : result pass_state :=
  let (w, messages_for_log) := st in
  let dest_item := join_rel destination_folder (relpath source_item) in
  b <- same_file_check w source_item dest_item ;;
  if b then
    if os_path_isdir w source_item then
      match os_makedirs w dest_item with
      | Ok w' => Ok (w', messages_for_log ++ [Created dest_item])
      | Raise e => Ok (w, messages_for_log ++ [CreateFailed dest_item e])
      end
    else
      match shutil_copy2 w source_item dest_item with
      | Ok w' => Ok (w', messages_for_log ++ [Copied source_item dest_item])
      | Raise e =>
          Ok (w, messages_for_log ++ [CopyFailed source_item dest_item e])
      end
  else Ok st.

Fixpoint for_each {A S : Type} (body : S -> A -> result S) (l : list A)
  (st : S) : result S :=
  match l with
  | [] => Ok st
  | x :: r => st' <- body st x ;; for_each body r st'
  end.

Definition creation_phase (st : pass_state) : result pass_state :=
  for_each create_step
    (loop_items Source (walk_folder true (fst st) Source)) st.

(** ** Messages *)

(** The three path arguments of the program. *)
Record config : Type := {
  source_name : string;
  destination_name : string;
  log_path : string
}.

Definition path_str (cfg : config) (p : path) : string :=
  String.concat "/"
    ((match fst p with
      | Source => source_name cfg
      | Destination => destination_name cfg
      end) :: snd p).

(** [str(e)], without the file name it ends with. *)
Definition exn_str (e : exn) : string :=
  match e with
  | FileNotFoundError => "[Errno 2] No such file or directory"
  | FileExistsError => "[Errno 17] File exists"
  | PermissionError => "[Errno 13] Permission denied"
  | NotADirectoryError => "[Errno 20] Not a directory"
  | IsADirectoryError => "[Errno 21] Is a directory"
  | DirectoryNotEmpty => "[Errno 39] Directory not empty"
  | SameFileError => "source and destination are the same file"
  end.

Definition render (cfg : config) (o : outcome) : string :=
  let ps := path_str cfg in
  match o with
  | SourceMissing =>
      "Error: Failed to synchronize '" ++ source_name cfg
      ++ "' because it does not exist or it is not a directory."
  | CreatedFolder =>
      "Info: Created " ++ destination_name cfg ++ " because it doesn't exist."
  | CreateFolderFailed e =>
      "Error: Failed to create " ++ destination_name cfg ++ " due to error: "
      ++ exn_str e ++ ". Exiting synchronization."
  | Removed item => "Info: Removed " ++ ps item ++ "."
  | RemoveFailed item e =>
      "Error: Failed to remove " ++ ps item ++ " due to error: "
      ++ exn_str e ++ "."
  | Created d => "Info: Created " ++ ps d ++ "."
  | CreateFailed d e =>
      "Error: Failed to create " ++ ps d ++ " due to error: " ++ exn_str e
      ++ "."
  | Copied s d => "Info: " ++ ps s ++ " copied to " ++ ps d ++ "."
  | CopyFailed s d e =>
      "Error: Failed to copy " ++ ps s ++ " to " ++ ps d ++ " due to error: "
      ++ exn_str e ++ "."
  end%string.

(** ** update_log *)

Definition nl : string := String (ascii_of_nat 10) EmptyString.

(** The log file, outside the two folders: its text when it exists, whether
    it can be created, and whether it can be opened for appending. *)
Record logfs : Type := {
  log_file : option string;
  log_creatable : bool;
  log_appendable : bool
}.

(** The log file and what [print] has written, oldest first. *)
Record io : Type := { io_log : logfs; io_console : list string }.

Definition print (s : io) (line : string) : io :=
  {| io_log := io_log s; io_console := io_console s ++ [line] |}.

Definition with_text (l : logfs) (text : string) : logfs :=
  {| log_file := Some text;
     log_creatable := log_creatable l;
     log_appendable := log_appendable l |}.

(** [open(log, "w")] of a missing file, closed at once. *)
Definition open_w (l : logfs) : result logfs :=
  if log_creatable l then Ok (with_text l EmptyString)
  else Raise PermissionError.

(** [open(log, "a")] followed by the writing of [text]. *)
Definition append_text (l : logfs) (text : string) : result logfs :=
  match log_file l with
  | Some old =>
      if log_appendable l then Ok (with_text l (old ++ text)%string)
      else Raise PermissionError
  | None =>
      if log_creatable l then Ok (with_text l text)
      else Raise PermissionError
  end.

Definition log_header (hour : string) : string :=
  (nl ++ nl ++ "In the synchronization of " ++ hour
   ++ ", the following updates have been made:" ++ nl)%string.

Definition no_changes : string := "Info: No changes have been made.".

(** [hour] is the start of the pass as [strftime] formats it. Returns
    [content] as the call leaves it, and the log file and console. *)
Definition update_log (cfg : config) (content : list string) (hour : string)
  (s : io) : list string * io :=
  let log_message := log_header hour in
  let '(content, s) :=
    match log_file (io_log s) with
    | Some _ => (content, s)
    | None =>
        match open_w (io_log s) with
        | Ok l =>
            (content ++ [("Info: Created log at " ++ log_path cfg
                          ++ " because it didn't exist.")%string],
             {| io_log := l; io_console := io_console s |})
        | Raise e =>
            (content,
             print s ("Error: Log at " ++ log_path cfg
                      ++ " didn't exist and failed to create it due to "
                      ++ exn_str e ++ ".")%string)
        end
    end in
  let s := print s log_message in
  let s :=
    match content with
    | [] => print s no_changes
    | _ => print s (String.concat nl content)
    end in
  let body :=
    match content with
    | [] => (no_changes ++ nl)%string
    | _ => String.concat nl content
    end in
  match append_text (io_log s) (log_message ++ body)%string with
  | Ok l => (content, {| io_log := l; io_console := io_console s |})
  | Raise e =>
      (content,
       print s ("Error: Failed to open " ++ log_path cfg
                ++ " for writing due to " ++ exn_str e ++ ".")%string)
  end.

(** ** folder_synchronization *)

(** Lines 101-152, the log apart: the filesystem the pass leaves and the
    outcomes it collects, or the exception that escapes it. *)
Definition reconcile (w : world) : result pass_state :=
  if negb (os_path_exists w source_folder) then Ok (w, [SourceMissing])
  else
    let ensured : pass_state * bool :=
      if negb (os_path_exists w destination_folder) then
        match os_makedirs w destination_folder with
        | Ok w' => ((w', [CreatedFolder]), true)
        | Raise e => ((w, [CreateFolderFailed e]), false)
        end
      else ((w, []), true) in
    if snd ensured then creation_phase (removal_phase (fst ensured))
    else Ok (fst ensured).

Record pass_result : Type := {
  r_world : world;
  r_outcomes : list outcome;
  r_io : io
}.

Definition folder_synchronization (cfg : config) (hour : string)
  (w : world) (s : io) : result pass_result :=
  st <- reconcile w ;;
  let (w', messages_for_log) := st in
  let (_, s') := update_log cfg (map (render cfg) messages_for_log) hour s in
  Ok {| r_world := w'; r_outcomes := messages_for_log; r_io := s' |}.

(** ** main *)

(** [float(interval)], as [interval + start_time] converts its [int]
    operand: the nearest float, ties to even. [None] stands for the
    [OverflowError] of an [int] beyond the range of a float. *)
Definition float_of_int (n : Z) : option float :=
  let f := SF2Prim (binary_normalize prec emax n 0 false) in
  if is_infinity f then None else Some f.

(** [max(0, x)]: the second argument replaces the first only where it is
    greater, so a NaN and a zero of either sign give the first. *)
Definition max_0 (x : float) : float :=
  if (0 <? x)%float then x else 0%float.

(** Line 25: the seconds [time.sleep] is called with, [start_time] being
    the reading of the clock on line 22 and [now] the one on line 25. *)
Definition sleep_seconds (interval : Z) (start_time now : float)
  : option float :=
  match float_of_int interval with
  | Some i => Some (max_0 ((i + start_time) - now)%float)
  | None => None
  end.

(** The delay in the words of the specification,
    [max(0, interval - pass_duration)], for a pass that lasted from
    [start_time] to [now]. *)
Definition spec_delay (interval : Z) (start_time now : float)
  : option float :=
  match float_of_int interval with
  | Some i => Some (max_0 (i - (now - start_time))%float)
  | None => None
  end.

(** ** Notions the statements use *)

(** [prefix p q]: the path [q] is [p] or lies below it. *)
Definition prefix (p q : list string) : Prop := exists r, q = p ++ r.

(** The relative paths present under a tree. *)
Fixpoint rel_paths (t : node) : list (list string) :=
  match t with
  | Dir _ es =>
      (fix sub (l : entries_t) : list (list string) :=
         match l with
         | [] => []
         | (n, c) :: r => ([n] :: map (cons n) (rel_paths c)) ++ sub r
         end) es
  | _ => []
  end.

Definition tree_paths (t : option node) : list (list string) :=
  match t with Some t => rel_paths t | None => [] end.

(** The triples [os.walk] yields for the subdirectories among [es]. *)
Fixpoint walk_entries (topdown : bool) (top : list string) (es : entries_t)
  : list walk_item :=
  match es with
  | [] => []
  | (n, c) :: r =>
      (if is_dir c then os_walk topdown (top ++ [n]) c else [])
      ++ walk_entries topdown top r
  end.

Fixpoint names_distinct (l : list string) : bool :=
  match l with
  | [] => true
  | n :: r => negb (existsb (String.eqb n) r) && names_distinct r
  end.

(** A tree as a filesystem holds it: no directory lists a name twice. *)
Fixpoint wfb (t : node) : bool :=
  match t with
  | Dir _ es =>
      names_distinct (map fst es)
      && (fix all (l : entries_t) : bool :=
            match l with
            | [] => true
            | (_, c) :: r => wfb c && all r
            end) es
  | _ => true
  end.

Definition well_formed (t : node) : Prop := wfb t = true.

(** [q] lies below [p]. *)
Definition strictly_below (p q : path) : Prop :=
  fst p = fst q /\ exists n r, snd q = snd p ++ n :: r.

(** The items of the triple of one directory. *)
Definition here_items (folder : mount) (top : list string) (es : entries_t)
  : list path :=
  map (fun item => join (folder, top) item) (dirnames es ++ filenames es).

(** What the order of a walk keeps apart: top-down, no item comes before
    one it lies below; bottom-up, no item comes before one that lies below
    it. *)
Definition walk_order (topdown : bool) (x y : path) : Prop :=
  if topdown then ~ strictly_below y x else ~ strictly_below x y.

(** Whether a node is there for [os.stat]. *)
Definition visible (c : option node) : bool :=
  match c with
  | Some Dangling | None => false
  | Some _ => true
  end.

Definition is_dir_opt (c : option node) : bool :=
  match c with Some c => is_dir c | None => false end.

(** What the body of the removal loop does to an item, from the entry the
    item names. *)
Definition removal_of (w : world) (item : path) : world * outcome :=
  match entry_of w item with
  | Raise e => (w, RemoveFailed item e)
  | Ok (_, None) => (w, RemoveFailed item FileNotFoundError)
  | Ok (false, Some _) => (w, RemoveFailed item PermissionError)
  | Ok (true, Some (Dir _ (_ :: _))) => (w, RemoveFailed item DirectoryNotEmpty)
  | Ok (true, Some _) => (set_entry_of w item None, Removed item)
  end.

(** Where [shutil.copy2] writes: inside [dst] when that is a directory. *)
Definition copy_target (w : world) (src dst : path) : path :=
  if os_path_isdir w dst then join dst (basename src) else dst.

(** A regular file of the destination at a relative path where the source
    holds a directory. *)
Definition mismatch (P : list string) (f : node) (w : world) : Prop :=
  is_dir_opt (lookup_path w (Source, P)) = true
  /\ lookup_path w (Destination, P) = Some f
  /\ exists a data, f = File a data.

(** The outcomes a pass collects, [None] when an exception escapes it. *)
Definition outcomes_of (r : result pass_state) : option (list outcome) :=
  match r with Ok st => Some (snd st) | Raise _ => None end.

(** Two passes in succession. *)
Definition second_pass (w : world) : result pass_state :=
  st <- reconcile w ;; reconcile (fst st).

Definition created_log_line (cfg : config) : string :=
  ("Info: Created log at " ++ log_path cfg ++ " because it didn't exist.")%string.

Definition log_body (content : list string) : string :=
  match content with
  | [] => (no_changes ++ nl)%string
  | _ => String.concat nl content
  end.

Definition old_text (l : logfs) : string :=
  match log_file l with Some t => t | None => EmptyString end.

(** The text [update_log] works with after its first step: the outcomes,
    and after them the line that reports a log file just created. *)
Definition logged (cfg : config) (content : list string) (l : logfs)
  : list string :=
  match log_file l with
  | Some _ => content
  | None => if log_creatable l then content ++ [created_log_line cfg]
            else content
  end.

(** Two states of a path that differ at most in the attributes and the
    entries of a directory. *)
Definition same_kind (x y : option node) : Prop :=
  match x, y with
  | None, None => True
  | Some (Dir _ _), Some (Dir _ _) => True
  | Some (Dir _ _), _ | _, Some (Dir _ _) => False
  | Some c, Some c' => c = c'
  | _, _ => False
  end.

(** A pass, or a part of one, that recorded no error. *)
Definition clean (outs : list outcome) : Prop :=
  Forall (fun o => is_error o = false) outs.

(** From [w] to [w'] the source is the same and every destination path is
    of the kind it was or, below the root, gone. *)
Definition shrinks (w w' : world) : Prop :=
  w_src w' = w_src w
  /\ forall P, (P <> [] /\ lookup_path w' (Destination, P) = None)
               \/ same_kind (lookup_path w (Destination, P))
                    (lookup_path w' (Destination, P)).

(** The destination is in line with the source at [P]: a file of the
    source has a file with its modification time and size, a directory of
    the source has something [os.stat] sees. *)
Definition settled (w : world) (P : list string) : Prop :=
  match lookup_path w (Source, P) with
  | Some (File a data) =>
      exists a' data',
        lookup_path w (Destination, P) = Some (File a' data')
        /\ f_mtime a' = f_mtime a
        /\ String.length data' = String.length data
  | Some (Dir _ _) => visible (lookup_path w (Destination, P)) = true
  | Some Dangling => False
  | None => True
  end.

(** All that the destination holds below its root is visible in the
    source. *)
Definition within (w : world) : Prop :=
  forall P c,
    P <> [] -> lookup_path w (Destination, P) = Some c ->
    visible (lookup_path w (Source, P)) = true.

(** The destination holds no directory at the relative path of a regular
    file of the source. *)
Definition no_dir_over_file (w : world) : Prop :=
  forall P a data,
    P <> [] -> lookup_path w (Source, P) = Some (File a data) ->
    is_dir_opt (lookup_path w (Destination, P)) = false.

(** From [w] to [w'] the source is the same and every destination path is
    of the kind it was, but for new directories at and above [p]. *)
Definition grows (p : list string) (w w' : world) : Prop :=
  w_src w' = w_src w
  /\ forall P,
       same_kind (lookup_path w (Destination, P))
         (lookup_path w' (Destination, P))
       \/ (lookup_path w (Destination, P) = None
           /\ prefix P p
           /\ is_dir_opt (lookup_path w' (Destination, P)) = true).

(** From [w] to [w'] the source is the same, [p] has become the file [f]
    where no directory was, and every other destination path is of the kind
    it was. *)
Definition writes (p : list string) (f : node) (w w' : world) : Prop :=
  w_src w' = w_src w
  /\ lookup_path w' (Destination, p) = Some f
  /\ forall P, P <> p ->
               same_kind (lookup_path w (Destination, P))
                 (lookup_path w' (Destination, P)).

(** What the creation loop keeps and what a turn on [p] adds. *)
Definition in_step (w w' : world) : Prop :=
  w_src w' = w_src w
  /\ (within w -> within w')
  /\ (no_dir_over_file w -> no_dir_over_file w')
  /\ (visible (lookup_path w destination_folder) = true ->
      visible (lookup_path w' destination_folder) = true)
  /\ forall P, settled w P -> settled w' P.

(** The tree at a mount, when there is one, lists no name twice. *)
Definition well_formed_at (w : world) (m : mount) : Prop :=
  forall t, root_of w m = Some t -> well_formed t.

(** What a pass without errors leaves, in relation to the world [w] it
    started from. *)
Definition mirrored (w w' : world) : Prop :=
  w_src w' = w_src w
  /\ within w'
  /\ no_dir_over_file w'
  /\ visible (lookup_path w' destination_folder) = true
  /\ forall s, In s (loop_items Source (walk_folder true w Source)) ->
               settled w' (snd s).

(** The outcomes of the removal loop and of the creation loop. *)
Definition is_removal (o : outcome) : bool :=
  match o with Removed _ | RemoveFailed _ _ => true | _ => false end.

Definition is_creation (o : outcome) : bool :=
  match o with
  | Created _ | CreateFailed _ _ | Copied _ _ | CopyFailed _ _ _ => true
  | _ => false
  end.

(** [l] is [l'] with some elements left out. *)
Inductive subseq {A : Type} : list A -> list A -> Prop :=
| subseq_nil : subseq [] []
| subseq_skip (x : A) (l l' : list A) : subseq l l' -> subseq l (x :: l')
| subseq_keep (x : A) (l l' : list A) : subseq l l' -> subseq (x :: l) (x :: l').

(** The destination path of a source item. *)
Definition dest_of (source_item : path) : path :=
  join_rel destination_folder (relpath source_item).

(** A regular file [f] of the destination at [P] for which the check finds
    no write needed: the source holds a directory at [P], or something with
    the modification time and the size of [f]. *)
Definition spared (P : list string) (f : node) (w : world) : Prop :=
  lookup_path w (Destination, P) = Some f
  /\ (exists a data, f = File a data)
  /\ exists c,
       lookup_path w (Source, P) = Some c
       /\ visible (Some c) = true
       /\ (is_dir c = true
           \/ st_mtime f = st_mtime c /\ st_size f = st_size c).

(** The line [update_log] prints for the outcomes. *)
Definition shown (content : list string) : string :=
  match content with
  | [] => no_changes
  | _ => String.concat nl content
  end.

(** The destination is a replica of the source: at every relative path, a
    regular file of the source has a regular file with its modification
    time and size, a directory has a directory, and where the source has
    nothing the destination has nothing. *)
Definition replica (w : world) : Prop :=
  forall P,
    match lookup_path w (Source, P) with
    | Some (File a data) =>
        exists a' data',
          lookup_path w (Destination, P) = Some (File a' data')
          /\ f_mtime a' = f_mtime a
          /\ String.length data' = String.length data
    | Some (Dir _ _) => is_dir_opt (lookup_path w (Destination, P)) = true
    | Some Dangling => False
    | None => lookup_path w (Destination, P) = None
    end.

(** An outcome that reports a copy. *)
Definition is_copy (o : outcome) : bool :=
  match o with Copied _ _ => true | _ => false end.

(** From [w] to [w'] every destination path is of the kind it was, or is
    new where the source has something, or was no directory and is written
    where the source has something. *)
Definition fills (w w' : world) : Prop :=
  forall P,
    same_kind (lookup_path w (Destination, P))
      (lookup_path w' (Destination, P))
    \/ (is_dir_opt (lookup_path w (Destination, P)) = false
        /\ visible (lookup_path w (Source, P)) = true).

(** Every directory of the destination that is in [w] and in [w'] takes
    changes in [w'] exactly if it did in [w]. *)
Definition keeps_writable (w w' : world) : Prop :=
  forall P a es a' es',
    lookup_path w (Destination, P) = Some (Dir a es) ->
    lookup_path w' (Destination, P) = Some (Dir a' es') ->
    d_writable a' = d_writable a.

(** What decides the removal of a slated item [x] whose entry is [c] in a
    directory that admits changes or not ([wr]): the directory admits the
    change and, when [c] is a directory, everything it held has been
    removed. *)
Definition removable (outs : list outcome) (x : path) (wr : bool) (c : node)
  : Prop :=
  wr = true
  /\ forall a es n, c = Dir a es -> In n (map fst es) ->
                    In (Removed (join x n)) outs.

(** The removal loop of a pass from [w0] after the turns on the items
    [done], which left the outcomes [outs]. *)
Definition removal_run (w0 : world) (done : list path) (w : world)
  (outs : list outcome) : Prop :=
  shrinks w0 w
  /\ keeps_writable w0 w
  /\ map subject outs = done
  /\ Forall (fun o => is_removal o = true) outs
  /\ (forall x, In (Removed x) outs -> lookup_path w x = None)
  /\ (forall x e, In (RemoveFailed x e) outs -> lookup_path w x <> None)
  /\ (forall P, lookup_path w (Destination, P) = None ->
                lookup_path w0 (Destination, P) = None
                \/ exists x, In (Removed x) outs /\ fst x = Destination
                             /\ prefix (snd x) P)
  /\ (forall x wr c, In x done -> entry_of w0 x = Ok (wr, Some c) ->
                     (In (Removed x) outs <-> removable outs x wr c)).


(** * Properties *)

(** ** Worlds used as concrete inputs *)

Module Sample.

Definition fa (m : Z) : fattr := {| f_mtime := m; f_mode := 420 |}.

Definition da (m : Z) : dattr :=
  {| d_mtime := m; d_size := fresh_dir_size; d_writable := true |}.

(** A directory without the permission to change its entries. *)
Definition ro (m : Z) : dattr :=
  {| d_mtime := m; d_size := fresh_dir_size; d_writable := false |}.

Definition mk (s d : option node) : world :=
  {| w_src := s; w_dst := d; w_parent_writable := true; w_clock := 100 |}.

(** The scenario of the specification: [a.txt] and an empty [sub] in the
    source, [b.txt] and [sub/old.txt] in the destination. *)
Definition scenario : world :=
  mk (Some (Dir (da 1) [("a.txt", File (fa 7) "0123456789");
                        ("sub", Dir (da 2) [])]))
     (Some (Dir (da 3) [("b.txt", File (fa 5) "x");
                        ("sub", Dir (da 4) [("old.txt", File (fa 6) "y")])])).

(** A file [f] in the source, an empty directory [f] in the destination. *)
Definition file_over_dir : world :=
  mk (Some (Dir (da 1) [("f", File (fa 7) "0123456789")]))
     (Some (Dir (da 3) [("f", Dir (da 4) [])])).

(** A directory [d] in the source, a file [d] in the destination. *)
Definition dir_over_file : world :=
  mk (Some (Dir (da 1) [("d", Dir (da 2) [])]))
     (Some (Dir (da 3) [("d", File (fa 5) "x")])).

(** The source folder is a regular file. *)
Definition source_is_file : world :=
  mk (Some (File (fa 7) "0123456789"))
     (Some (Dir (da 3) [("f", Dir (da 4) [("g", File (fa 1) "")])])).

(** A dangling link [l] in the source; a file [l] in a destination folder
    that does not admit changes. *)
Definition dangling_source : world :=
  mk (Some (Dir (da 1) [("l", Dangling)]))
     (Some (Dir (ro 3) [("l", File (fa 4) "")])).

(** The destination folder is missing. *)
Definition fresh_destination : world :=
  mk (Some (Dir (da 1) [("d", Dir (da 2) [("e", Dir (da 2) []);
                                          ("x", File (fa 4) "abc")])]))
     None.

Definition cfg : config :=
  {| source_name := "src"; destination_name := "dst"; log_path := "sync.log" |}.

Definition no_log : io :=
  {| io_log := {| log_file := None; log_creatable := true;
                  log_appendable := true |};
     io_console := [] |}.

Definition hour : string := "2024-01-01 at 00:00:00.000000".

(** An empty source; in the destination a directory [d] with a file [g]
    and a directory [e] that does not admit changes and holds a file
    [f]. *)
Definition stuck : world :=
  mk (Some (Dir (da 1) []))
     (Some (Dir (da 3)
              [("d", Dir (da 4) [("e", Dir (ro 5) [("f", File (fa 6) "y")]);
                                 ("g", File (fa 7) "z")])])).

End Sample.

(** Runs and worlds the further properties are shown at. *)
Module Run.

(** What a pass from [w] returns. *)
Definition pass_of (w : world) (s : io) : pass_result :=
  match folder_synchronization Sample.cfg Sample.hour w s with
  | Ok r => r
  | Raise _ => {| r_world := w; r_outcomes := []; r_io := s |}
  end.

Definition after (w : world) : pass_state :=
  match reconcile w with
  | Ok st => st
  | Raise _ => (w, [])
  end.

(** [a.txt] with the modification time and the size of the source's, and
    another content; a file to copy and a file to remove. *)
Definition stale : world :=
  Sample.mk
    (Some (Dir (Sample.da 1) [("a.txt", File (Sample.fa 7) "0123456789");
                              ("n.txt", File (Sample.fa 2) "new")]))
    (Some (Dir (Sample.da 3) [("a.txt", File (Sample.fa 7) "9876543210");
                              ("o.txt", File (Sample.fa 5) "x")])).

(** The destination is a replica of the source. *)
Definition synced : world :=
  Sample.mk
    (Some (Dir (Sample.da 1) [("a.txt", File (Sample.fa 7) "0123456789");
                              ("sub", Dir (Sample.da 2) [])]))
    (Some (Dir (Sample.da 3) [("a.txt", File (Sample.fa 7) "0123456789");
                              ("sub", Dir (Sample.da 9) [])])).

End Run.

Example scenario_outcomes :
  outcomes_of (reconcile Sample.scenario)
  = Some [Removed (Destination, ["sub"; "old.txt"]);
          Removed (Destination, ["b.txt"]);
          Copied (Source, ["a.txt"]) (Destination, ["a.txt"])].
Proof. vm_compute. reflexivity. Qed.

(** ** Directory entries *)

Lemma find_entry_set_same (n : string) (c : node) (es : entries_t) :
  find_entry n (set_entry n c es) = Some c.
Proof.
  induction es as [|[m d] r IH]; simpl.
  - now rewrite String.eqb_refl.
  - destruct (String.eqb n m) eqn:E; simpl; rewrite E; auto.
Qed.

Lemma find_entry_set_other (n m : string) (c : node) (es : entries_t) :
  n <> m -> find_entry m (set_entry n c es) = find_entry m es.
Proof.
  intros Hnm. induction es as [|[k d] r IH]; simpl.
  - destruct (String.eqb m n) eqn:E; [|reflexivity].
    apply String.eqb_eq in E. congruence.
  - destruct (String.eqb n k) eqn:E; simpl.
    + apply String.eqb_eq in E. subst k.
      destruct (String.eqb m n) eqn:E'; [|reflexivity].
      apply String.eqb_eq in E'. congruence.
    + destruct (String.eqb m k); auto.
Qed.

Lemma find_entry_remove_same (n : string) (es : entries_t) :
  find_entry n (remove_entry n es) = None.
Proof.
  induction es as [|[m d] r IH]; simpl; [reflexivity|].
  destruct (String.eqb n m) eqn:E; simpl; [|rewrite E]; auto.
Qed.

Lemma find_entry_remove_other (n m : string) (es : entries_t) :
  n <> m -> find_entry m (remove_entry n es) = find_entry m es.
Proof.
  intros Hnm. induction es as [|[k d] r IH]; simpl; [reflexivity|].
  destruct (String.eqb n k) eqn:E; simpl.
  - apply String.eqb_eq in E. subst k.
    destruct (String.eqb m n) eqn:E'; [|assumption].
    apply String.eqb_eq in E'. congruence.
  - destruct (String.eqb m k); auto.
Qed.

Lemma find_entry_In (n : string) (c : node) (es : entries_t) :
  find_entry n es = Some c -> In (n, c) es.
Proof.
  induction es as [|[m d] r IH]; simpl; [discriminate|].
  destruct (String.eqb n m) eqn:E.
  - apply String.eqb_eq in E. intros [= ->]. subst. auto.
  - auto.
Qed.

(** ** Paths *)

Lemma split_last_snoc (q : list string) (n : string) :
  split_last (q ++ [n]) = Some (q, n).
Proof.
  induction q as [|m q IH]; simpl; [reflexivity|]. now rewrite IH.
Qed.

Lemma split_last_some (p q : list string) (n : string) :
  split_last p = Some (q, n) -> p = q ++ [n].
Proof.
  revert q. induction p as [|m p IH]; simpl; intros q; [discriminate|].
  destruct (split_last p) as [[q' l]|] eqn:E.
  - intros [= <- <-]. simpl. f_equal. now apply IH.
  - intros [= <- <-]. destruct p as [|k p]; [reflexivity|].
    simpl in E. destruct (split_last p) as [[? ?]|]; discriminate.
Qed.

Lemma split_last_none (p : list string) : split_last p = None -> p = [].
Proof.
  destruct p as [|m p]; [reflexivity|]. simpl.
  destruct (split_last p) as [[? ?]|]; discriminate.
Qed.

Lemma prefix_refl (p : list string) : prefix p p.
Proof. exists []. now rewrite app_nil_r. Qed.

Lemma prefix_cons (n m : string) (p q : list string) :
  prefix (n :: p) (m :: q) <-> n = m /\ prefix p q.
Proof.
  split.
  - intros [r H]. simpl in H. injection H as -> ->. split; [reflexivity|].
    now exists r.
  - intros [-> [r ->]]. now exists r.
Qed.

Lemma prefix_nil_r (p : list string) : prefix p [] -> p = [].
Proof. intros [r H]. symmetry in H. now apply app_eq_nil in H. Qed.

Lemma prefix_dec (p q : list string) : {prefix p q} + {~ prefix p q}.
Proof.
  revert q. induction p as [|n p IH]; intros q.
  - left. now exists q.
  - destruct q as [|m q].
    + right. intros H. apply prefix_nil_r in H. discriminate.
    + destruct (string_dec n m) as [->|Hnm].
      * destruct (IH q) as [H|H].
        -- left. now apply prefix_cons.
        -- right. intros H'. apply prefix_cons in H'. tauto.
      * right. intros H'. apply prefix_cons in H'. tauto.
Qed.

(** ** Lookup and rewriting *)

Lemma lookup_app (t : node) (p q : list string) :
  lookup t (p ++ q)
  = match lookup t p with Some c => lookup c q | None => None end.
Proof.
  revert t. induction p as [|n p IH]; intros t; simpl; [reflexivity|].
  destruct t as [| a es |]; try reflexivity.
  destruct (find_entry n es); auto.
Qed.

(** What lies on the way to an existing path is a directory. *)
Lemma lookup_above_dir (t c : node) (p r : list string) :
  lookup t (p ++ r) = Some c -> r <> [] ->
  exists a es, lookup t p = Some (Dir a es).
Proof.
  rewrite lookup_app. destruct (lookup t p) as [d|]; [|discriminate].
  destruct r as [|n r]; [congruence|]. simpl.
  destruct d as [| a es |]; try discriminate. eauto.
Qed.

Lemma modify_below (t t' : node) (q r : list string)
  (g : node -> option node) :
  modify t q g = Some t' ->
  lookup t' (q ++ r)
  = match lookup t q with
    | Some c => match g c with Some c' => lookup c' r | None => None end
    | None => None
    end.
Proof.
  revert t t'. induction q as [|n q IH]; intros t t'; simpl.
  - intros ->. reflexivity.
  - destruct t as [| a es |]; try discriminate.
    destruct (find_entry n es) as [c|] eqn:E; [|discriminate].
    destruct (modify c q g) as [c'|] eqn:M; [|discriminate].
    intros [= <-]. simpl. rewrite find_entry_set_same. now apply IH.
Qed.

Lemma modify_succeeds (t c c' : node) (q : list string)
  (g : node -> option node) :
  lookup t q = Some c -> g c = Some c' -> exists t', modify t q g = Some t'.
Proof.
  revert t. induction q as [|n q IH]; intros t; simpl.
  - intros [= ->] ->. eauto.
  - destruct t as [| a es |]; try discriminate.
    destruct (find_entry n es) as [d|]; [|discriminate].
    intros H G. destruct (IH _ H G) as [d' ->]. eauto.
Qed.

(** Rewriting at [q] leaves what is neither at, below, nor above [q]. *)
Lemma modify_apart (t t' : node) (q P : list string)
  (g : node -> option node) :
  modify t q g = Some t' -> ~ prefix q P -> ~ prefix P q ->
  lookup t' P = lookup t P.
Proof.
  revert t t' P. induction q as [|n q IH]; intros t t' P; simpl.
  - intros _ H. destruct H. now exists P.
  - destruct t as [| a es |]; try discriminate.
    destruct (find_entry n es) as [c|] eqn:E; [|discriminate].
    destruct (modify c q g) as [c'|] eqn:M; [|discriminate].
    intros [= <-] H1 H2. destruct P as [|m P].
    + destruct H2. now exists (n :: q).
    + simpl. destruct (string_dec n m) as [->|Hnm].
      * rewrite find_entry_set_same, E. apply (IH _ _ _ M).
        -- intros H. apply H1. now apply prefix_cons.
        -- intros H. apply H2. now apply prefix_cons.
      * now rewrite find_entry_set_other.
Qed.

(** Above [q] the directories keep their attributes. *)
Lemma modify_above (t t' : node) (P r : list string)
  (g : node -> option node) :
  modify t (P ++ r) g = Some t' -> r <> [] ->
  exists a es es',
    lookup t P = Some (Dir a es) /\ lookup t' P = Some (Dir a es').
Proof.
  revert t t'. induction P as [|n P IH]; intros t t'; simpl.
  - destruct r as [|m r]; [congruence|]. simpl.
    destruct t as [| a es |]; try discriminate.
    destruct (find_entry m es) as [c|]; [|discriminate].
    destruct (modify c r g) as [c'|]; [|discriminate].
    intros [= <-] _. eauto.
  - destruct t as [| a es |]; try discriminate.
    destruct (find_entry n es) as [c|] eqn:E; [|discriminate].
    destruct (modify c (P ++ r) g) as [c'|] eqn:M; [|discriminate].
    intros [= <-] Hr. simpl. rewrite find_entry_set_same.
    now apply (IH _ _ M).
Qed.

(** Rewriting at [q] keeps every node that is not a directory and does not
    lie at or below [q]. *)
Lemma modify_keeps (t t' c : node) (q P : list string)
  (g : node -> option node) :
  modify t q g = Some t' -> ~ prefix q P ->
  lookup t P = Some c -> is_dir c = false -> lookup t' P = Some c.
Proof.
  intros M H1 L Hc.
  destruct (prefix_dec P q) as [[r ->]|H2].
  - destruct r as [|m r].
    + destruct H1. rewrite app_nil_r. apply prefix_refl.
    + destruct (modify_above _ _ _ _ _ M) as (a & es & es' & La & _);
        [discriminate|]. rewrite La in L. injection L as <-. discriminate.
  - rewrite <- L. now apply (modify_apart _ _ _ _ _ M).
Qed.

(** ** Effects of the calls on the world *)

Lemma mount_dec (a b : mount) : {a = b} + {a <> b}.
Proof. decide equality. Qed.

Lemma lookup_set_root_same (w : world) (m : mount) (t : option node)
  (P : list string) :
  lookup_path (set_root w m t) (m, P)
  = match t with Some t => lookup t P | None => None end.
Proof. destruct m; reflexivity. Qed.

Lemma lookup_set_root_other (w : world) (m m' : mount) (t : option node)
  (P : list string) :
  m <> m' -> lookup_path (set_root w m t) (m', P) = lookup_path w (m', P).
Proof. destruct m, m'; intros H; try reflexivity; congruence. Qed.

(** An entry that can be read has its directory in the tree. *)
Lemma entry_of_snoc (w : world) (m : mount) (q : list string) (n : string)
  (wr : bool) (e : option node) :
  entry_of w (m, q ++ [n]) = Ok (wr, e) ->
  exists t a es,
    root_of w m = Some t /\ lookup t q = Some (Dir a es)
    /\ wr = d_writable a /\ e = find_entry n es.
Proof.
  unfold entry_of. simpl. rewrite split_last_snoc.
  destruct (root_of w m) as [t|] eqn:R; [|discriminate].
  destruct (lookup t q) as [[| a es |]|] eqn:L; try discriminate.
  intros [= <- <-]. exists t, a, es. auto.
Qed.

Lemma entry_of_lookup (w : world) (item : path) (wr : bool)
  (e : option node) :
  entry_of w item = Ok (wr, e) -> lookup_path w item = e.
Proof.
  destruct item as [m p]. destruct (split_last p) as [[q n]|] eqn:S.
  - apply split_last_some in S. subst p. intros H.
    destruct (entry_of_snoc _ _ _ _ _ _ H) as (t & a & es & R & L & _ & ->).
    unfold lookup_path. simpl. rewrite R, lookup_app, L. simpl.
    destruct (find_entry n es); reflexivity.
  - apply split_last_none in S. subst p. unfold entry_of, lookup_path. simpl.
    intros [= _ <-]. destruct (root_of w m); reflexivity.
Qed.

(** The entry holds what it was refilled with. *)
Lemma set_entry_of_same (w : world) (item : path) (wr : bool)
  (e x : option node) :
  entry_of w item = Ok (wr, e) ->
  lookup_path (set_entry_of w item x) item = x.
Proof.
  destruct item as [m p]. destruct (split_last p) as [[q n]|] eqn:S.
  - pose proof (split_last_some _ _ _ S) as ->. intros H.
    destruct (entry_of_snoc _ _ _ _ _ _ H) as (t & a & es & R & L & _ & _).
    unfold set_entry_of. simpl. rewrite S, R.
    match goal with |- context [modify t q ?g] => set (G := g) end.
    destruct (modify_succeeds t _ _ q G L eq_refl) as [t' M]. rewrite M.
    rewrite lookup_set_root_same, (modify_below _ _ _ _ _ M), L. simpl.
    destruct x as [c|].
    + now rewrite find_entry_set_same.
    + now rewrite find_entry_remove_same.
  - pose proof (split_last_none _ S) as ->. intros _.
    unfold set_entry_of. simpl. rewrite lookup_set_root_same.
    destruct x; reflexivity.
Qed.

Lemma modify_inv (t t' : node) (q : list string) (g : node -> option node) :
  modify t q g = Some t' ->
  exists d d', lookup t q = Some d /\ g d = Some d'.
Proof.
  revert t t'. induction q as [|n q IH]; intros t t'; simpl.
  - eauto.
  - destruct t as [| a es |]; try discriminate.
    destruct (find_entry n es) as [c|]; [|discriminate].
    destruct (modify c q g) as [c'|] eqn:M; [|discriminate].
    intros _. eapply IH. eassumption.
Qed.

Lemma not_prefix_snoc (q r : list string) (n k : string) :
  ~ prefix (q ++ [n]) (q ++ k :: r) -> n <> k.
Proof.
  intros H ->. apply H. exists r. now rewrite <- app_assoc.
Qed.

(** Refilling an entry keeps every node that is not a directory and does
    not lie at or below the entry. *)
Lemma set_entry_of_keeps (w : world) (m m' : mount) (p P : list string)
  (x : option node) (c : node) :
  ~ prefix p P ->
  lookup_path w (m', P) = Some c -> is_dir c = false ->
  lookup_path (set_entry_of w (m, p) x) (m', P) = Some c.
Proof.
  intros Hp L Hc. unfold set_entry_of. simpl.
  destruct (split_last p) as [[q n]|] eqn:S.
  - pose proof (split_last_some _ _ _ S) as ->.
    destruct (root_of w m) as [t|] eqn:R; [|assumption].
    match goal with |- context [modify t q ?g] => set (G := g) end.
    destruct (modify t q G) as [t'|] eqn:M; [|assumption].
    destruct (mount_dec m m') as [<-|Hm];
      [|now rewrite lookup_set_root_other].
    rewrite lookup_set_root_same. unfold lookup_path in L. simpl in L.
    rewrite R in L. destruct (prefix_dec q P) as [[r ->]|Hq].
    + rewrite (modify_below _ _ _ _ _ M). rewrite lookup_app in L.
      destruct (modify_inv _ _ _ _ M) as (d & d' & Ld & Gd).
      rewrite Ld in *. rewrite Gd. unfold G in Gd.
      destruct d as [| a es |]; try discriminate. injection Gd as <-.
      destruct r as [|k r].
      * injection L as <-. discriminate.
      * apply not_prefix_snoc in Hp. simpl in *.
        destruct x; [rewrite find_entry_set_other | rewrite find_entry_remove_other];
          assumption.
    + now apply (modify_keeps _ _ _ _ _ _ M).
  - exfalso. apply split_last_none in S. subst p. apply Hp. now exists P.
Qed.

(** Replacing a node keeps every node that is not a directory and does not
    lie at or below it. *)
Lemma overwrite_keeps (w : world) (m m' : mount) (p P : list string)
  (x c : node) :
  ~ prefix p P ->
  lookup_path w (m', P) = Some c -> is_dir c = false ->
  lookup_path (overwrite w (m, p) x) (m', P) = Some c.
Proof.
  intros Hp L Hc. unfold overwrite. simpl.
  destruct (root_of w m) as [t|] eqn:R; [|assumption].
  destruct (modify t p _) as [t'|] eqn:M; [|assumption].
  destruct (mount_dec m m') as [<-|Hm];
    [|now rewrite lookup_set_root_other].
  rewrite lookup_set_root_same. unfold lookup_path in L. simpl in L.
  rewrite R in L. now apply (modify_keeps _ _ _ _ _ _ M).
Qed.

Lemma overwrite_same (w : world) (item : path) (c x : node) :
  lookup_path w item = Some c -> lookup_path (overwrite w item x) item = Some x.
Proof.
  destruct item as [m p]. intros L. unfold overwrite. simpl.
  unfold lookup_path in L. simpl in L.
  destruct (root_of w m) as [t|] eqn:R; [|discriminate].
  destruct (modify_succeeds t c x p (fun _ => Some x) L eq_refl) as [t' M].
  rewrite M, lookup_set_root_same.
  pose proof (modify_below _ _ p [] _ M) as B. rewrite app_nil_r, L in B.
  exact B.
Qed.

(** ** Induction on trees *)

Lemma node_induction (P : node -> Prop) :
  (forall a data, P (File a data)) ->
  (forall a es, Forall (fun x => P (snd x)) es -> P (Dir a es)) ->
  P Dangling ->
  forall t, P t.
Proof.
  intros Hf Hd Hl. fix IH 1. intros [a data | a es |].
  - apply Hf.
  - apply Hd. revert es. fix IHes 1. intros [|[n c] r].
    + constructor.
    + constructor; [apply IH | apply IHes].
  - apply Hl.
Qed.

Lemma names_distinct_NoDup (l : list string) :
  names_distinct l = true -> NoDup l.
Proof.
  induction l as [|n r IH]; simpl; [constructor|].
  intros H. apply andb_prop in H as [H1 H2]. constructor; [|auto].
  intros Hin. apply negb_true_iff in H1.
  assert (existsb (String.eqb n) r = true) as E; [|congruence].
  apply existsb_exists. exists n. split; [assumption | apply String.eqb_refl].
Qed.

Lemma well_formed_dir (a : dattr) (es : entries_t) :
  well_formed (Dir a es) ->
  NoDup (map fst es) /\ Forall (fun x => well_formed (snd x)) es.
Proof.
  unfold well_formed. simpl. intros H. apply andb_prop in H as [H1 H2].
  split; [now apply names_distinct_NoDup|]. clear H1.
  induction es as [|[n c] r IH]; [constructor|].
  apply andb_prop in H2 as [Hc Hr]. constructor; auto.
Qed.

(** ** The walk *)

Lemma os_walk_dir (topdown : bool) (top : list string) (a : dattr)
  (es : entries_t) :
  os_walk topdown top (Dir a es)
  = if topdown
    then (top, (dirnames es, filenames es)) :: walk_entries topdown top es
    else walk_entries topdown top es ++ [(top, (dirnames es, filenames es))].
Proof.
  simpl.
  assert ((fix sub (l : entries_t) : list walk_item :=
             match l with
             | [] => []
             | (n, c) :: r =>
                 (if is_dir c then os_walk topdown (top ++ [n]) c else [])
                 ++ sub r
             end) es = walk_entries topdown top es) as ->; [|reflexivity].
  induction es as [|[n c] r IH]; simpl; [reflexivity|]. now rewrite IH.
Qed.

Lemma loop_items_app (folder : mount) (l1 l2 : list walk_item) :
  loop_items folder (l1 ++ l2)
  = loop_items folder l1 ++ loop_items folder l2.
Proof. unfold loop_items. apply flat_map_app. Qed.

Lemma loop_items_os_walk_dir (folder : mount) (topdown : bool)
  (top : list string) (a : dattr) (es : entries_t) :
  loop_items folder (os_walk topdown top (Dir a es))
  = if topdown
    then here_items folder top es
         ++ loop_items folder (walk_entries topdown top es)
    else loop_items folder (walk_entries topdown top es)
         ++ here_items folder top es.
Proof.
  rewrite os_walk_dir. destruct topdown.
  - reflexivity.
  - rewrite loop_items_app. simpl. now rewrite app_nil_r.
Qed.

Lemma In_names (n : string) (c : node) (es : entries_t) :
  In (n, c) es -> In n (dirnames es ++ filenames es).
Proof.
  intros H. apply in_or_app. induction es as [|[m d] r IH]; [contradiction|].
  simpl. destruct H as [[= -> ->]|H].
  - destruct (is_dir c); simpl; auto.
  - destruct (IH H); destruct (is_dir d); simpl; auto.
Qed.

Lemma In_walk_entries (folder : mount) (topdown : bool) (top : list string)
  (es : entries_t) (n : string) (a : dattr) (sub : entries_t) (x : path) :
  In (n, Dir a sub) es ->
  In x (loop_items folder (os_walk topdown (top ++ [n]) (Dir a sub))) ->
  In x (loop_items folder (walk_entries topdown top es)).
Proof.
  intros Hin Hx. induction es as [|[m d] r IH]; [contradiction|].
  simpl. rewrite loop_items_app. apply in_or_app.
  destruct Hin as [[= -> ->]|Hin]; [left; exact Hx | right; auto].
Qed.

(** Every item of the tree is met by the two loops. *)
Lemma lookup_In_loop_items (folder : mount) (topdown : bool) (t c : node)
  (top p : list string) :
  p <> [] -> lookup t p = Some c ->
  In (folder, top ++ p) (loop_items folder (os_walk topdown top t)).
Proof.
  revert t top. induction p as [|n q IH]; intros t top Hp; [congruence|].
  simpl. destruct t as [| a es |]; try discriminate.
  destruct (find_entry n es) as [d|] eqn:E; [|discriminate].
  apply find_entry_In in E. intros L.
  rewrite loop_items_os_walk_dir.
  assert (In (folder, top ++ n :: q)
            (here_items folder top es)
          \/ In (folder, top ++ n :: q)
               (loop_items folder (walk_entries topdown top es))) as [H|H].
  { destruct q as [|k q].
    - left. unfold here_items. apply in_map_iff. exists n.
      split; [reflexivity | eapply In_names; eassumption].
    - right. destruct d as [| a' sub |]; try discriminate.
      eapply In_walk_entries; [eassumption|].
      replace (top ++ n :: k :: q) with ((top ++ [n]) ++ k :: q)
        by now rewrite <- app_assoc.
      apply IH; [discriminate | assumption]. }
  - destruct topdown; apply in_or_app; auto.
  - destruct topdown; apply in_or_app; auto.
Qed.

(** ** The order of the walk *)

Lemma ForallOrdPairs_app {A : Type} (R : A -> A -> Prop) (l1 l2 : list A) :
  ForallOrdPairs R l1 -> ForallOrdPairs R l2 ->
  (forall x y, In x l1 -> In y l2 -> R x y) ->
  ForallOrdPairs R (l1 ++ l2).
Proof.
  intros H1 H2 H. induction H1 as [|a l Ha Hl IH]; simpl; [assumption|].
  constructor.
  - apply Forall_app. split; [assumption|].
    apply Forall_forall. intros y Hy. apply H; simpl; auto.
  - apply IH. intros x y Hx Hy. apply H; simpl; auto.
Qed.

Lemma ForallOrdPairs_filter {A : Type} (R : A -> A -> Prop) (f : A -> bool)
  (l : list A) :
  ForallOrdPairs R l -> ForallOrdPairs R (filter f l).
Proof.
  induction 1 as [|a l Ha Hl IH]; simpl; [constructor|].
  destruct (f a); [|assumption]. constructor; [|assumption].
  apply Forall_forall. intros y Hy. apply filter_In in Hy as [Hy _].
  revert y Hy. now apply Forall_forall.
Qed.

Lemma In_here_items (folder : mount) (top : list string) (es : entries_t)
  (x : path) :
  In x (here_items folder top es) ->
  exists n, x = (folder, top ++ [n]) /\ In n (map fst es).
Proof.
  unfold here_items. intros H. apply in_map_iff in H as (n & <- & Hn).
  exists n. split; [reflexivity|].
  apply in_app_or in Hn. induction es as [|[m d] r IH]; simpl in *.
  - tauto.
  - destruct (is_dir d); simpl in Hn; tauto.
Qed.

(** The items met below [top] carry [top] in front. *)
Lemma In_loop_items_below (folder : mount) (topdown : bool) (t : node) :
  forall (top : list string) (x : path),
    In x (loop_items folder (os_walk topdown top t)) ->
    fst x = folder /\ exists n r, snd x = top ++ n :: r.
Proof.
  induction t as [a data | a es IH |] using node_induction; intros top x;
    try contradiction.
  rewrite loop_items_os_walk_dir. intros H.
  assert (In x (here_items folder top es)
          \/ In x (loop_items folder (walk_entries topdown top es)))
    as [Hx|Hx] by (destruct topdown; apply in_app_or in H; tauto).
  - apply In_here_items in Hx as (n & -> & _). simpl. eauto.
  - clear H. induction es as [|[m d] r IHr]; [contradiction|].
    simpl in Hx. rewrite loop_items_app in Hx. inversion IH as [|? ? Hd Hr].
    apply in_app_or in Hx as [Hx|Hx]; [|auto].
    destruct (is_dir d); [|contradiction].
    destruct (Hd _ _ Hx) as (Hf & n & s & Hs). simpl in Hs.
    split; [assumption|]. exists m, (n :: s). now rewrite <- app_assoc in Hs.
Qed.

Lemma In_walk_entries_below (folder : mount) (topdown : bool)
  (top : list string) (es : entries_t) (x : path) :
  In x (loop_items folder (walk_entries topdown top es)) ->
  fst x = folder
  /\ exists n k r, In n (map fst es) /\ snd x = top ++ n :: k :: r.
Proof.
  induction es as [|[m d] r IH]; [contradiction|].
  simpl. rewrite loop_items_app. intros H.
  apply in_app_or in H as [H|H].
  - destruct (is_dir d); [|contradiction].
    apply In_loop_items_below in H as (Hf & n & s & Hs).
    split; [assumption|]. exists m, n, s. split; [auto|].
    now rewrite <- app_assoc in Hs.
  - destruct (IH H) as (Hf & n & k & s & Hn & Hs). split; [assumption|].
    exists n, k, s. auto.
Qed.

Lemma strictly_below_length (x y : path) :
  strictly_below x y -> (List.length (snd x) < List.length (snd y))%nat.
Proof.
  intros (_ & n & r & ->). rewrite length_app. simpl. lia.
Qed.

Lemma strictly_below_first (x y : path) (top rx ry : list string)
  (n m : string) :
  strictly_below x y -> snd x = top ++ n :: rx -> snd y = top ++ m :: ry ->
  n = m.
Proof.
  intros (_ & k & s & Hy) Hx Hy'. rewrite Hx, Hy', <- app_assoc in Hy.
  apply app_inv_head in Hy. simpl in Hy. congruence.
Qed.

Lemma here_items_ordered (folder : mount) (topdown : bool)
  (top : list string) (es : entries_t) :
  ForallOrdPairs (walk_order topdown) (here_items folder top es).
Proof.
  apply ForallPairs_ForallOrdPairs. intros x y Hx Hy.
  apply In_here_items in Hx as (n & -> & _).
  apply In_here_items in Hy as (m & -> & _).
  destruct topdown; simpl; intros H; apply strictly_below_length in H;
    simpl in H; rewrite !length_app in H; simpl in H; lia.
Qed.

(** A directory is met after all that lies below it when the walk is
    bottom-up, and before when it is top-down. *)
Lemma os_walk_ordered (folder : mount) (topdown : bool) (t : node) :
  forall top, well_formed t ->
    ForallOrdPairs (walk_order topdown)
      (loop_items folder (os_walk topdown top t)).
Proof.
  induction t as [a data | a es IH |] using node_induction; intros top Hwf;
    try constructor.
  apply well_formed_dir in Hwf as [Hnd Hwf].
  assert (ForallOrdPairs (walk_order topdown)
            (loop_items folder (walk_entries topdown top es))) as Hsub.
  { clear a. induction es as [|[m d] r IHr]; [constructor|].
    simpl. rewrite loop_items_app.
    inversion IH as [|? ? Hd Hr]. inversion Hwf as [|? ? Wd Wr].
    inversion Hnd as [|? ? Hm Hnd']. subst.
    apply ForallOrdPairs_app; [| now apply IHr |].
    - destruct (is_dir d); [now apply Hd | constructor].
    - intros x y Hx Hy. destruct (is_dir d); [|contradiction].
      apply In_loop_items_below in Hx as (_ & n & s & Hs).
      apply In_walk_entries_below in Hy as (_ & n' & k & s' & Hn' & Hs').
      simpl in Hs. rewrite <- app_assoc in Hs. simpl in Hs.
      destruct topdown; simpl; intros H.
      + apply (strictly_below_first _ _ _ _ _ _ _ H Hs') in Hs. congruence.
      + apply (strictly_below_first _ _ _ _ _ _ _ H Hs) in Hs'. congruence. }
  rewrite loop_items_os_walk_dir.
  destruct topdown; apply ForallOrdPairs_app; auto using here_items_ordered.
  - intros x y Hx Hy. simpl. intros H.
    apply In_here_items in Hx as (n & -> & _).
    apply In_walk_entries_below in Hy as (_ & n' & k & s' & _ & Hs').
    apply strictly_below_length in H. rewrite Hs' in H. simpl in H.
    rewrite !length_app in H. simpl in H. lia.
  - intros x y Hx Hy. simpl. intros H.
    apply In_here_items in Hy as (n & -> & _).
    apply In_walk_entries_below in Hx as (_ & n' & k & s' & _ & Hs').
    apply strictly_below_length in H. rewrite Hs' in H. simpl in H.
    rewrite !length_app in H. simpl in H. lia.
Qed.

(** ** The equivalence check *)

Lemma exists_stat (w : world) (p : path) :
  os_path_exists w p = true -> exists c, stat w p = Ok c.
Proof.
  unfold os_path_exists. destruct (stat w p) as [c|e]; [eauto | discriminate].
Qed.

Lemma isdir_stat (w : world) (p : path) :
  os_path_isdir w p = true -> exists a es, stat w p = Ok (Dir a es).
Proof.
  unfold os_path_isdir. destruct (stat w p) as [[| a es |]|e]; simpl;
    try discriminate. eauto.
Qed.

(** C2, as far as the code goes: a missing destination needs a write; an
    existing destination of a source directory does not; for a source that
    is a regular file, an existing destination needs a write exactly when
    its modification time or its size differs from the source's. When the
    destination exists and the status of the source cannot be read, the
    check does not answer: the error of [os.stat] escapes it. *)
Theorem same_file_check_cases (w : world) (source_item dest_item : path) :
  (os_path_exists w dest_item = false ->
   same_file_check w source_item dest_item = Ok true)
  /\ (os_path_exists w dest_item = true ->
      os_path_isdir w source_item = true ->
      same_file_check w source_item dest_item = Ok false)
  /\ (forall a data d,
        stat w source_item = Ok (File a data) ->
        stat w dest_item = Ok d ->
        same_file_check w source_item dest_item
        = Ok (negb ((st_mtime d =? f_mtime a)
                    && (st_size d =? Z.of_nat (String.length data)))))
  /\ (forall e,
        os_path_exists w dest_item = true ->
        stat w source_item = Raise e ->
        same_file_check w source_item dest_item = Raise e).
Proof.
  unfold same_file_check. repeat split.
  - intros ->. reflexivity.
  - intros -> ->. reflexivity.
  - intros a data d Hs Hd.
    unfold os_path_exists, os_path_isdir, os_path_getmtime, os_path_getsize.
    rewrite Hs, Hd. simpl.
    destruct (st_mtime d =? f_mtime a); simpl; reflexivity.
  - intros e Hd Hs. rewrite Hd. simpl.
    destruct (exists_stat _ _ Hd) as [d Hd'].
    unfold os_path_isdir, os_path_getmtime. rewrite Hs, Hd'. reflexivity.
Qed.

Lemma same_file_check_cases_witness :
  same_file_check Sample.scenario (Source, ["a.txt"]) (Destination, ["a.txt"])
  = Ok true
  /\ same_file_check Sample.scenario (Source, ["sub"]) (Destination, ["sub"])
     = Ok false
  /\ same_file_check Sample.scenario (Source, ["a.txt"])
       (Destination, ["b.txt"]) = Ok true
  /\ same_file_check Sample.scenario (Source, ["b.txt"])
       (Destination, ["b.txt"]) = Raise FileNotFoundError.
Proof.
  pose proof (same_file_check_cases Sample.scenario (Source, ["a.txt"])
                (Destination, ["a.txt"])) as H1.
  pose proof (same_file_check_cases Sample.scenario (Source, ["sub"])
                (Destination, ["sub"])) as H2.
  pose proof (same_file_check_cases Sample.scenario (Source, ["a.txt"])
                (Destination, ["b.txt"])) as H3.
  pose proof (same_file_check_cases Sample.scenario (Source, ["b.txt"])
                (Destination, ["b.txt"])) as H4.
  split; [|split; [|split]].
  - apply H1. reflexivity.
  - apply H2; reflexivity.
  - apply (proj1 (proj2 (proj2 H3)) (Sample.fa 7) "0123456789"
             (File (Sample.fa 5) "x")); reflexivity.
  - apply (proj2 (proj2 (proj2 H4))); reflexivity.
Defined.

(** C2 as stated fails: the source item [l] is a dangling link, which
    [os.walk] lists among the files; its destination exists; its attributes
    cannot be read, and the check raises instead of returning true. *)
Lemma same_file_check_unreadable_source :
  os_path_exists Sample.dangling_source (Destination, ["l"]) = true
  /\ os_path_isdir Sample.dangling_source (Source, ["l"]) = false
  /\ os_path_getmtime Sample.dangling_source (Source, ["l"])
     = Raise FileNotFoundError
  /\ same_file_check Sample.dangling_source (Source, ["l"])
       (Destination, ["l"]) <> Ok true.
Proof. repeat split. discriminate. Qed.

(** ** The removal phase *)

(** The cases of the entry an item names: its directory does not resolve,
    the entry is empty, or it holds a file, a link, an empty or a non-empty
    directory, in a directory that admits changes or not. *)
Ltac entry_cases w item :=
  destruct (entry_of w item) as [[[|] [[| ? [|? ?] |]|]]|?].

Lemma exists_lookup (w : world) (p : path) :
  os_path_exists w p = visible (lookup_path w p).
Proof.
  unfold os_path_exists, stat, lookup_path.
  destruct (root_of w (fst p)) as [t|]; [|reflexivity].
  destruct (lookup t (snd p)) as [[| |]|]; reflexivity.
Qed.

Lemma isdir_lookup (w : world) (p : path) :
  os_path_isdir w p = is_dir_opt (lookup_path w p).
Proof.
  unfold os_path_isdir, stat, lookup_path.
  destruct (root_of w (fst p)) as [t|]; [|reflexivity].
  destruct (lookup t (snd p)) as [[| |]|]; reflexivity.
Qed.

Lemma remove_step_removal_of (w : world) (log : list outcome) (item : path) :
  remove_step (w, log) item
  = (fst (removal_of w item), log ++ [snd (removal_of w item)]).
Proof.
  unfold remove_step, removal_of, os_rmdir, os_remove.
  rewrite isdir_lookup.
  destruct (entry_of w item) as [[wr e]|x] eqn:E; simpl.
  - rewrite (entry_of_lookup _ _ _ _ E).
    destruct e as [[| a [|y es] |]|], wr; reflexivity.
  - destruct (is_dir_opt _); reflexivity.
Qed.

Lemma removal_of_subject (w : world) (item : path) :
  subject (snd (removal_of w item)) = item.
Proof.
  unfold removal_of. entry_cases w item; reflexivity.
Qed.

Lemma removal_of_kind (w : world) (item : path) :
  snd (removal_of w item) = Removed item
  \/ exists e, snd (removal_of w item) = RemoveFailed item e.
Proof.
  unfold removal_of. entry_cases w item; simpl; eauto.
Qed.

(** The loop appends one outcome per item, in the order of the items. *)
Lemma fold_remove_step_subjects (items : list path) (st : pass_state) :
  map subject (snd (fold_left remove_step items st))
  = map subject (snd st) ++ items.
Proof.
  revert st. induction items as [|item r IH]; intros [w log]; simpl.
  - now rewrite app_nil_r.
  - fold (remove_step (w, log) item). rewrite remove_step_removal_of, IH.
    simpl. rewrite map_app. simpl. rewrite removal_of_subject.
    now rewrite <- app_assoc.
Qed.

Lemma fold_remove_step_kinds (items : list path) (st : pass_state) :
  Forall (fun o => exists item e, o = Removed item \/ o = RemoveFailed item e)
    (snd st) ->
  Forall (fun o => exists item e, o = Removed item \/ o = RemoveFailed item e)
    (snd (fold_left remove_step items st)).
Proof.
  revert st. induction items as [|item r IH]; intros [w log] H; simpl.
  - assumption.
  - fold (remove_step (w, log) item). apply IH.
    rewrite remove_step_removal_of. simpl. apply Forall_app. split; [assumption|].
    constructor; [|constructor].
    destruct (removal_of_kind w item) as [->|[e ->]].
    + exists item, PermissionError. auto.
    + exists item, e. auto.
Qed.

Lemma removal_of_removed (w : world) (item : path) :
  snd (removal_of w item) = Removed item ->
  lookup_path (fst (removal_of w item)) item = None
  /\ exists c, entry_of w item = Ok (true, Some c)
               /\ (forall a x es, c <> Dir a (x :: es)).
Proof.
  unfold removal_of.
  destruct (entry_of w item) as [[[|] [c|]]|x] eqn:E; simpl; try discriminate.
  destruct c as [fa data | a [|y es] |]; simpl; try discriminate; intros _;
    (split; [now apply (set_entry_of_same _ _ _ _ _ E)|]);
    eexists; (split; [reflexivity | discriminate]).
Qed.

Lemma removal_of_failed (w : world) (item : path) (e : exn) :
  snd (removal_of w item) = RemoveFailed item e ->
  fst (removal_of w item) = w.
Proof.
  unfold removal_of. entry_cases w item; simpl; try discriminate; reflexivity.
Qed.

(** ** The creation phase *)

Lemma os_mkdir_ok (w w' : world) (item : path) :
  os_mkdir w item = Ok w' ->
  entry_of w item = Ok (true, None)
  /\ w' = set_entry_of w item (Some (fresh_dir (w_clock w)))
  /\ lookup_path w' item = Some (fresh_dir (w_clock w)).
Proof.
  unfold os_mkdir. destruct (entry_of w item) as [[[|] [c|]]|e] eqn:E; simpl;
    try discriminate.
  intros [= <-]. repeat split. now apply (set_entry_of_same _ _ _ _ _ E).
Qed.

Lemma os_mkdir_absent (w : world) (item : path) :
  entry_of w item = Ok (true, None) ->
  exists w', os_mkdir w item = Ok w'.
Proof. unfold os_mkdir. intros ->. simpl. eauto. Qed.

(** A successful [os.makedirs] ends with the [os.mkdir] of the leaf. *)
Lemma makedirs_rev_ok (w w' : world) (m : mount) (rp : list string) :
  makedirs_rev w m rp = Ok w' ->
  exists now, lookup_path w' (m, rev rp) = Some (fresh_dir now).
Proof.
  destruct rp as [|n rq]; simpl.
  - intros H. apply os_mkdir_ok in H as (_ & _ & H). eauto.
  - destruct (os_path_exists w (m, rev rq)).
    + intros H. apply os_mkdir_ok in H as (_ & _ & H). eauto.
    + destruct (makedirs_rev w m rq) as [w1|[]]; try discriminate;
        intros H; apply os_mkdir_ok in H as (_ & _ & H); eauto.
Qed.

Lemma os_makedirs_ok (w w' : world) (name : path) :
  os_makedirs w name = Ok w' ->
  os_path_isdir w' name = true
  /\ forall q r, snd name = q ++ r -> os_path_isdir w' (fst name, q) = true.
Proof.
  destruct name as [m p]. unfold os_makedirs. simpl. intros H.
  apply makedirs_rev_ok in H as [now H]. rewrite rev_involutive in H.
  assert (forall q r, p = q ++ r -> os_path_isdir w' (m, q) = true) as A.
  { intros q r ->. rewrite isdir_lookup. unfold lookup_path in *. simpl in *.
    destruct (root_of w' m) as [t|]; [|discriminate].
    destruct r as [|k r].
    - rewrite app_nil_r in H. now rewrite H.
    - destruct (lookup_above_dir _ _ q (k :: r) H) as (a & es & ->);
        [discriminate | reflexivity]. }
  split; [|assumption]. apply (A p []). now rewrite app_nil_r.
Qed.

(** [os.makedirs] makes a path below a missing entry of a directory that
    admits changes, whatever the number of missing directories. *)
Lemma os_makedirs_creates (w : world) (m : mount) (q0 : list string) :
  entry_of w (m, q0) = Ok (true, None) ->
  forall r, exists w', os_makedirs w (m, q0 ++ r) = Ok w'.
Proof.
  intros E. assert (lookup_path w (m, q0) = None) as L0
    by now apply (entry_of_lookup _ _ _ _ E).
  induction r as [|n r0 IH] using rev_ind.
  - rewrite app_nil_r. unfold os_makedirs. simpl.
    destruct (split_last q0) as [[q k]|] eqn:S.
    + pose proof (split_last_some _ _ _ S) as ->.
      rewrite rev_app_distr. simpl. rewrite rev_involutive.
      destruct (entry_of_snoc _ _ _ _ _ _ E) as (t & a & es & R & L & _ & _).
      assert (os_path_exists w (m, q) = true) as ->.
      { rewrite exists_lookup. unfold lookup_path. simpl. now rewrite R, L. }
      now apply os_mkdir_absent.
    + pose proof (split_last_none _ S) as ->. simpl.
      now apply os_mkdir_absent.
  - destruct IH as [w1 IH]. unfold os_makedirs in *. simpl in *.
    rewrite app_assoc, rev_app_distr. simpl. rewrite rev_involutive.
    assert (os_path_exists w (m, q0 ++ r0) = false) as ->.
    { rewrite exists_lookup. unfold lookup_path in *. simpl in *.
      destruct (root_of w m) as [t|]; [|reflexivity].
      now rewrite lookup_app, L0. }
    rewrite IH. apply os_mkdir_absent.
    apply makedirs_rev_ok in IH as [now IH]. rewrite rev_involutive in IH.
    unfold entry_of. simpl. rewrite split_last_snoc.
    unfold lookup_path in IH. simpl in IH.
    destruct (root_of w1 m) as [t|]; [|discriminate]. now rewrite IH.
Qed.

Lemma stat_lookup (w : world) (p : path) (c : node) :
  stat w p = Ok c -> lookup_path w p = Some c.
Proof.
  unfold stat, lookup_path. destruct (root_of w (fst p)) as [t|];
    [|discriminate].
  destruct (lookup t (snd p)) as [[| |]|]; congruence.
Qed.

(** A successful [shutil.copy2] leaves the file of the source, with its
    modification time, mode and content, at the place it writes to. *)
Lemma shutil_copy2_ok (w w' : world) (src dst : path) :
  shutil_copy2 w src dst = Ok w' ->
  exists a data,
    stat w src = Ok (File a data)
    /\ lookup_path w' (copy_target w src dst) = Some (File a data).
Proof.
  unfold shutil_copy2. fold (copy_target w src dst).
  set (tgt := copy_target w src dst).
  destruct (path_eqb src tgt && os_path_exists w src); [discriminate|].
  destruct (stat w src) as [[a data| |]|e]; simpl; try discriminate.
  destruct (entry_of w tgt) as [[[|] [[fa' d'| |]|]]|e] eqn:E; simpl;
    try discriminate; intros [= <-]; exists a, data;
    (split; [reflexivity|]);
    try (eapply overwrite_same; apply (entry_of_lookup _ _ _ _ E)).
  now apply (set_entry_of_same _ _ _ _ _ E).
Qed.

(** ** A file where the source holds a directory *)

Lemma set_entry_of_src (w : world) (p : list string) (x : option node) :
  w_src (set_entry_of w (Destination, p) x) = w_src w.
Proof.
  unfold set_entry_of. simpl. destruct (split_last p) as [[q n]|].
  - destruct (w_dst w) as [t|]; [|reflexivity].
    destruct (modify t q _); reflexivity.
  - reflexivity.
Qed.

Lemma overwrite_src (w : world) (p : list string) (x : node) :
  w_src (overwrite w (Destination, p) x) = w_src w.
Proof.
  unfold overwrite. simpl. destruct (w_dst w) as [t|]; [|reflexivity].
  destruct (modify t p _); reflexivity.
Qed.

Lemma lookup_source (w w' : world) (P : list string) :
  w_src w' = w_src w -> lookup_path w' (Source, P) = lookup_path w (Source, P).
Proof. unfold lookup_path. simpl. now intros ->. Qed.

(** What exists has all that lies above it. *)
Lemma lookup_path_prefix (w : world) (m : mount) (p P : list string)
  (c : node) :
  prefix p P -> lookup_path w (m, P) = Some c ->
  exists d, lookup_path w (m, p) = Some d /\ (p <> P -> is_dir d = true).
Proof.
  intros [r ->]. unfold lookup_path. simpl.
  destruct (root_of w m) as [t|]; [|discriminate]. intros L.
  destruct r as [|k r].
  - rewrite app_nil_r in *. exists c. split; [assumption|]. congruence.
  - destruct (lookup_above_dir _ _ _ _ L) as (a & es & ->); [discriminate|].
    eexists. split; [reflexivity|reflexivity].
Qed.

Section Mismatch.

Variables (P : list string) (f : node).

(** Nothing at or above [P] is missing from the source. *)
Lemma mismatch_source_above (w : world) (p : list string) :
  mismatch P f w -> prefix p P -> os_path_isdir w (Source, p) = true.
Proof.
  intros (Hs & _) Hp. rewrite isdir_lookup.
  destruct (lookup_path w (Source, P)) as [c|] eqn:L; [|discriminate].
  destruct (lookup_path_prefix _ _ _ _ _ Hp L) as (d & Ld & Hd).
  destruct (list_eq_dec string_dec p P) as [->|Hne].
  - now rewrite L.
  - rewrite Ld. simpl. auto.
Qed.

Lemma mismatch_set_entry_of (w : world) (p : list string) (x : option node) :
  mismatch P f w -> ~ prefix p P ->
  mismatch P f (set_entry_of w (Destination, p) x).
Proof.
  intros (Hs & Hd & a & data & ->) Hp. repeat split.
  - now rewrite (lookup_source w _ P (set_entry_of_src w p x)).
  - now apply set_entry_of_keeps.
  - eauto.
Qed.

Lemma mismatch_overwrite (w : world) (p : list string) (x : node) :
  mismatch P f w -> ~ prefix p P ->
  mismatch P f (overwrite w (Destination, p) x).
Proof.
  intros (Hs & Hd & a & data & ->) Hp. repeat split.
  - now rewrite (lookup_source w _ P (overwrite_src w p x)).
  - now apply overwrite_keeps.
  - eauto.
Qed.

(** The check spares the mismatched item. *)
Lemma mismatch_same_file_check (w : world) :
  mismatch P f w ->
  same_file_check w (Source, P) (Destination, P) = Ok false.
Proof.
  intros H. pose proof (mismatch_source_above w P H (prefix_refl P)) as Hs.
  destruct H as (_ & Hd & a & data & ->).
  unfold same_file_check. rewrite exists_lookup, Hd, Hs. reflexivity.
Qed.

Lemma mismatch_remove_step (w : world) (log : list outcome)
  (p : list string) :
  mismatch P f w -> os_path_exists w (Source, p) = false ->
  mismatch P f (fst (remove_step (w, log) (Destination, p))).
Proof.
  intros H Hx. rewrite remove_step_removal_of. simpl.
  assert (~ prefix p P) as Hp.
  { intros Hp. pose proof (mismatch_source_above w p H Hp) as Hd.
    rewrite isdir_lookup in Hd. rewrite exists_lookup in Hx.
    destruct (lookup_path w (Source, p)) as [[| |]|]; discriminate. }
  unfold removal_of.
  entry_cases w (Destination, p); simpl; auto using mismatch_set_entry_of.
Qed.

Lemma mismatch_mkdir (w w' : world) (p : list string) :
  mismatch P f w -> os_mkdir w (Destination, p) = Ok w' -> mismatch P f w'.
Proof.
  intros H M. apply os_mkdir_ok in M as (E & -> & _).
  apply mismatch_set_entry_of; [assumption|]. intros Hp.
  destruct H as (_ & Hd & _).
  destruct (lookup_path_prefix _ _ _ _ _ Hp Hd) as (d & L & _).
  rewrite (entry_of_lookup _ _ _ _ E) in L. discriminate.
Qed.

Lemma mismatch_makedirs_rev (rp : list string) :
  forall w w', mismatch P f w ->
    makedirs_rev w Destination rp = Ok w' -> mismatch P f w'.
Proof.
  induction rp as [|n rq IH]; intros w w' H; simpl.
  - now apply mismatch_mkdir.
  - destruct (os_path_exists w (Destination, rev rq)).
    + now apply mismatch_mkdir.
    + destruct (makedirs_rev w Destination rq) as [w1|[]] eqn:M;
        try discriminate; try (now apply mismatch_mkdir).
      apply mismatch_mkdir. now apply (IH w w1).
Qed.

Lemma mismatch_copy2 (w w' : world) (p : list string) :
  mismatch P f w -> os_path_isdir w (Source, p) = false ->
  shutil_copy2 w (Source, p) (Destination, p) = Ok w' -> mismatch P f w'.
Proof.
  intros H Hs. unfold shutil_copy2.
  set (tgt := if os_path_isdir w (Destination, p)
              then join (Destination, p) (basename (Source, p))
              else (Destination, p)).
  assert (fst tgt = Destination /\ prefix p (snd tgt)) as [Hm Hp].
  { unfold tgt. destruct (os_path_isdir w (Destination, p)); simpl.
    - split; [reflexivity|]. now eexists.
    - split; [reflexivity | apply prefix_refl]. }
  assert (~ prefix (snd tgt) P) as Hn.
  { intros [r Hr]. destruct Hp as [r' Hp]. rewrite Hp, <- app_assoc in Hr.
    assert (prefix p P) as Hpp by now exists (r' ++ r).
    rewrite (mismatch_source_above w p H Hpp) in Hs. discriminate. }
  destruct tgt as [m tp]. simpl in Hm, Hn. subst m.
  destruct (path_eqb _ _ && _); [discriminate|].
  destruct (stat w (Source, p)) as [[a data| |]|e]; simpl; try discriminate.
  destruct (entry_of w (Destination, tp)) as [[[|] [[fa' d'| |]|]]|e];
    simpl; try discriminate; intros [= <-];
    auto using mismatch_set_entry_of, mismatch_overwrite.
Qed.

Lemma remove_step_src (w : world) (log : list outcome) (p : list string) :
  w_src (fst (remove_step (w, log) (Destination, p))) = w_src w.
Proof.
  rewrite remove_step_removal_of. simpl. unfold removal_of.
  entry_cases w (Destination, p); simpl; auto using set_entry_of_src.
Qed.

Lemma exists_source (w w' : world) (p : list string) :
  w_src w' = w_src w ->
  os_path_exists w' (Source, p) = os_path_exists w (Source, p).
Proof. intros H. now rewrite !exists_lookup, (lookup_source w w' p H). Qed.

Lemma mismatch_removal_loop (w0 : world) (items : list path) :
  Forall (fun item => fst item = Destination
                      /\ os_path_exists w0 (Source, snd item) = false) items ->
  forall st, w_src (fst st) = w_src w0 -> mismatch P f (fst st) ->
             mismatch P f (fst (fold_left remove_step items st)).
Proof.
  induction 1 as [|[m p] r [Hm Hx] Hr IH]; intros [w log] Hs H; simpl in *.
  - assumption.
  - subst m. fold (remove_step (w, log) (Destination, p)). apply IH.
    + now rewrite remove_step_src.
    + apply mismatch_remove_step; [assumption|].
      now rewrite (exists_source w0 w p Hs).
Qed.

Lemma items_to_remove_absent (w : world) :
  Forall (fun item => fst item = Destination
                      /\ os_path_exists w (Source, snd item) = false)
    (items_to_remove w).
Proof.
  apply Forall_forall. intros item H. apply filter_In in H as [Hi Hx].
  split.
  - unfold walk_folder in Hi. destruct (root_of w Destination) as [t|];
      [|contradiction].
    now apply In_loop_items_below in Hi as [Hi _].
  - now apply negb_true_iff in Hx.
Qed.

(** One turn of the creation loop on another item keeps the mismatched
    file, and on the mismatched item itself does nothing. *)
Lemma mismatch_create_step (w w' : world) (log log' : list outcome)
  (p : list string) :
  mismatch P f w ->
  create_step (w, log) (Source, p) = Ok (w', log') ->
  mismatch P f w'
  /\ (log' = log
      \/ exists o, log' = log ++ [o]
                   /\ subject o = (Destination, p) /\ p <> P).
Proof.
  intros H. unfold create_step.
  change (join_rel destination_folder (relpath (Source, p)))
    with (Destination, p).
  destruct (same_file_check w (Source, p) (Destination, p)) as [[|]|e] eqn:C;
    simpl; try discriminate.
  - assert (p <> P) as Hne.
    { intros ->. rewrite (mismatch_same_file_check w H) in C. discriminate. }
    destruct (os_path_isdir w (Source, p)) eqn:Hd.
    + destruct (os_makedirs w (Destination, p)) as [w1|e] eqn:M;
        intros [= <- <-]; (split; [|right; eexists; repeat split; assumption]).
      * unfold os_makedirs in M. now apply (mismatch_makedirs_rev _ _ _ H M).
      * assumption.
    + destruct (shutil_copy2 w (Source, p) (Destination, p)) as [w1|e] eqn:M;
        intros [= <- <-]; (split; [|right; eexists; repeat split; assumption]).
      * now apply (mismatch_copy2 _ _ _ H Hd M).
      * assumption.
  - intros [= <- <-]. auto.
Qed.

Lemma mismatch_creation_loop (items : list path) :
  Forall (fun s => fst s = Source) items ->
  forall st st',
    mismatch P f (fst st) ->
    Forall (fun o => subject o <> (Destination, P)) (snd st) ->
    for_each create_step items st = Ok st' ->
    mismatch P f (fst st')
    /\ Forall (fun o => subject o <> (Destination, P)) (snd st').
Proof.
  induction 1 as [|[m p] r Hm Hr IH]; intros [w log] st' H Hlog.
  - simpl. intros [= <-]. auto.
  - simpl in Hm, H, Hlog. subst m. cbn [for_each].
    destruct (create_step (w, log) (Source, p)) as [[w1 log1]|e] eqn:C;
      cbn [bind]; [|discriminate].
    destruct (mismatch_create_step _ _ _ _ _ H C) as [H1 Hl].
    apply IH; [assumption|]. simpl.
    destruct Hl as [->|(o & -> & Ho & Hp)]; [assumption|].
    apply Forall_app. split; [assumption|]. constructor; [|constructor].
    rewrite Ho. congruence.
Qed.

End Mismatch.

Lemma loop_items_mount (folder : mount) (topdown : bool) (w : world) :
  Forall (fun s => fst s = folder)
    (loop_items folder (walk_folder topdown w folder)).
Proof.
  apply Forall_forall. intros x H. unfold walk_folder in H.
  destruct (root_of w folder) as [t|]; [|contradiction].
  now apply In_loop_items_below in H as [H _].
Qed.

(** C10: where the source holds a directory and the destination a regular
    file at the same relative path, the removal phase does not slate the
    file and leaves it in place, the check answers that no write is needed,
    and a pass that returns has left the file as it was and has recorded no
    outcome about its path. *)
Theorem kind_mismatch_left_alone (w : world) (P : list string) (f : node) :
  mismatch P f w ->
  ~ In (Destination, P) (items_to_remove w)
  /\ lookup_path (fst (removal_phase (w, []))) (Destination, P) = Some f
  /\ same_file_check w (Source, P) (Destination, P) = Ok false
  /\ forall w' outs,
       reconcile w = Ok (w', outs) ->
       lookup_path w' (Destination, P) = Some f
       /\ Forall (fun o => subject o <> (Destination, P)) outs.
Proof.
  intros H.
  assert (mismatch P f (fst (removal_phase (w, [])))) as Hrem.
  { unfold removal_phase. apply (mismatch_removal_loop P f w);
      [apply items_to_remove_absent | reflexivity | assumption]. }
  assert (~ In (Destination, P) (items_to_remove w)) as Hnot.
  { intros Hin.
    pose proof (proj1 (Forall_forall _ _) (items_to_remove_absent w) _ Hin)
      as [_ Hx].
    simpl in Hx. pose proof (mismatch_source_above P f w P H (prefix_refl P)) as Hd.
    rewrite isdir_lookup in Hd. rewrite exists_lookup in Hx.
    destruct (lookup_path w (Source, P)) as [[| |]|]; discriminate. }
  repeat apply conj.
  - assumption.
  - now destruct Hrem as (_ & Hd & _).
  - now apply (mismatch_same_file_check P f).
  - intros w' outs. unfold reconcile.
    assert (os_path_exists w source_folder = true) as ->.
    { pose proof (mismatch_source_above P f w [] H) as Hd.
      unfold source_folder. rewrite exists_lookup.
      rewrite isdir_lookup in Hd.
      destruct (lookup_path w (Source, [])) as [[| |]|];
        try reflexivity; apply Hd; now exists P. }
    assert (os_path_exists w destination_folder = true) as ->.
    { destruct H as (_ & Hd & a & data & ->).
      unfold destination_folder. rewrite exists_lookup.
      assert (prefix [] P) as Hp by now exists P.
      destruct (lookup_path_prefix w Destination [] P _ Hp Hd)
        as (d & Ld & Hdir).
      destruct P as [|k P'].
      - now rewrite Hd.
      - rewrite Ld. destruct d as [| |]; try reflexivity.
        discriminate Hdir. discriminate. }
    simpl. unfold creation_phase. intros C.
    assert (Forall (fun o => subject o <> (Destination, P))
              (snd (removal_phase (w, [])))) as Hlog0; [|
      destruct (mismatch_creation_loop P f _
                  (loop_items_mount Source true (fst (removal_phase (w, []))))
                  _ _ Hrem Hlog0 C) as [(_ & Hd & _) Hlog];
      split; assumption].
    apply Forall_forall. intros o Ho Hsub.
    assert (In (subject o) (map subject (snd (removal_phase (w, []))))) as Hin
      by now apply in_map.
    unfold removal_phase in Hin. rewrite fold_remove_step_subjects in Hin.
    simpl in Hin. rewrite Hsub in Hin. contradiction.
Qed.

Lemma kind_mismatch_left_alone_witness :
  mismatch ["d"] (File (Sample.fa 5) "x") Sample.dir_over_file
  /\ lookup_path (fst (removal_phase (Sample.dir_over_file, [])))
       (Destination, ["d"]) = Some (File (Sample.fa 5) "x")
  /\ same_file_check Sample.dir_over_file (Source, ["d"]) (Destination, ["d"])
     = Ok false.
Proof.
  assert (mismatch ["d"] (File (Sample.fa 5) "x") Sample.dir_over_file) as H.
  { unfold mismatch. simpl. split; [reflexivity|]. split; [reflexivity|].
    exists (Sample.fa 5), "x". reflexivity. }
  split; [exact H|].
  destruct (kind_mismatch_left_alone Sample.dir_over_file ["d"]
              (File (Sample.fa 5) "x") H) as (_ & H2 & H3 & _).
  split; assumption.
Defined.

(** ** What a change leaves of the rest of the tree *)

Lemma same_kind_refl (x : option node) : same_kind x x.
Proof. destruct x as [[| |]|]; simpl; auto. Qed.

Create HintDb fs.
#[local] Hint Resolve same_kind_refl prefix_refl : fs.

Lemma same_kind_trans (x y z : option node) :
  same_kind x y -> same_kind y z -> same_kind x z.
Proof.
  destruct x as [[| |]|], y as [[| |]|], z as [[| |]|]; simpl; intros;
    try contradiction; try discriminate; try congruence; auto.
Qed.

Lemma same_kind_sym (x y : option node) : same_kind x y -> same_kind y x.
Proof.
  destruct x as [[| |]|], y as [[| |]|]; simpl; intros;
    try contradiction; try discriminate; try congruence; auto.
Qed.

Lemma same_kind_visible (x y : option node) :
  same_kind x y -> visible x = visible y.
Proof.
  destruct x as [[| |]|], y as [[| |]|]; simpl; intros;
    try contradiction; try discriminate; auto.
Qed.

Lemma same_kind_is_dir (x y : option node) :
  same_kind x y -> is_dir_opt x = is_dir_opt y.
Proof.
  destruct x as [[| |]|], y as [[| |]|]; simpl; intros;
    try contradiction; try discriminate; auto.
Qed.

Lemma same_kind_file (x y : option node) (a : fattr) (data : string) :
  same_kind x y -> x = Some (File a data) -> y = Some (File a data).
Proof.
  intros H ->. destruct y as [[| |]|]; simpl in H; try contradiction;
    congruence.
Qed.

(** Rewriting a directory into a directory keeps the kind of all that is
    not below it. *)
Lemma modify_same_kind (t t' : node) (q P : list string)
  (g : node -> option node) :
  modify t q g = Some t' ->
  (forall d d', g d = Some d' -> is_dir d = true /\ is_dir d' = true) ->
  (forall r, P <> q ++ r \/ r = []) ->
  same_kind (lookup t P) (lookup t' P).
Proof.
  intros M Hg HP. destruct (prefix_dec q P) as [[r ->]|Hq].
  - destruct (HP r) as [H| ->]; [congruence|]. rewrite app_nil_r.
    pose proof (modify_below _ _ q [] _ M) as B. rewrite app_nil_r in B.
    destruct (modify_inv _ _ _ _ M) as (d & d' & Ld & Gd).
    rewrite B, Ld, Gd. simpl. destruct (Hg _ _ Gd) as [H1 H2].
    destruct d, d'; try discriminate. exact I.
  - destruct (prefix_dec P q) as [[r ->]|HPq].
    + destruct r as [|k r].
      * destruct Hq. rewrite app_nil_r. apply prefix_refl.
      * destruct (modify_above _ _ _ _ _ M) as (a & es & es' & -> & ->);
          [discriminate | exact I].
    + rewrite (modify_apart _ _ _ _ _ M Hq HPq). apply same_kind_refl.
Qed.

Lemma set_entry_of_same_kind (w : world) (m m' : mount) (p P : list string)
  (x : option node) :
  ~ prefix p P ->
  same_kind (lookup_path w (m', P))
    (lookup_path (set_entry_of w (m, p) x) (m', P)).
Proof.
  intros Hp. unfold set_entry_of. simpl.
  destruct (split_last p) as [[q n]|] eqn:S.
  - pose proof (split_last_some _ _ _ S) as ->.
    destruct (root_of w m) as [t|] eqn:R; [|auto with fs].
    match goal with |- context [modify t q ?g] => set (G := g) end.
    destruct (modify t q G) as [t'|] eqn:M; [|auto with fs].
    destruct (mount_dec m m') as [<-|Hm];
      [|rewrite lookup_set_root_other by assumption; auto with fs].
    rewrite lookup_set_root_same. unfold lookup_path. simpl. rewrite R.
    destruct (prefix_dec q P) as [[r ->]|Hq].
    + destruct r as [|k r].
      * rewrite app_nil_r. apply (modify_same_kind _ _ _ _ _ M).
        -- unfold G. intros [| a es |] d'; try discriminate.
           intros [= <-]. auto.
        -- intros r. destruct r; [auto | left].
           intros H. apply (f_equal (@List.length string)) in H.
           rewrite length_app in H. simpl in H. lia.
      * apply not_prefix_snoc in Hp.
        rewrite (modify_below _ _ _ _ _ M), lookup_app.
        destruct (modify_inv _ _ _ _ M) as (d & d' & Ld & Gd).
        rewrite Ld, Gd. unfold G in Gd.
        destruct d as [| a es |]; try discriminate. injection Gd as <-.
        simpl. destruct x;
          [rewrite find_entry_set_other | rewrite find_entry_remove_other];
          try assumption; apply same_kind_refl.
    + apply (modify_same_kind _ _ _ _ _ M).
      * unfold G. intros [| a es |] d'; try discriminate. intros [= <-]. auto.
      * intros r. left. intros ->. apply Hq. now exists r.
  - exfalso. apply split_last_none in S. subst p. apply Hp. now exists P.
Qed.

(** Below a refilled entry lies what the new node holds. *)
Lemma set_entry_of_below (w : world) (m : mount) (p r : list string)
  (wr : bool) (e x : option node) :
  entry_of w (m, p) = Ok (wr, e) ->
  lookup_path (set_entry_of w (m, p) x) (m, p ++ r)
  = match x with Some c => lookup c r | None => None end.
Proof.
  intros E. pose proof (set_entry_of_same _ _ _ _ x E) as H.
  unfold lookup_path in *. simpl in *.
  destruct (root_of (set_entry_of w (m, p) x) m) as [t|].
  - rewrite lookup_app, H. reflexivity.
  - now subst x.
Qed.

Lemma overwrite_same_kind (w : world) (m m' : mount) (p P : list string)
  (x : node) :
  ~ prefix p P ->
  same_kind (lookup_path w (m', P))
    (lookup_path (overwrite w (m, p) x) (m', P)).
Proof.
  intros Hp. unfold overwrite. simpl.
  destruct (root_of w m) as [t|] eqn:R; [|auto with fs].
  destruct (modify t p _) as [t'|] eqn:M; [|auto with fs].
  destruct (mount_dec m m') as [<-|Hm];
    [|rewrite lookup_set_root_other by assumption; auto with fs].
  rewrite lookup_set_root_same. unfold lookup_path. simpl. rewrite R.
  destruct (prefix_dec P p) as [[r ->]|HPp].
  - destruct r as [|k r].
    + destruct Hp. rewrite app_nil_r. apply prefix_refl.
    + destruct (modify_above _ _ _ _ _ M) as (a & es & es' & -> & ->);
        [discriminate | exact I].
  - rewrite (modify_apart _ _ _ _ _ M Hp HPp). apply same_kind_refl.
Qed.

Lemma overwrite_below (w : world) (m : mount) (p r : list string)
  (c x : node) :
  lookup_path w (m, p) = Some c ->
  lookup_path (overwrite w (m, p) x) (m, p ++ r) = lookup x r.
Proof.
  intros L. pose proof (overwrite_same _ _ _ x L) as H.
  unfold lookup_path in *. simpl in *.
  destruct (root_of (overwrite w (m, p) x) m) as [t|]; [|discriminate].
  now rewrite lookup_app, H.
Qed.

(** ** A removal phase without errors *)

Lemma shrinks_refl (w : world) : shrinks w w.
Proof. split; [reflexivity|]. intros P. right. apply same_kind_refl. Qed.

Lemma shrinks_trans (w1 w2 w3 : world) :
  shrinks w1 w2 -> shrinks w2 w3 -> shrinks w1 w3.
Proof.
  intros [S1 H1] [S2 H2]. split; [congruence|]. intros P.
  destruct (H2 P) as [H|H]; [auto|]. destruct (H1 P) as [[HP H']|H'].
  - left. split; [assumption|]. rewrite H' in H.
    destruct (lookup_path w3 (Destination, P)) as [[| |]|]; simpl in H;
      try contradiction; reflexivity.
  - right. eapply same_kind_trans; eassumption.
Qed.

Lemma shrinks_remove (w : world) (p : list string) (wr : bool)
  (e : option node) :
  p <> [] ->
  entry_of w (Destination, p) = Ok (wr, e) ->
  shrinks w (set_entry_of w (Destination, p) None).
Proof.
  intros Hne E. split; [apply set_entry_of_src|]. intros P.
  destruct (prefix_dec p P) as [[r ->]|Hp].
  - left. split; [|now rewrite (set_entry_of_below _ _ _ _ _ _ None E)].
    intros H. apply app_eq_nil in H. tauto.
  - right. now apply set_entry_of_same_kind.
Qed.

Lemma fold_remove_step_log (items : list path) (st : pass_state) :
  exists l, snd (fold_left remove_step items st) = snd st ++ l.
Proof.
  revert st. induction items as [|item r IH]; intros [w log]; simpl.
  - exists []. now rewrite app_nil_r.
  - fold (remove_step (w, log) item).
    destruct (IH (remove_step (w, log) item)) as [l ->].
    rewrite remove_step_removal_of. simpl. rewrite <- app_assoc. eauto.
Qed.

Lemma removal_loop_clean (items : list path) :
  Forall (fun item => fst item = Destination /\ snd item <> []) items ->
  forall st,
    clean (snd (fold_left remove_step items st)) ->
    shrinks (fst st) (fst (fold_left remove_step items st))
    /\ forall item, In item items ->
                    lookup_path (fst (fold_left remove_step items st)) item
                    = None.
Proof.
  induction 1 as [|[m p] r [Hm Hne] Hr IH]; intros [w log] Hc.
  - simpl. split; [apply shrinks_refl | contradiction].
  - simpl in Hm, Hne. subst m. cbn [fold_left] in *.
    set (st1 := remove_step (w, log) (Destination, p)) in *.
    destruct (IH st1 Hc) as [Hs Hnone].
    destruct (fold_remove_step_log r st1) as [l Hl].
    assert (snd (removal_of w (Destination, p)) = Removed (Destination, p))
      as Hrm.
    { destruct (removal_of_kind w (Destination, p)) as [H|[e H]];
        [assumption|]. exfalso. unfold clean in Hc. rewrite Hl in Hc.
      apply Forall_app in Hc as [Hc _]. unfold st1 in Hc.
      rewrite remove_step_removal_of in Hc. simpl in Hc.
      apply Forall_app in Hc as [_ Hc]. inversion Hc as [|? ? Ho _].
      rewrite H in Ho. discriminate. }
    destruct (removal_of_removed _ _ Hrm) as (Lnone & c & E & _).
    assert (fst st1 = set_entry_of w (Destination, p) None) as Hst1.
    { unfold st1. rewrite remove_step_removal_of. simpl.
      unfold removal_of. rewrite E.
      unfold removal_of in Hrm. rewrite E in Hrm.
      destruct c as [| a [|y es] |]; try reflexivity. discriminate. }
    split.
    + apply (shrinks_trans _ (fst st1)); [|assumption].
      rewrite Hst1. simpl. now apply (shrinks_remove _ _ _ _ Hne E).
    + intros item [<-|Hin]; [|auto].
      destruct Hs as [_ Hs]. destruct (Hs p) as [[_ H]|H]; [assumption|].
      assert (lookup_path (fst st1) (Destination, p) = None) as L1.
      { unfold st1. rewrite remove_step_removal_of. exact Lnone. }
      rewrite L1 in H. clear -H.
      destruct (lookup_path (fst (fold_left remove_step r st1))
                  (Destination, p)) as [[| |]|]; simpl in H;
        try contradiction; reflexivity.
Qed.

(** After a removal phase without errors, what is left in the destination
    is visible in the source, and is of the kind it was. *)
Lemma removal_phase_clean (w : world) (log : list outcome) :
  clean (snd (removal_phase (w, log))) ->
  shrinks w (fst (removal_phase (w, log)))
  /\ forall P c,
       P <> [] ->
       lookup_path (fst (removal_phase (w, log))) (Destination, P) = Some c ->
       visible (lookup_path w (Source, P)) = true.
Proof.
  intros Hc. unfold removal_phase in *. simpl in *.
  destruct (removal_loop_clean (items_to_remove w)) with (st := (w, log))
    as [Hs Hnone]; [| assumption |].
  { apply Forall_forall. intros item Hin.
    split; [apply (proj1 (Forall_forall _ _) (items_to_remove_absent w) _ Hin)|].
    apply filter_In in Hin as [Hin _]. unfold walk_folder in Hin.
    destruct (root_of w Destination) as [t|]; [|contradiction].
    apply In_loop_items_below in Hin as (_ & n & s & ->). simpl.
    discriminate. }
  split; [assumption|]. intros P c HP L.
  destruct (visible (lookup_path w (Source, P))) eqn:V; [reflexivity|].
  exfalso. destruct Hs as [_ Hs]. destruct (Hs P) as [[_ H]|H]; [congruence|].
  simpl in H. rewrite L in H.
  destruct (lookup_path w (Destination, P)) as [c0|] eqn:L0;
    [|destruct c as [| |]; contradiction].
  assert (In (Destination, P) (items_to_remove w)) as Hin.
  { unfold lookup_path in L0. simpl in L0.
    destruct (w_dst w) as [t|] eqn:Hd; [|discriminate].
    unfold items_to_remove. apply filter_In. split.
    - unfold walk_folder. simpl. rewrite Hd.
      apply (lookup_In_loop_items Destination false t c0 [] P HP L0).
    - apply negb_true_iff. now rewrite exists_lookup. }
  rewrite (Hnone _ Hin) in L. discriminate.
Qed.

(** ** A creation phase without errors *)

Lemma settled_same_kind (w w' : world) (P : list string) :
  w_src w' = w_src w ->
  same_kind (lookup_path w (Destination, P)) (lookup_path w' (Destination, P)) ->
  settled w P -> settled w' P.
Proof.
  intros Hs Hk. unfold settled. rewrite (lookup_source w w' P Hs).
  destruct (lookup_path w (Source, P)) as [[a data| a es |]|]; auto.
  - intros (a' & data' & L & H). exists a', data'.
    split; [|assumption]. now apply (same_kind_file _ _ _ _ Hk).
  - now rewrite (same_kind_visible _ _ Hk).
Qed.

Lemma grows_refl (p : list string) (w : world) : grows p w w.
Proof. split; [reflexivity|]. intros P. left. apply same_kind_refl. Qed.

Lemma grows_trans (p1 p2 : list string) (w1 w2 w3 : world) :
  prefix p1 p2 -> grows p1 w1 w2 -> grows p2 w2 w3 -> grows p2 w1 w3.
Proof.
  intros [r Hp] [S1 H1] [S2 H2]. split; [congruence|]. intros P.
  destruct (H1 P) as [K1|(N1 & Q1 & D1)], (H2 P) as [K2|(N2 & Q2 & D2)].
  - left. eapply same_kind_trans; eassumption.
  - right. repeat split; try assumption. rewrite N2 in K1.
    destruct (lookup_path w1 (Destination, P)) as [[| |]|]; simpl in K1;
      try contradiction; reflexivity.
  - right. repeat split; try assumption.
    + destruct Q1 as [r' ->]. exists (r' ++ r). now rewrite app_assoc.
    + now rewrite <- (same_kind_is_dir _ _ K2).
  - rewrite N2 in D1. discriminate.
Qed.

Lemma grows_mkdir (w w' : world) (p : list string) :
  os_mkdir w (Destination, p) = Ok w' -> grows p w w'.
Proof.
  intros M. apply os_mkdir_ok in M as (E & -> & L).
  split; [apply set_entry_of_src|]. intros P.
  destruct (prefix_dec p P) as [[r ->]|Hp].
  - pose proof (entry_of_lookup _ _ _ _ E) as L0.
    assert (lookup_path w (Destination, p ++ r) = None) as N.
    { unfold lookup_path in *. simpl in *.
      destruct (w_dst w) as [t|]; [|reflexivity]. now rewrite lookup_app, L0. }
    rewrite N, (set_entry_of_below _ _ _ _ _ _ _ E).
    destruct r as [|k r].
    + right. repeat split. rewrite app_nil_r. apply prefix_refl.
    + left. exact I.
  - left. now apply set_entry_of_same_kind.
Qed.

Lemma grows_makedirs_rev (rp : list string) :
  forall w w', makedirs_rev w Destination rp = Ok w' -> grows (rev rp) w w'.
Proof.
  induction rp as [|n rq IH]; intros w w'; simpl.
  - apply grows_mkdir.
  - destruct (os_path_exists w (Destination, rev rq)).
    + apply grows_mkdir.
    + destruct (makedirs_rev w Destination rq) as [w1|[]] eqn:M;
        try discriminate; try apply grows_mkdir.
      intros H. apply (grows_trans (rev rq) _ _ w1).
      * now exists [n].
      * now apply IH.
      * now apply grows_mkdir.
Qed.

Lemma writes_copy2 (w w' : world) (p : list string) :
  is_dir_opt (lookup_path w (Destination, p)) = false ->
  shutil_copy2 w (Source, p) (Destination, p) = Ok w' ->
  exists a data,
    lookup_path w (Source, p) = Some (File a data)
    /\ writes p (File a data) w w'.
Proof.
  intros Hd C. pose proof (shutil_copy2_ok _ _ _ _ C) as (a & data & S & L).
  unfold copy_target in L. unfold shutil_copy2 in C.
  rewrite isdir_lookup, Hd in *.
  exists a, data. split; [now apply stat_lookup|].
  destruct (path_eqb _ _ && _); [discriminate|]. rewrite S in C. simpl in C.
  assert (forall P r, P = p ++ r -> P <> p ->
                      lookup_path w (Destination, P) = None) as Below.
  { intros P r -> Hne. unfold lookup_path in *. simpl in *.
    destruct (w_dst w) as [t|]; [|reflexivity]. rewrite lookup_app.
    destruct (lookup t p) as [[| |]|]; try discriminate; try reflexivity;
      destruct r; try reflexivity; destruct Hne; now rewrite app_nil_r. }
  destruct (entry_of w (Destination, p)) as [[[|] [[fa' d'| |]|]]|e] eqn:E;
    simpl in C; try discriminate; injection C as <-.
  - split; [apply overwrite_src|]. split; [assumption|]. intros P HP.
    destruct (prefix_dec p P) as [[r ->]|Hp].
    + rewrite (Below _ r eq_refl HP).
      rewrite (overwrite_below _ _ _ _ _ _ (entry_of_lookup _ _ _ _ E)).
      destruct r; [destruct HP; now rewrite app_nil_r | exact I].
    + now apply overwrite_same_kind.
  - split; [apply set_entry_of_src|]. split; [assumption|]. intros P HP.
    destruct (prefix_dec p P) as [[r ->]|Hp].
    + rewrite (Below _ r eq_refl HP), (set_entry_of_below _ _ _ _ _ _ _ E).
      destruct r; [destruct HP; now rewrite app_nil_r | exact I].
    + now apply set_entry_of_same_kind.
  - split; [apply overwrite_src|]. split; [assumption|]. intros P HP.
    destruct (prefix_dec p P) as [[r ->]|Hp].
    + rewrite (Below _ r eq_refl HP).
      rewrite (overwrite_below _ _ _ _ _ _ (entry_of_lookup _ _ _ _ E)).
      destruct r; [destruct HP; now rewrite app_nil_r | exact I].
    + now apply overwrite_same_kind.
Qed.

Lemma stat_visible (w : world) (p : path) (c : node) :
  stat w p = Ok c -> lookup_path w p = Some c /\ visible (Some c) = true.
Proof.
  intros H. split; [now apply stat_lookup|]. unfold stat in H.
  destruct (root_of w (fst p)) as [t|]; [|discriminate].
  destruct (lookup t (snd p)) as [[| |]|]; try discriminate;
    injection H as <-; reflexivity.
Qed.

(** When the check answers that no write is needed, the destination is in
    line with the source at that path. *)
Lemma same_file_check_false_settled (w : world) (p : list string) :
  p <> [] -> no_dir_over_file w ->
  same_file_check w (Source, p) (Destination, p) = Ok false ->
  settled w p.
Proof.
  intros Hp Hn. unfold same_file_check, settled.
  rewrite exists_lookup, isdir_lookup.
  destruct (visible (lookup_path w (Destination, p))) eqn:V; [|discriminate].
  simpl. unfold os_path_getmtime, os_path_getsize.
  destruct (lookup_path w (Source, p)) as [[a data| a es |]|] eqn:S; simpl.
  - pose proof (Hn p a data Hp S) as Hd.
    destruct (stat w (Destination, p)) as [cd|e] eqn:Sd; [|discriminate].
    apply stat_visible in Sd as [Ld Vd]. rewrite Ld in Hd. simpl.
    destruct cd as [a' data' | |]; try discriminate.
    unfold stat. simpl. unfold lookup_path in S. simpl in S.
    destruct (w_src w) as [t|]; [|discriminate]. rewrite S. simpl.
    destruct (f_mtime a' =? f_mtime a) eqn:Em; simpl; [|discriminate].
    intros [= Es]. apply negb_false_iff in Es.
    apply Z.eqb_eq in Em, Es. exists a', data'. repeat split; auto. lia.
  - intros _. reflexivity.
  - destruct (stat w (Destination, p)) as [cd|e]; [|discriminate]. simpl.
    unfold stat. simpl. unfold lookup_path in S. simpl in S.
    destruct (w_src w) as [t|]; [|discriminate]. rewrite S. discriminate.
  - destruct (stat w (Destination, p)) as [cd|e]; [|discriminate]. simpl.
    unfold stat. simpl. unfold lookup_path in S. simpl in S.
    destruct (w_src w) as [t|]; [rewrite S|]; discriminate.
Qed.

Lemma in_step_refl (w : world) : in_step w w.
Proof. repeat split; auto. Qed.

(** New directories above a directory of the source keep the loop's
    invariants. *)
Lemma in_step_grows (w w' : world) (p : list string) :
  is_dir_opt (lookup_path w (Source, p)) = true ->
  grows p w w' -> in_step w w'.
Proof.
  intros Hd [Hs Hg].
  assert (forall P, prefix P p ->
                    is_dir_opt (lookup_path w (Source, P)) = true) as Above.
  { intros P HP. destruct (lookup_path w (Source, p)) as [c|] eqn:L;
      [|discriminate].
    destruct (lookup_path_prefix _ _ _ _ _ HP L) as (d & Ld & Hdir).
    rewrite Ld. simpl. destruct (list_eq_dec string_dec P p) as [->|Hne].
    - rewrite L in Ld. injection Ld as <-. exact Hd.
    - auto. }
  split; [assumption|]. repeat apply conj.
  - intros Hw P c HP L. rewrite (lookup_source w w' P Hs).
    destruct (Hg P) as [K|(N & Q & D)].
    + rewrite L in K.
      destruct (lookup_path w (Destination, P)) as [c0|] eqn:L0.
      * now apply (Hw P c0).
      * destruct c; contradiction.
    + specialize (Above P Q).
      destruct (lookup_path w (Source, P)) as [[| |]|]; try discriminate.
      reflexivity.
  - intros Hn P a data HP L. rewrite (lookup_source w w' P Hs) in L.
    destruct (Hg P) as [K|(N & Q & D)].
    + rewrite <- (same_kind_is_dir _ _ K). now apply (Hn P a data).
    + specialize (Above P Q). rewrite L in Above. discriminate.
  - unfold destination_folder. destruct (Hg []) as [K|(N & Q & D)].
    + now rewrite (same_kind_visible _ _ K).
    + intros _. destruct (lookup_path w' (Destination, [])) as [[| |]|];
        try discriminate. reflexivity.
  - intros P HS. destruct (Hg P) as [K|(N & Q & D)].
    + now apply (settled_same_kind w w' P Hs K).
    + unfold settled in *. rewrite (lookup_source w w' P Hs).
      specialize (Above P Q).
      destruct (lookup_path w (Source, P)) as [[| |]|]; try discriminate.
      destruct (lookup_path w' (Destination, P)) as [[| |]|];
        try discriminate. reflexivity.
Qed.

(** A copy onto the path of a file of the source keeps the loop's
    invariants. *)
Lemma in_step_writes (w w' : world) (p : list string) (a : fattr)
  (data : string) :
  p <> [] ->
  lookup_path w (Source, p) = Some (File a data) ->
  writes p (File a data) w w' ->
  in_step w w' /\ settled w' p.
Proof.
  intros Hne0 L (Hs & Lp & Hk).
  assert (settled w' p) as Hset.
  { unfold settled. rewrite (lookup_source w w' p Hs), L. eauto. }
  split; [|assumption]. split; [assumption|]. repeat apply conj.
  - intros Hw P c HP LP. rewrite (lookup_source w w' P Hs).
    destruct (list_eq_dec string_dec P p) as [->|Hne].
    + now rewrite L.
    + specialize (Hk P Hne). rewrite LP in Hk.
      destruct (lookup_path w (Destination, P)) as [c0|] eqn:L0.
      * now apply (Hw P c0).
      * destruct c; contradiction.
  - intros Hn P a0 d0 HP LP. rewrite (lookup_source w w' P Hs) in LP.
    destruct (list_eq_dec string_dec P p) as [->|Hne].
    + now rewrite Lp.
    + rewrite <- (same_kind_is_dir _ _ (Hk P Hne)). now apply (Hn P a0 d0).
  - unfold destination_folder.
    now rewrite (same_kind_visible _ _ (Hk [] (not_eq_sym Hne0))).
  - intros P HS. destruct (list_eq_dec string_dec P p) as [->|Hne];
      [assumption|]. now apply (settled_same_kind w w' P Hs (Hk P Hne)).
Qed.

(** One turn of the creation loop that records no error. *)
Lemma create_step_clean (w w' : world) (log log' : list outcome)
  (p : list string) :
  p <> [] -> no_dir_over_file w ->
  create_step (w, log) (Source, p) = Ok (w', log') -> clean log' ->
  in_step w w' /\ settled w' p /\ clean log.
Proof.
  intros Hp Hn. unfold create_step.
  change (join_rel destination_folder (relpath (Source, p)))
    with (Destination, p).
  destruct (same_file_check w (Source, p) (Destination, p)) as [[|]|e] eqn:C;
    simpl; try discriminate.
  - destruct (os_path_isdir w (Source, p)) eqn:Hd.
    + destruct (os_makedirs w (Destination, p)) as [w1|e] eqn:M;
        intros [= <- <-] Hc; apply Forall_app in Hc as [Hc Ho];
        inversion Ho as [|? ? Herr _]; try discriminate.
      rewrite isdir_lookup in Hd. pose proof M as M'.
      unfold os_makedirs in M. apply grows_makedirs_rev in M.
      simpl in M. rewrite rev_involutive in M.
      pose proof (in_step_grows _ _ _ Hd M) as Hstep.
      split; [assumption|]. split; [|assumption].
      apply os_makedirs_ok in M' as [M' _]. rewrite isdir_lookup in M'.
      unfold settled. destruct Hstep as [Hs _].
      rewrite (lookup_source w w1 p Hs).
      destruct (lookup_path w (Source, p)) as [[| |]|]; try discriminate.
      destruct (lookup_path w1 (Destination, p)) as [[| |]|];
        try discriminate. reflexivity.
    + destruct (shutil_copy2 w (Source, p) (Destination, p)) as [w1|e] eqn:M;
        intros [= <- <-] Hc; apply Forall_app in Hc as [Hc Ho];
        inversion Ho as [|? ? Herr _]; try discriminate.
      assert (is_dir_opt (lookup_path w (Destination, p)) = false) as HD.
      { pose proof (shutil_copy2_ok _ _ _ _ M) as (a & data & S & _).
        apply stat_lookup in S. now apply (Hn p a data). }
      destruct (writes_copy2 _ _ _ HD M) as (a & data & L & W).
      destruct (in_step_writes _ _ _ _ _ Hp L W). auto.
  - intros [= <- <-] Hc. split; [apply in_step_refl|].
    split; [|assumption]. now apply same_file_check_false_settled.
Qed.

Lemma create_step_log (st st' : pass_state) (s : path) :
  create_step st s = Ok st' -> exists l, snd st' = snd st ++ l.
Proof.
  destruct st as [w log]. unfold create_step.
  destruct (same_file_check _ _ _) as [[|]|]; simpl; try discriminate.
  - destruct (os_path_isdir w s).
    + destruct (os_makedirs _ _); intros [= <-]; simpl; eauto.
    + destruct (shutil_copy2 _ _ _); intros [= <-]; simpl; eauto.
  - intros [= <-]. exists []. now rewrite app_nil_r.
Qed.

Lemma for_each_create_step_log (items : list path) :
  forall st st',
    for_each create_step items st = Ok st' ->
    exists l, snd st' = snd st ++ l.
Proof.
  induction items as [|s r IH]; intros st st'; simpl.
  - intros [= <-]. exists []. now rewrite app_nil_r.
  - destruct (create_step st s) as [st1|e] eqn:C; simpl; [|discriminate].
    intros F. destruct (IH _ _ F) as [l ->].
    destruct (create_step_log _ _ _ C) as [l1 ->].
    rewrite <- app_assoc. eauto.
Qed.

Lemma creation_loop_clean (items : list path) :
  Forall (fun s => fst s = Source /\ snd s <> []) items ->
  forall st st',
    no_dir_over_file (fst st) ->
    for_each create_step items st = Ok st' -> clean (snd st') ->
    in_step (fst st) (fst st')
    /\ no_dir_over_file (fst st')
    /\ clean (snd st)
    /\ forall s, In s items -> settled (fst st') (snd s).
Proof.
  induction 1 as [|[m p] r [Hm Hp] Hr IH]; intros [w log] st' Hn.
  - simpl. intros [= <-] Hc. repeat split; auto. contradiction.
  - simpl in Hm, Hp, Hn. subst m. cbn [for_each].
    destruct (create_step (w, log) (Source, p)) as [[w1 log1]|e] eqn:C;
      cbn [bind]; [|discriminate]. intros F Hc.
    assert (clean log1) as Hc1.
    { destruct (for_each_create_step_log _ _ _ F) as [l Hl].
      unfold clean in Hc. rewrite Hl in Hc.
      now apply Forall_app in Hc as [Hc _]. }
    destruct (create_step_clean _ _ _ _ _ Hp Hn C Hc1) as (Hstep & Hsp & Hcl).
    assert (no_dir_over_file w1) as Hn1
      by (destruct Hstep as (_ & _ & H & _); auto).
    destruct (IH (w1, log1) st' Hn1 F Hc) as (Hi & Hn' & _ & Hset).
    simpl in *. split; [|split; [assumption|split; [assumption|]]].
    + destruct Hstep as (S1 & W1 & N1 & V1 & T1),
        Hi as (S2 & W2 & N2 & V2 & T2).
      repeat split; auto. congruence.
    + intros s [<-|Hin]; [|auto]. simpl.
      destruct Hi as (_ & _ & _ & _ & T2). auto.
Qed.

(** ** Trees that list no name twice *)

Lemma NoDup_names_distinct (l : list string) :
  NoDup l -> names_distinct l = true.
Proof.
  induction 1 as [|n r Hn Hr IH]; simpl; [reflexivity|].
  rewrite IH, andb_true_r. apply negb_true_iff.
  destruct (existsb (String.eqb n) r) eqn:E; [|reflexivity].
  apply existsb_exists in E as (k & Hk & E). apply String.eqb_eq in E.
  now subst k.
Qed.

Lemma well_formed_dir_iff (a : dattr) (es : entries_t) :
  well_formed (Dir a es)
  <-> NoDup (map fst es) /\ Forall (fun x => well_formed (snd x)) es.
Proof.
  split; [apply well_formed_dir|]. intros [Hn Hf]. unfold well_formed.
  simpl. rewrite (NoDup_names_distinct _ Hn). simpl.
  induction Hf as [|[n c] r Hc Hr IH]; [reflexivity|].
  simpl in *. inversion Hn as [|? ? _ Hn']. subst.
  rewrite Hc. simpl. auto.
Qed.

Lemma names_set_entry (n : string) (c : node) (es : entries_t) :
  map fst (set_entry n c es)
  = if existsb (String.eqb n) (map fst es) then map fst es
    else map fst es ++ [n].
Proof.
  induction es as [|[m d] r IH]; simpl; [reflexivity|].
  destruct (String.eqb n m) eqn:E; simpl; [reflexivity|].
  rewrite IH. destruct (existsb _ _); reflexivity.
Qed.

Lemma set_entry_wf (n : string) (c : node) (es : entries_t) :
  NoDup (map fst es) -> Forall (fun x => well_formed (snd x)) es ->
  well_formed c ->
  NoDup (map fst (set_entry n c es))
  /\ Forall (fun x => well_formed (snd x)) (set_entry n c es).
Proof.
  intros Hn Hf Hc. split.
  - rewrite names_set_entry.
    destruct (existsb (String.eqb n) (map fst es)) eqn:E; [assumption|].
    apply NoDup_app; [assumption | repeat constructor; auto |].
    intros k Hk [Hk'|[]]. subst k.
    assert (existsb (String.eqb n) (map fst es) = true); [|congruence].
    apply existsb_exists. exists n. split; [assumption|apply String.eqb_refl].
  - induction Hf as [|[m d] r Hd Hr IH]; simpl.
    + repeat constructor. assumption.
    + inversion Hn. subst. destruct (String.eqb n m); constructor; auto.
Qed.

Lemma remove_entry_incl (n : string) (es : entries_t) :
  incl (remove_entry n es) es.
Proof.
  induction es as [|[m d] r IH]; simpl; [apply incl_refl|].
  destruct (String.eqb n m).
  - now apply incl_tl.
  - apply incl_cons; [now left | now apply incl_tl].
Qed.

Lemma remove_entry_wf (n : string) (es : entries_t) :
  NoDup (map fst es) -> Forall (fun x => well_formed (snd x)) es ->
  NoDup (map fst (remove_entry n es))
  /\ Forall (fun x => well_formed (snd x)) (remove_entry n es).
Proof.
  intros Hn Hf. split.
  - induction es as [|[m d] r IH]; simpl; [constructor|].
    inversion Hn as [|? ? Hm Hn']. inversion Hf. subst.
    destruct (String.eqb n m); [auto|]. simpl. constructor; [|auto].
    intros Hin. apply Hm. apply in_map_iff in Hin as ([k c] & <- & Hin).
    apply in_map_iff. exists (k, c). split; [reflexivity|].
    now apply (remove_entry_incl n r).
  - apply Forall_forall. intros x Hx.
    apply (proj1 (Forall_forall _ _) Hf). now apply (remove_entry_incl n es).
Qed.

Lemma find_entry_wf (n : string) (c : node) (es : entries_t) :
  Forall (fun x => well_formed (snd x)) es ->
  find_entry n es = Some c -> well_formed c.
Proof.
  intros Hf E. apply find_entry_In in E.
  apply (proj1 (Forall_forall _ _) Hf (n, c) E).
Qed.

Lemma modify_wf (q : list string) (g : node -> option node) :
  (forall d d', well_formed d -> g d = Some d' -> well_formed d') ->
  forall t t', well_formed t -> modify t q g = Some t' -> well_formed t'.
Proof.
  intros Hg. induction q as [|n q IH]; intros t t' Hwf; simpl.
  - now apply Hg.
  - destruct t as [| a es |]; try discriminate.
    destruct (find_entry n es) as [c|] eqn:E; [|discriminate].
    destruct (modify c q g) as [c'|] eqn:M; [|discriminate].
    intros [= <-]. apply well_formed_dir in Hwf as [Hn Hf].
    apply well_formed_dir_iff. apply set_entry_wf; try assumption.
    apply (IH c); [|assumption]. now apply (find_entry_wf n c es).
Qed.

Lemma set_entry_of_wf (w : world) (m : mount) (p : list string)
  (x : option node) :
  well_formed_at w m ->
  (forall c, x = Some c -> well_formed c) ->
  well_formed_at (set_entry_of w (m, p) x) m.
Proof.
  intros Hw Hx. unfold set_entry_of. simpl.
  destruct (split_last p) as [[q n]|].
  - destruct (root_of w m) as [t|] eqn:R; [|assumption].
    match goal with |- context [modify t q ?g] => set (G := g) end.
    destruct (modify t q G) as [t'|] eqn:M; [|assumption].
    intros t''. destruct m; simpl; intros [= <-];
      (apply (modify_wf q G) with (t := t); [|now apply Hw|assumption]);
      unfold G; intros [| a es |] d' Hd; try discriminate; intros [= <-];
      apply well_formed_dir in Hd as [Hn Hf]; apply well_formed_dir_iff;
      (destruct x as [c|]; [apply set_entry_wf; auto | now apply remove_entry_wf]).
  - intros t'. destruct m; simpl; intros [= ->]; now apply Hx.
Qed.

Lemma overwrite_wf (w : world) (m : mount) (p : list string) (x : node) :
  well_formed_at w m -> well_formed x ->
  well_formed_at (overwrite w (m, p) x) m.
Proof.
  intros Hw Hx. unfold overwrite. simpl.
  destruct (root_of w m) as [t|] eqn:R; [|assumption].
  destruct (modify t p _) as [t'|] eqn:M; [|assumption].
  intros t''. destruct m; simpl; intros [= <-];
    (apply (modify_wf p (fun _ => Some x)) with (t := t);
     [|now apply Hw|assumption]); intros d d' _ [= <-]; assumption.
Qed.

Lemma NoDup_find_entry (n : string) (c : node) (es : entries_t) :
  NoDup (map fst es) -> In (n, c) es -> find_entry n es = Some c.
Proof.
  induction es as [|[m d] r IH]; simpl; [contradiction|].
  intros Hn [[= -> ->]|Hin].
  - now rewrite String.eqb_refl.
  - inversion Hn as [|? ? Hm Hn']. subst.
    destruct (String.eqb n m) eqn:E; [|auto].
    apply String.eqb_eq in E. subst m. destruct Hm.
    apply in_map_iff. now exists (n, c).
Qed.

Lemma In_names_entry (n : string) (es : entries_t) :
  In n (dirnames es ++ filenames es) -> exists c, In (n, c) es.
Proof.
  intros H. apply in_app_or in H.
  induction es as [|[m d] r IH]; simpl in *; [tauto|].
  destruct (is_dir d); simpl in H.
  - destruct H as [[->|H]|H]; eauto; destruct IH as [c Hc]; eauto.
  - destruct H as [H|[->|H]]; eauto; destruct IH as [c Hc]; eauto.
Qed.

(** In a tree that lists no name twice, the loops meet existing paths
    only. *)
Lemma In_loop_items_lookup (folder : mount) (topdown : bool) (t : node) :
  forall (top : list string) (x : path),
    well_formed t ->
    In x (loop_items folder (os_walk topdown top t)) ->
    exists r c, snd x = top ++ r /\ r <> [] /\ lookup t r = Some c.
Proof.
  induction t as [a data | a es IH |] using node_induction; intros top x Hwf;
    try contradiction.
  apply well_formed_dir in Hwf as [Hn Hf].
  rewrite loop_items_os_walk_dir. intros H.
  assert (In x (here_items folder top es)
          \/ In x (loop_items folder (walk_entries topdown top es)))
    as [Hx|Hx] by (destruct topdown; apply in_app_or in H; tauto).
  - unfold here_items in Hx. apply in_map_iff in Hx as (n & <- & Hin).
    apply In_names_entry in Hin as [c Hin].
    exists [n], c. simpl. rewrite (NoDup_find_entry _ _ _ Hn Hin).
    repeat split. discriminate.
  - clear H.
    assert (exists n c, In (n, c) es /\ is_dir c = true
                        /\ In x (loop_items folder
                                   (os_walk topdown (top ++ [n]) c)))
      as (n & c & Hin & Hd & Hx').
    { clear -Hx. induction es as [|[m d] r IHr]; [contradiction|].
      simpl in Hx. rewrite loop_items_app in Hx.
      apply in_app_or in Hx as [Hx|Hx].
      - destruct (is_dir d) eqn:D; [|contradiction].
        exists m, d. simpl. auto.
      - destruct (IHr Hx) as (n & c & Hin & H). exists n, c. simpl. auto. }
    pose proof (proj1 (Forall_forall _ _) IH (n, c) Hin) as IHc.
    pose proof (proj1 (Forall_forall _ _) Hf (n, c) Hin) as Hc.
    destruct (IHc _ _ Hc Hx') as (r & c' & Hs & Hr & L).
    exists (n :: r), c'. simpl. rewrite (NoDup_find_entry _ _ _ Hn Hin).
    repeat split; [|discriminate|assumption].
    now rewrite Hs, <- app_assoc.
Qed.

(** ** The destination keeps listing no name twice *)

Lemma fresh_dir_wf (now : Z) : well_formed (fresh_dir now).
Proof. reflexivity. Qed.

Lemma remove_step_wf (w : world) (log : list outcome) (p : list string) :
  well_formed_at w Destination ->
  well_formed_at (fst (remove_step (w, log) (Destination, p))) Destination.
Proof.
  intros H. rewrite remove_step_removal_of. simpl. unfold removal_of.
  entry_cases w (Destination, p);
    simpl; try assumption; apply set_entry_of_wf; auto; discriminate.
Qed.

Lemma os_mkdir_wf (w w' : world) (p : list string) :
  well_formed_at w Destination -> os_mkdir w (Destination, p) = Ok w' ->
  well_formed_at w' Destination.
Proof.
  intros H M. apply os_mkdir_ok in M as (_ & -> & _).
  apply set_entry_of_wf; [assumption|]. intros c [= <-]. apply fresh_dir_wf.
Qed.

Lemma makedirs_rev_wf (rp : list string) :
  forall w w', well_formed_at w Destination ->
               makedirs_rev w Destination rp = Ok w' ->
               well_formed_at w' Destination.
Proof.
  induction rp as [|n rq IH]; intros w w' H; simpl.
  - now apply os_mkdir_wf.
  - destruct (os_path_exists w (Destination, rev rq)).
    + now apply os_mkdir_wf.
    + destruct (makedirs_rev w Destination rq) as [w1|[]] eqn:M;
        try discriminate; try (now apply os_mkdir_wf).
      apply os_mkdir_wf. now apply (IH w w1).
Qed.

Lemma shutil_copy2_wf (w w' : world) (src : path) (p : list string) :
  well_formed_at w Destination ->
  shutil_copy2 w src (Destination, p) = Ok w' ->
  well_formed_at w' Destination.
Proof.
  intros H. unfold shutil_copy2.
  set (tgt := if os_path_isdir w (Destination, p)
              then join (Destination, p) (basename src)
              else (Destination, p)).
  assert (fst tgt = Destination) as Hm
    by (unfold tgt; destruct (os_path_isdir w (Destination, p)); reflexivity).
  destruct tgt as [m tp]. simpl in Hm. subst m.
  destruct (path_eqb _ _ && _); [discriminate|].
  destruct (stat w src) as [[a data| |]|e]; simpl; try discriminate.
  destruct (entry_of w (Destination, tp)) as [[[|] [[fa' d'| |]|]]|e];
    simpl; try discriminate; intros [= <-];
    try (now apply overwrite_wf).
  apply set_entry_of_wf; [assumption|]. now intros c [= <-].
Qed.

Lemma create_step_wf (w w' : world) (log log' : list outcome) (s : path) :
  well_formed_at w Destination ->
  create_step (w, log) s = Ok (w', log') -> well_formed_at w' Destination.
Proof.
  intros H. unfold create_step.
  destruct (same_file_check _ _ _) as [[|]|]; simpl; try discriminate.
  - destruct (os_path_isdir w s).
    + destruct (os_makedirs _ _) as [w1|e] eqn:M; intros [= <- <-];
        [|assumption]. unfold os_makedirs in M. simpl in M.
      now apply (makedirs_rev_wf _ _ _ H M).
    + destruct (shutil_copy2 _ _ _) as [w1|e] eqn:M; intros [= <- <-];
        [|assumption]. simpl in M. now apply (shutil_copy2_wf _ _ _ _ H M).
  - now intros [= <- <-].
Qed.

Lemma fold_remove_step_wf (items : list path) :
  Forall (fun item => fst item = Destination) items ->
  forall st, well_formed_at (fst st) Destination ->
             well_formed_at (fst (fold_left remove_step items st)) Destination.
Proof.
  induction 1 as [|[m p] r Hm _ IH]; intros [w log] H; [assumption|].
  simpl in Hm. subst m. cbn [fold_left]. apply IH. now apply remove_step_wf.
Qed.

Lemma for_each_create_step_wf (items : list path) :
  forall st st', well_formed_at (fst st) Destination ->
                 for_each create_step items st = Ok st' ->
                 well_formed_at (fst st') Destination.
Proof.
  induction items as [|s r IH]; intros [w log] st' H; cbn [for_each].
  - now intros [= <-].
  - destruct (create_step (w, log) s) as [[w1 l1]|e] eqn:C; cbn [bind];
      [|discriminate]. apply IH. now apply (create_step_wf _ _ _ _ _ H C).
Qed.

Lemma phases_wf (st st' : pass_state) :
  well_formed_at (fst st) Destination ->
  creation_phase (removal_phase st) = Ok st' ->
  well_formed_at (fst st') Destination.
Proof.
  intros H. unfold creation_phase. apply for_each_create_step_wf.
  unfold removal_phase. apply fold_remove_step_wf; [|assumption].
  eapply Forall_impl; [|apply items_to_remove_absent]. simpl. tauto.
Qed.

Lemma reconcile_wf (w w' : world) (outs : list outcome) :
  well_formed_at w Destination -> reconcile w = Ok (w', outs) ->
  well_formed_at w' Destination.
Proof.
  intros H. unfold reconcile.
  destruct (os_path_exists w source_folder); simpl; [|now intros [= <- <-]].
  destruct (os_path_exists w destination_folder); simpl.
  - intros C. now apply (phases_wf (w, []) (w', outs)).
  - destruct (os_makedirs w destination_folder) as [w0|e] eqn:M; simpl.
    + intros C. apply (phases_wf (w0, [CreatedFolder]) (w', outs)); [|assumption].
      simpl. unfold os_makedirs in M. simpl in M.
      now apply (os_mkdir_wf _ _ _ H M).
    + now intros [= <- <-].
Qed.

(** ** A pass without errors *)

Lemma loop_items_nonempty (folder : mount) (topdown : bool) (w : world) :
  Forall (fun s => fst s = folder /\ snd s <> [])
    (loop_items folder (walk_folder topdown w folder)).
Proof.
  apply Forall_forall. intros x H. unfold walk_folder in H.
  destruct (root_of w folder) as [t|]; [|contradiction].
  apply In_loop_items_below in H as (H & n & r & ->). split; [assumption|].
  simpl. discriminate.
Qed.

Lemma walk_folder_source (topdown : bool) (w w' : world) :
  w_src w' = w_src w ->
  walk_folder topdown w' Source = walk_folder topdown w Source.
Proof. unfold walk_folder. simpl. now intros ->. Qed.

Lemma phases_clean (w0 w' : world) (log0 outs : list outcome) :
  no_dir_over_file w0 ->
  visible (lookup_path w0 destination_folder) = true ->
  creation_phase (removal_phase (w0, log0)) = Ok (w', outs) ->
  clean outs ->
  mirrored w0 w'.
Proof.
  intros Hn Hv C Hc. unfold creation_phase in C.
  set (st1 := removal_phase (w0, log0)) in *.
  destruct (for_each_create_step_log _ _ _ C) as [l Hl]. simpl in Hl.
  assert (clean (snd st1)) as Hc1.
  { unfold clean in Hc. rewrite Hl in Hc. now apply Forall_app in Hc as [Hc _]. }
  destruct (removal_phase_clean w0 log0 Hc1) as [[Hs Hk] Hvis].
  fold st1 in Hs, Hk, Hvis.
  assert (no_dir_over_file (fst st1)) as Hn1.
  { intros P a data HP L. rewrite (lookup_source w0 _ P Hs) in L.
    destruct (Hk P) as [[_ ->]|K]; [reflexivity|].
    rewrite <- (same_kind_is_dir _ _ K). now apply (Hn P a data). }
  assert (within (fst st1)) as Hw1.
  { intros P c HP L. rewrite (lookup_source w0 _ P Hs). now apply (Hvis P c). }
  assert (visible (lookup_path (fst st1) destination_folder) = true) as Hv1.
  { unfold destination_folder. destruct (Hk []) as [[H _]|K]; [congruence|].
    now rewrite <- (same_kind_visible _ _ K). }
  destruct (creation_loop_clean _ (loop_items_nonempty Source true (fst st1))
              st1 (w', outs) Hn1 C Hc)
    as ((S2 & W2 & N2 & V2 & T2) & Hn' & _ & Hset).
  simpl in *. repeat split; auto.
  - congruence.
  - intros s Hin. apply Hset. now rewrite (walk_folder_source true w0 _ Hs).
Qed.

Lemma clean_pass_mirrored (w w' : world) (outs : list outcome) :
  no_dir_over_file w -> reconcile w = Ok (w', outs) -> clean outs ->
  mirrored w w' /\ visible (lookup_path w source_folder) = true.
Proof.
  intros Hn. unfold reconcile. rewrite !exists_lookup.
  destruct (visible (lookup_path w source_folder)) eqn:Vs; simpl.
  2:{ intros [= <- <-] Hc. inversion Hc as [|? ? Ho _]. discriminate. }
  destruct (visible (lookup_path w destination_folder)) eqn:Vd; simpl.
  - intros C Hc. split; [|reflexivity]. now apply (phases_clean w w' [] outs).
  - destruct (os_makedirs w destination_folder) as [w0|e] eqn:M; simpl.
    + intros C Hc. split; [|reflexivity].
      unfold os_makedirs in M. simpl in M.
      pose proof (grows_mkdir _ _ _ M) as [Hs Hg].
      assert (mirrored w0 w') as (S1 & H1 & H2 & H3 & H4).
      { apply (phases_clean w0 w' [CreatedFolder] outs); try assumption.
        - intros P a data HP L. rewrite (lookup_source w w0 P Hs) in L.
          destruct (Hg P) as [K|(_ & Q & _)].
          + rewrite <- (same_kind_is_dir _ _ K). now apply (Hn P a data).
          + apply prefix_nil_r in Q. contradiction.
        - apply os_mkdir_ok in M as (_ & _ & L). unfold destination_folder.
          now rewrite L. }
      repeat split; auto; [congruence|].
      intros s Hin. apply H4. now rewrite (walk_folder_source true w w0 Hs).
    + intros [= <- <-] Hc. inversion Hc as [|? ? Ho _]. discriminate.
Qed.

(** Where the destination holds no directory at the relative path of a
    regular file of the source, a pass that returns without an error
    outcome leaves under the destination exactly the relative paths of the
    source, each file of the source as a file with its modification time
    and size. *)
Theorem clean_pass_converges (w w' : world) (outs : list outcome) :
  no_dir_over_file w -> reconcile w = Ok (w', outs) -> clean outs ->
  w_src w' = w_src w
  /\ (forall P, P <> [] ->
                (lookup_path w' (Destination, P) <> None
                 <-> lookup_path w' (Source, P) <> None))
  /\ (forall P a data,
        P <> [] -> lookup_path w' (Source, P) = Some (File a data) ->
        exists a' data',
          lookup_path w' (Destination, P) = Some (File a' data')
          /\ f_mtime a' = f_mtime a
          /\ st_size (File a' data') = st_size (File a data)).
Proof.
  intros Hn R Hc.
  destruct (clean_pass_mirrored _ _ _ Hn R Hc) as [(Hs & Hw & _ & _ & Hset) _].
  assert (forall P c, P <> [] -> lookup_path w' (Source, P) = Some c ->
                      settled w' P) as Hall.
  { intros P c HP L. apply (Hset (Source, P)).
    rewrite (lookup_source w w' P Hs) in L. unfold lookup_path in L.
    unfold walk_folder. simpl in *.
    destruct (w_src w) as [t|]; [|discriminate].
    apply (lookup_In_loop_items Source true t c [] P HP L). }
  split; [assumption|]. split.
  - intros P HP. split.
    + intros H. destruct (lookup_path w' (Destination, P)) as [c|] eqn:L;
        [|congruence]. specialize (Hw P c HP L).
      destruct (lookup_path w' (Source, P)); simpl in *; congruence.
    + intros H. destruct (lookup_path w' (Source, P)) as [c|] eqn:L;
        [|congruence]. specialize (Hall P c HP L). unfold settled in Hall.
      rewrite L in Hall. destruct c as [a data| a es |].
      * destruct Hall as (a' & data' & -> & _). discriminate.
      * destruct (lookup_path w' (Destination, P)); discriminate.
      * contradiction.
  - intros P a data HP L. specialize (Hall P _ HP L). unfold settled in Hall.
    rewrite L in Hall. destruct Hall as (a' & data' & L' & Hm & Hl).
    exists a', data'. simpl. rewrite Hl. auto.
Qed.

Lemma filter_none {A : Type} (f : A -> bool) (l : list A) :
  (forall x, In x l -> f x = false) -> filter f l = [].
Proof.
  induction l as [|a l IH]; simpl; [reflexivity|]. intros H.
  rewrite (H a) by auto. apply IH. auto.
Qed.

Lemma for_each_unchanged {A S : Type} (body : S -> A -> result S)
  (l : list A) (st : S) :
  (forall x, In x l -> body st x = Ok st) -> for_each body l st = Ok st.
Proof.
  induction l as [|a l IH]; simpl; [reflexivity|]. intros H.
  rewrite (H a) by auto. simpl. apply IH. auto.
Qed.

(** Where the destination is in line with the source, the check answers
    that no write is needed. *)
Lemma settled_same_file_check (w : world) (p : list string) (c : node) :
  lookup_path w (Source, p) = Some c -> settled w p ->
  same_file_check w (Source, p) (Destination, p) = Ok false.
Proof.
  unfold settled. intros L. rewrite L. unfold same_file_check.
  rewrite exists_lookup, isdir_lookup, L.
  unfold os_path_getmtime, os_path_getsize, stat. simpl.
  unfold lookup_path in *. simpl in *.
  destruct (w_src w) as [ts|]; [|discriminate]. rewrite L.
  destruct c as [a data | a es |]; [| |contradiction].
  - intros (a' & data' & L' & Hm & Hl).
    destruct (w_dst w) as [td|]; [|discriminate]. rewrite L'. simpl.
    rewrite Hm, Hl, !Z.eqb_refl. reflexivity.
  - intros V. now rewrite V.
Qed.

(** After a pass without errors from a destination that holds no
    directory at the relative path of a regular file of the source, the
    next pass finds nothing to do: it records no outcome and leaves the
    filesystem as it is. *)
Theorem clean_pass_idempotent (w w' : world) (outs : list outcome) :
  well_formed_at w Source -> well_formed_at w Destination ->
  no_dir_over_file w -> reconcile w = Ok (w', outs) -> clean outs ->
  reconcile w' = Ok (w', []).
Proof.
  intros Ws Wd Hn R Hc.
  destruct (clean_pass_mirrored _ _ _ Hn R Hc)
    as [(Hs & Hw & _ & Hv & Hset) Hvs].
  pose proof (reconcile_wf _ _ _ Wd R) as Wd'.
  unfold reconcile. rewrite !exists_lookup.
  unfold source_folder in *. rewrite (lookup_source w w' [] Hs), Hvs, Hv.
  simpl.
  assert (items_to_remove w' = []) as Hrm.
  { unfold items_to_remove. apply filter_none. intros [m P] Hin.
    unfold walk_folder in Hin. simpl in Hin.
    destruct (w_dst w') as [td|] eqn:D; [|contradiction].
    pose proof (In_loop_items_below _ _ _ _ _ Hin) as [Hm _].
    apply In_loop_items_lookup in Hin as (r & c & Hr & Hne & L);
      [|now apply Wd']. simpl in *. subst m P.
    apply negb_false_iff. rewrite exists_lookup.
    apply (Hw r c Hne). unfold lookup_path. simpl. now rewrite D. }
  unfold removal_phase. simpl. rewrite Hrm. simpl.
  unfold creation_phase. simpl. apply for_each_unchanged.
  intros [m P] Hin. rewrite (walk_folder_source true w w' Hs) in Hin.
  pose proof (Hset _ Hin) as Hst. simpl in Hst.
  unfold walk_folder in Hin. simpl in Hin.
  destruct (w_src w) as [ts|] eqn:S; [|contradiction].
  pose proof (In_loop_items_below _ _ _ _ _ Hin) as [Hm _].
  apply In_loop_items_lookup in Hin as (r & c & Hr & Hne & L);
    [|now apply Ws]. simpl in Hr, Hm. subst m P.
  unfold create_step.
  change (join_rel destination_folder (relpath (Source, r)))
    with (Destination, r).
  rewrite (settled_same_file_check w' r c); [reflexivity| |assumption].
  unfold lookup_path. simpl. now rewrite Hs.
Qed.

(** The scenario of the specification meets the hypotheses of the two
    theorems. *)
Lemma scenario_no_dir_over_file : no_dir_over_file Sample.scenario.
Proof.
  intros P a data HP L. unfold lookup_path in *. simpl in *.
  destruct P as [|n r]; [congruence|]. simpl in *.
  destruct (String.eqb n "a.txt") eqn:E1.
  - apply String.eqb_eq in E1. subst n. reflexivity.
  - destruct (String.eqb n "sub") eqn:E2; [|discriminate].
    destruct r; discriminate.
Qed.

Example scenario_converges :
  exists w' outs,
    reconcile Sample.scenario = Ok (w', outs)
    /\ lookup_path w' (Destination, ["a.txt"])
       = Some (File (Sample.fa 7) "0123456789")
    /\ forall P, P <> [] ->
                 (lookup_path w' (Destination, P) <> None
                  <-> lookup_path w' (Source, P) <> None).
Proof.
  destruct (reconcile Sample.scenario) as [[w' outs]|e] eqn:R;
    [|vm_compute in R; discriminate].
  exists w', outs. split; [reflexivity|].
  assert (clean outs) as Hc.
  { vm_compute in R. injection R as <- <-. repeat constructor. }
  destruct (clean_pass_converges _ _ _ scenario_no_dir_over_file R Hc)
    as (_ & H & _).
  split; [|assumption].
  vm_compute in R. injection R as <- _. reflexivity.
Qed.

Example scenario_second_pass :
  outcomes_of (second_pass Sample.scenario) = Some [].
Proof.
  unfold second_pass.
  destruct (reconcile Sample.scenario) as [[w' outs]|e] eqn:R;
    [|vm_compute in R; discriminate].
  assert (clean outs) as Hc.
  { vm_compute in R. injection R as <- <-. repeat constructor. }
  simpl.
  rewrite (clean_pass_idempotent Sample.scenario w' outs); try assumption.
  - reflexivity.
  - intros t [= <-]. reflexivity.
  - intros t [= <-]. reflexivity.
  - apply scenario_no_dir_over_file.
Qed.

(** ** The log sink *)

(** [update_log] never raises: it is a total function of the model. What
    it leaves in the log file depends on whether the file can be appended
    to. *)
Lemma update_log_content (cfg : config) (content : list string)
  (hour : string) (s : io) :
  fst (update_log cfg content hour s) = logged cfg content (io_log s).
Proof.
  unfold update_log, logged, open_w.
  destruct (log_file (io_log s)) eqn:Hf; simpl.
  - destruct (append_text _ _); reflexivity.
  - destruct (log_creatable (io_log s)); simpl;
      destruct (append_text _ _); reflexivity.
Qed.

(** A pass leaves the filesystem and collects the outcomes of [reconcile],
    whatever becomes of the log. *)
Lemma folder_synchronization_reconcile (cfg : config) (hour : string)
  (w : world) (s : io) :
  match folder_synchronization cfg hour w s, reconcile w with
  | Ok r, Ok st => r_world r = fst st /\ r_outcomes r = snd st
  | Raise e, Raise e' => e = e'
  | _, _ => False
  end.
Proof.
  unfold folder_synchronization.
  destruct (reconcile w) as [[w' ms]|e]; simpl; [|reflexivity].
  destruct (update_log _ _ _ _). simpl. auto.
Qed.




(** * More of the pass *)

(** ** What one turn of a loop does *)

Lemma shutil_copy2_src (w w' : world) (src : path) (p : list string) :
  shutil_copy2 w src (Destination, p) = Ok w' -> w_src w' = w_src w.
Proof.
  unfold shutil_copy2.
  set (tgt := if os_path_isdir w (Destination, p)
              then join (Destination, p) (basename src)
              else (Destination, p)).
  assert (fst tgt = Destination) as Hm
    by (unfold tgt; destruct (os_path_isdir w (Destination, p)); reflexivity).
  destruct tgt as [m tp]. simpl in Hm. subst m.
  destruct (path_eqb _ _ && _); [discriminate|].
  destruct (stat w src) as [[a data| |]|e]; simpl; try discriminate.
  destruct (entry_of w (Destination, tp)) as [[[|] [[fa' d'| |]|]]|e];
    simpl; try discriminate; intros [= <-];
    auto using overwrite_src, set_entry_of_src.
Qed.

Lemma os_makedirs_src (w w' : world) (p : list string) :
  os_makedirs w (Destination, p) = Ok w' -> w_src w' = w_src w.
Proof.
  unfold os_makedirs. simpl. intros M.
  now apply grows_makedirs_rev in M as [M _].
Qed.

(** A turn of the removal loop appends one outcome about its item: a
    change with the source as it was, or an error with the filesystem as it
    was. *)
Lemma remove_step_effect (w : world) (log : list outcome) (p : list string) :
  exists w' o,
    remove_step (w, log) (Destination, p) = (w', log ++ [o])
    /\ subject o = (Destination, p) /\ is_removal o = true
    /\ (is_change o = true /\ w_src w' = w_src w
        \/ is_change o = false /\ w' = w).
Proof.
  rewrite remove_step_removal_of.
  exists (fst (removal_of w (Destination, p))),
    (snd (removal_of w (Destination, p))).
  split; [reflexivity|]. split; [apply removal_of_subject|].
  pose proof (remove_step_src w log p) as Hs.
  rewrite remove_step_removal_of in Hs. simpl in Hs.
  destruct (removal_of_kind w (Destination, p)) as [H|[e H]]; rewrite H.
  - split; [reflexivity|]. left. auto.
  - split; [reflexivity|]. right. split; [reflexivity|].
    now apply (removal_of_failed _ _ e).
Qed.

(** A turn of the creation loop leaves state and outcomes alone, or appends
    one outcome about the destination path of its item: a change with the
    source as it was, or an error with the filesystem as it was. *)
Lemma create_step_effect (w w' : world) (log log' : list outcome) (s : path) :
  create_step (w, log) s = Ok (w', log') ->
  (w' = w /\ log' = log)
  \/ exists o,
       log' = log ++ [o]
       /\ subject o = dest_of s /\ is_creation o = true
       /\ (is_change o = true /\ w_src w' = w_src w
           \/ is_change o = false /\ w' = w).
Proof.
  unfold create_step. fold (dest_of s).
  destruct (same_file_check w s (dest_of s)) as [[|]|e]; simpl;
    try discriminate.
  - destruct (os_path_isdir w s).
    + destruct (os_makedirs w (dest_of s)) as [w1|e] eqn:M;
        intros [= <- <-]; right; eexists; repeat split; auto.
      left. split; [reflexivity|]. now apply (os_makedirs_src _ _ _ M).
    + destruct (shutil_copy2 w s (dest_of s)) as [w1|e] eqn:M;
        intros [= <- <-]; right; eexists; repeat split; auto.
      left. split; [reflexivity|]. now apply (shutil_copy2_src _ _ _ _ M).
  - intros [= <- <-]. auto.
Qed.

(** ** What the loops do *)

Lemma subseq_refl_nil {A : Type} (l : list A) : subseq [] l.
Proof. induction l; constructor; assumption. Qed.

Lemma removal_loop_effect (items : list path) :
  Forall (fun item => fst item = Destination) items ->
  forall st,
  exists rem,
    snd (fold_left remove_step items st) = snd st ++ rem
    /\ map subject rem = items
    /\ Forall (fun o => is_removal o = true) rem
    /\ w_src (fst (fold_left remove_step items st)) = w_src (fst st)
    /\ (Forall (fun o => is_change o = false) rem ->
        fst (fold_left remove_step items st) = fst st).
Proof.
  induction 1 as [|[m p] r Hm _ IH]; intros [w log].
  - exists []. simpl. rewrite app_nil_r. auto.
  - simpl in Hm. subst m. cbn [fold_left].
    destruct (remove_step_effect w log p) as (w1 & o & -> & Hsub & Hrm & Hch).
    destruct (IH (w1, log ++ [o])) as (rem & Hlog & Hmap & Hall & Hsrc & Hsame).
    exists (o :: rem). simpl in *. rewrite Hlog, <- app_assoc. simpl.
    repeat split; auto.
    + now rewrite Hsub, Hmap.
    + rewrite Hsrc. destruct Hch as [[_ H]|[_ ->]]; auto.
    + intros Hnc. inversion Hnc as [|? ? Ho Hnc']. subst.
      rewrite (Hsame Hnc'). destruct Hch as [[H _]|[_ ->]]; congruence.
Qed.

Lemma creation_loop_effect (items : list path) :
  forall st st',
    for_each create_step items st = Ok st' ->
    exists cre,
      snd st' = snd st ++ cre
      /\ subseq (map subject cre) (map dest_of items)
      /\ Forall (fun o => is_creation o = true) cre
      /\ w_src (fst st') = w_src (fst st)
      /\ (Forall (fun o => is_change o = false) cre -> fst st' = fst st).
Proof.
  induction items as [|s r IH]; intros [w log] st'; cbn [for_each].
  - intros [= <-]. exists []. simpl. rewrite app_nil_r.
    repeat split; auto. constructor.
  - destruct (create_step (w, log) s) as [[w1 log1]|e] eqn:C; cbn [bind];
      [|discriminate]. intros F.
    destruct (IH _ _ F) as (cre & Hlog & Hsub & Hall & Hsrc & Hsame).
    simpl in *.
    destruct (create_step_effect _ _ _ _ _ C)
      as [[-> ->]|(o & -> & Ho & Hcr & Hch)].
    + exists cre. repeat split; auto. now constructor.
    + exists (o :: cre). rewrite Hlog, <- app_assoc. simpl.
      repeat split; auto.
      * rewrite Ho. now constructor.
      * rewrite Hsrc. destruct Hch as [[_ H]|[_ ->]]; auto.
      * intros Hnc. inversion Hnc as [|? ? Ho' Hnc']. subst.
        rewrite (Hsame Hnc'). destruct Hch as [[H _]|[_ ->]]; congruence.
Qed.

Lemma items_to_remove_fresh (w w0 : world) :
  os_makedirs w destination_folder = Ok w0 -> items_to_remove w0 = [].
Proof.
  intros M. unfold os_makedirs in M. simpl in M.
  apply os_mkdir_ok in M as (_ & _ & L).
  unfold items_to_remove, walk_folder. unfold lookup_path in L. simpl in *.
  destruct (w_dst w0) as [t|]; [|reflexivity]. injection L as ->.
  reflexivity.
Qed.

(** The whole of a pass that returns: a fatal outcome alone with the
    filesystem as it was, or the folder made, the removals and the
    creations, in this order. *)
Lemma reconcile_effect (w w' : world) (outs : list outcome) :
  reconcile w = Ok (w', outs) ->
  (outs = [SourceMissing] /\ w' = w)
  \/ (exists e, outs = [CreateFolderFailed e] /\ w' = w)
  \/ exists w0 rem cre,
       (if os_path_exists w destination_folder then w0 = w
        else os_makedirs w destination_folder = Ok w0)
       /\ outs
          = (if os_path_exists w destination_folder then []
             else [CreatedFolder]) ++ rem ++ cre
       /\ map subject rem = items_to_remove w0
       /\ Forall (fun o => is_removal o = true) rem
       /\ Forall (fun o => is_creation o = true) cre
       /\ subseq (map subject cre)
            (map dest_of (loop_items Source (walk_folder true w Source)))
       /\ w_src w' = w_src w
       /\ (Forall (fun o => is_change o = false) (rem ++ cre) -> w' = w0).
Proof.
  unfold reconcile.
  destruct (os_path_exists w source_folder); simpl;
    [|intros [= <- <-]; auto].
  assert (forall w0 pre,
             w_src w0 = w_src w ->
             creation_phase (removal_phase (w0, pre)) = Ok (w', outs) ->
             exists rem cre,
               outs = pre ++ rem ++ cre
               /\ map subject rem = items_to_remove w0
               /\ Forall (fun o => is_removal o = true) rem
               /\ Forall (fun o => is_creation o = true) cre
               /\ subseq (map subject cre)
                    (map dest_of
                       (loop_items Source (walk_folder true w Source)))
               /\ w_src w' = w_src w
               /\ (Forall (fun o => is_change o = false) (rem ++ cre) ->
                   w' = w0)) as Phases.
  { intros w0 pre Hs0 C. unfold creation_phase, removal_phase in C.
    simpl in C.
    destruct (removal_loop_effect (items_to_remove w0)) with (st := (w0, pre))
      as (rem & Hlog & Hmap & Hrem & Hsrc & Hsame).
    { eapply Forall_impl; [|apply items_to_remove_absent]. simpl. tauto. }
    destruct (creation_loop_effect _ _ _ C)
      as (cre & Hlog' & Hsub & Hcre & Hsrc' & Hsame').
    simpl in *. exists rem, cre. rewrite Hlog', Hlog, <- app_assoc.
    repeat split; auto.
    - unfold walk_folder in *. simpl in *. now rewrite Hsrc, Hs0 in Hsub.
    - congruence.
    - intros Hnc. apply Forall_app in Hnc as [H1 H2].
      change w' with (fst (w', outs)). rewrite (Hsame' H2). auto. }
  destruct (os_path_exists w destination_folder); simpl.
  - intros C. right. right. destruct (Phases w [] eq_refl C) as (rem & cre & H).
    exists w, rem, cre. split; [reflexivity|]. exact H.
  - destruct (os_makedirs w destination_folder) as [w0|e] eqn:M; simpl.
    + intros C. right. right.
      destruct (Phases w0 [CreatedFolder] (os_makedirs_src _ _ _ M) C)
        as (rem & cre & H).
      exists w0, rem, cre. split; [reflexivity|]. exact H.
    + intros [= <- <-]. right. left. eauto.
Qed.

Lemma folder_synchronization_ok (cfg : config) (hour : string) (w : world)
  (s : io) (r : pass_result) :
  folder_synchronization cfg hour w s = Ok r ->
  reconcile w = Ok (r_world r, r_outcomes r).
Proof.
  unfold folder_synchronization.
  destruct (reconcile w) as [[w' ms]|e]; simpl; [|discriminate].
  destruct (update_log _ _ _ _). now intros [= <-].
Qed.

(** X1: the outcomes of a pass come in the order of its stages. A fatal
    outcome (source folder missing, destination folder not made) stands
    alone. Otherwise the list is: [CreatedFolder] when the destination
    folder was missing; then one removal outcome per slated item, in the
    order the items were slated; then the creation outcomes, each about the
    destination path of a source item, in the order of the source walk. *)
Theorem pass_outcomes_in_order (cfg : config) (hour : string) (w : world)
  (s : io) (r : pass_result) :
  folder_synchronization cfg hour w s = Ok r ->
  r_outcomes r = [SourceMissing]
  \/ (exists e, r_outcomes r = [CreateFolderFailed e])
  \/ exists rem cre,
       r_outcomes r
       = (if os_path_exists w destination_folder then [] else [CreatedFolder])
         ++ rem ++ cre
       /\ map subject rem
          = (if os_path_exists w destination_folder then items_to_remove w
             else [])
       /\ Forall (fun o => is_removal o = true) rem
       /\ Forall (fun o => is_creation o = true) cre
       /\ subseq (map subject cre)
            (map dest_of (loop_items Source (walk_folder true w Source))).
Proof.
  intros F. apply folder_synchronization_ok in F.
  destruct (reconcile_effect _ _ _ F)
    as [[-> _]|[(e & -> & _)|(w0 & rem & cre & Hw0 & -> & Hmap & Hrem
                              & Hcre & Hsub & _)]]; eauto.
  right. right. exists rem, cre. repeat split; auto.
  destruct (os_path_exists w destination_folder).
  - now subst w0.
  - now rewrite (items_to_remove_fresh w w0 Hw0) in Hmap.
Qed.


(** ** What a pass leaves alone *)

Lemma visible_prefix (w : world) (m : mount) (p P : list string) :
  prefix p P -> visible (lookup_path w (m, P)) = true ->
  visible (lookup_path w (m, p)) = true
  /\ (p <> P -> is_dir_opt (lookup_path w (m, p)) = true).
Proof.
  intros Hp V. destruct (lookup_path w (m, P)) as [c|] eqn:L; [|discriminate].
  destruct (lookup_path_prefix _ _ _ _ _ Hp L) as (d & Ld & Hd).
  destruct (list_eq_dec string_dec p P) as [->|Hne].
  - rewrite L. split; [assumption | congruence].
  - rewrite Ld. specialize (Hd Hne). destruct d; try discriminate. auto.
Qed.

(** The removal loop leaves in place whatever the source shows at the same
    relative path. *)
Lemma removal_loop_spares (w0 : world) (P : list string) (items : list path) :
  visible (lookup_path w0 (Source, P)) = true ->
  Forall (fun item => fst item = Destination
                      /\ os_path_exists w0 (Source, snd item) = false) items ->
  forall st,
    same_kind (lookup_path (fst st) (Destination, P))
      (lookup_path (fst (fold_left remove_step items st)) (Destination, P)).
Proof.
  intros V. induction 1 as [|[m p] r [Hm Hx] _ IH]; intros [w log].
  - apply same_kind_refl.
  - simpl in Hm, Hx. subst m. cbn [fold_left].
    eapply same_kind_trans; [|apply IH].
    rewrite remove_step_removal_of. simpl.
    assert (~ prefix p P) as Hp.
    { intros Hp. destruct (visible_prefix _ _ _ _ Hp V) as [V' _].
      rewrite exists_lookup in Hx. congruence. }
    unfold removal_of. entry_cases w (Destination, p); simpl;
      auto using same_kind_refl, set_entry_of_same_kind.
Qed.

(** X4: the removal phase never removes a destination item whose relative
    path is visible in the source: after the phase the item is of the kind
    it was, and a file or link is the very node it was. *)
Theorem removal_phase_spares_source_items (w : world) (log : list outcome)
  (P : list string) :
  os_path_exists w (Source, P) = true ->
  same_kind (lookup_path w (Destination, P))
    (lookup_path (fst (removal_phase (w, log))) (Destination, P)).
Proof.
  intros V. rewrite exists_lookup in V. unfold removal_phase.
  apply (removal_loop_spares w P (items_to_remove w) V
           (items_to_remove_absent w) (w, log)).
Qed.

Section Spared.

Variables (P : list string) (f : node).

Lemma spared_source_above (w : world) (p : list string) :
  spared P f w -> prefix p P -> p <> P -> os_path_isdir w (Source, p) = true.
Proof.
  intros (_ & _ & c & L & V & _) Hp Hne. rewrite isdir_lookup.
  rewrite <- L in V. now apply (visible_prefix _ _ _ _ Hp V).
Qed.

Lemma spared_source_visible (w : world) (p : list string) :
  spared P f w -> prefix p P -> os_path_exists w (Source, p) = true.
Proof.
  intros (_ & _ & c & L & V & _) Hp. rewrite exists_lookup.
  rewrite <- L in V. now apply (visible_prefix _ _ _ _ Hp V).
Qed.

Lemma spared_same_file_check (w : world) :
  spared P f w -> same_file_check w (Source, P) (Destination, P) = Ok false.
Proof.
  intros (Ld & (a & data & ->) & c & Ls & V & H).
  unfold same_file_check. rewrite exists_lookup, isdir_lookup, Ld, Ls.
  simpl. unfold os_path_getmtime, os_path_getsize, stat.
  unfold lookup_path in Ld, Ls. simpl in *.
  destruct (w_dst w) as [td|]; [|discriminate].
  destruct (w_src w) as [ts|]; [|discriminate]. rewrite Ld, Ls.
  destruct c as [a' data' | a' es |]; simpl in *; try discriminate;
    try reflexivity.
  destruct H as [H|[Hm Hs]]; [discriminate|].
  rewrite Hm, Hs, !Z.eqb_refl. reflexivity.
Qed.

Lemma spared_step (w w' : world) :
  w_src w' = w_src w ->
  lookup_path w' (Destination, P) = lookup_path w (Destination, P) ->
  spared P f w -> spared P f w'.
Proof.
  intros Hs Hd (Ld & Hf & c & Ls & H). split; [congruence|].
  split; [assumption|]. exists c. now rewrite (lookup_source w w' P Hs).
Qed.

Lemma spared_set_entry_of (w : world) (p : list string) (x : option node) :
  spared P f w -> ~ prefix p P ->
  spared P f (set_entry_of w (Destination, p) x).
Proof.
  intros H Hp. apply (spared_step w); [apply set_entry_of_src | | assumption].
  destruct H as (Ld & (a & data & ->) & _). rewrite Ld.
  now apply set_entry_of_keeps.
Qed.

Lemma spared_overwrite (w : world) (p : list string) (x : node) :
  spared P f w -> ~ prefix p P ->
  spared P f (overwrite w (Destination, p) x).
Proof.
  intros H Hp. apply (spared_step w); [apply overwrite_src | | assumption].
  destruct H as (Ld & (a & data & ->) & _). rewrite Ld.
  now apply overwrite_keeps.
Qed.

Lemma spared_remove_step (w : world) (log : list outcome) (p : list string) :
  spared P f w -> os_path_exists w (Source, p) = false ->
  spared P f (fst (remove_step (w, log) (Destination, p))).
Proof.
  intros H Hx. rewrite remove_step_removal_of. simpl.
  assert (~ prefix p P) as Hp.
  { intros Hp. rewrite (spared_source_visible w p H Hp) in Hx. discriminate. }
  unfold removal_of.
  entry_cases w (Destination, p); simpl; auto using spared_set_entry_of.
Qed.

Lemma spared_mkdir (w w' : world) (p : list string) :
  spared P f w -> os_mkdir w (Destination, p) = Ok w' -> spared P f w'.
Proof.
  intros H M. apply os_mkdir_ok in M as (E & -> & _).
  apply spared_set_entry_of; [assumption|]. intros Hp.
  destruct H as (Hd & _).
  destruct (lookup_path_prefix _ _ _ _ _ Hp Hd) as (d & L & _).
  rewrite (entry_of_lookup _ _ _ _ E) in L. discriminate.
Qed.

Lemma spared_makedirs_rev (rp : list string) :
  forall w w', spared P f w ->
    makedirs_rev w Destination rp = Ok w' -> spared P f w'.
Proof.
  induction rp as [|n rq IH]; intros w w' H; simpl.
  - now apply spared_mkdir.
  - destruct (os_path_exists w (Destination, rev rq)).
    + now apply spared_mkdir.
    + destruct (makedirs_rev w Destination rq) as [w1|[]] eqn:M;
        try discriminate; try (now apply spared_mkdir).
      apply spared_mkdir. now apply (IH w w1).
Qed.

Lemma spared_copy2 (w w' : world) (p : list string) :
  spared P f w -> p <> P -> os_path_isdir w (Source, p) = false ->
  shutil_copy2 w (Source, p) (Destination, p) = Ok w' -> spared P f w'.
Proof.
  intros H Hne Hs. unfold shutil_copy2.
  set (tgt := if os_path_isdir w (Destination, p)
              then join (Destination, p) (basename (Source, p))
              else (Destination, p)).
  assert (fst tgt = Destination /\ prefix p (snd tgt)) as [Hm Hp].
  { unfold tgt. destruct (os_path_isdir w (Destination, p)); simpl.
    - split; [reflexivity|]. now eexists.
    - split; [reflexivity | apply prefix_refl]. }
  assert (~ prefix (snd tgt) P) as Hn.
  { intros [r Hr]. destruct Hp as [r' Hp]. rewrite Hp, <- app_assoc in Hr.
    assert (prefix p P) as Hpp by now exists (r' ++ r).
    rewrite (spared_source_above w p H Hpp Hne) in Hs. discriminate. }
  destruct tgt as [m tp]. simpl in Hm, Hn. subst m.
  destruct (path_eqb _ _ && _); [discriminate|].
  destruct (stat w (Source, p)) as [[a data| |]|e]; simpl; try discriminate.
  destruct (entry_of w (Destination, tp)) as [[[|] [[fa' d'| |]|]]|e];
    simpl; try discriminate; intros [= <-];
    auto using spared_set_entry_of, spared_overwrite.
Qed.

Lemma spared_create_step (w w' : world) (log log' : list outcome)
  (p : list string) :
  spared P f w ->
  create_step (w, log) (Source, p) = Ok (w', log') ->
  spared P f w'
  /\ (log' = log
      \/ exists o, log' = log ++ [o]
                   /\ subject o = (Destination, p) /\ p <> P).
Proof.
  intros H. unfold create_step.
  change (join_rel destination_folder (relpath (Source, p)))
    with (Destination, p).
  destruct (same_file_check w (Source, p) (Destination, p)) as [[|]|e] eqn:C;
    simpl; try discriminate.
  - assert (p <> P) as Hne.
    { intros ->. rewrite (spared_same_file_check w H) in C. discriminate. }
    destruct (os_path_isdir w (Source, p)) eqn:Hd.
    + destruct (os_makedirs w (Destination, p)) as [w1|e] eqn:M;
        intros [= <- <-]; (split; [|right; eexists; repeat split; assumption]).
      * unfold os_makedirs in M. now apply (spared_makedirs_rev _ _ _ H M).
      * assumption.
    + destruct (shutil_copy2 w (Source, p) (Destination, p)) as [w1|e] eqn:M;
        intros [= <- <-]; (split; [|right; eexists; repeat split; assumption]).
      * now apply (spared_copy2 _ _ _ H Hne Hd M).
      * assumption.
  - intros [= <- <-]. auto.
Qed.

Lemma spared_removal_loop (w0 : world) (items : list path) :
  Forall (fun item => fst item = Destination
                      /\ os_path_exists w0 (Source, snd item) = false) items ->
  forall st, w_src (fst st) = w_src w0 -> spared P f (fst st) ->
             spared P f (fst (fold_left remove_step items st)).
Proof.
  induction 1 as [|[m p] r [Hm Hx] Hr IH]; intros [w log] Hs H; simpl in *.
  - assumption.
  - subst m. fold (remove_step (w, log) (Destination, p)). apply IH.
    + now rewrite remove_step_src.
    + apply spared_remove_step; [assumption|].
      now rewrite (exists_source w0 w p Hs).
Qed.

Lemma spared_creation_loop (items : list path) :
  Forall (fun s => fst s = Source) items ->
  forall st st',
    spared P f (fst st) ->
    Forall (fun o => subject o <> (Destination, P)) (snd st) ->
    for_each create_step items st = Ok st' ->
    spared P f (fst st')
    /\ Forall (fun o => subject o <> (Destination, P)) (snd st').
Proof.
  induction 1 as [|[m p] r Hm Hr IH]; intros [w log] st' H Hlog.
  - simpl. intros [= <-]. auto.
  - simpl in Hm, H, Hlog. subst m. cbn [for_each].
    destruct (create_step (w, log) (Source, p)) as [[w1 log1]|e] eqn:C;
      cbn [bind]; [|discriminate].
    destruct (spared_create_step _ _ _ _ _ H C) as [H1 Hl].
    apply IH; [assumption|]. simpl.
    destruct Hl as [->|(o & -> & Ho & Hp)]; [assumption|].
    apply Forall_app. split; [assumption|]. constructor; [|constructor].
    rewrite Ho. congruence.
Qed.

End Spared.

Lemma same_file_check_false_spared (w : world) (P : list string)
  (a : fattr) (data : string) :
  lookup_path w (Destination, P) = Some (File a data) ->
  same_file_check w (Source, P) (Destination, P) = Ok false ->
  spared P (File a data) w.
Proof.
  intros Ld C. split; [assumption|]. split; [eauto|].
  unfold same_file_check in C. rewrite exists_lookup, isdir_lookup, Ld in C.
  simpl in C. unfold os_path_getmtime, os_path_getsize, stat in C.
  unfold lookup_path in *. simpl in *.
  destruct (w_dst w) as [td|]; [|discriminate]. rewrite Ld in C. simpl in C.
  destruct (w_src w) as [ts|]; [|discriminate].
  destruct (lookup ts P) as [[a' data' | a' es |]|]; simpl in C;
    try discriminate.
  - exists (File a' data'). split; [reflexivity|]. split; [reflexivity|].
    right. simpl.
    destruct (f_mtime a =? f_mtime a') eqn:Em; simpl in C; [|discriminate].
    injection C as C. apply negb_false_iff in C.
    apply Z.eqb_eq in Em, C. auto.
  - exists (Dir a' es). auto.
Qed.

(** X5: a regular file of the destination for which the check finds no
    write needed (the source holds a directory at its relative path, or
    something with its modification time and size) is left alone by a pass
    that returns: it is the same node afterwards, content included and
    whatever the content of the source, and no outcome is about its path. *)
Theorem settled_file_left_alone (w w' : world) (outs : list outcome)
  (P : list string) (a : fattr) (data : string) :
  lookup_path w (Destination, P) = Some (File a data) ->
  same_file_check w (Source, P) (Destination, P) = Ok false ->
  reconcile w = Ok (w', outs) ->
  lookup_path w' (Destination, P) = Some (File a data)
  /\ Forall (fun o => subject o <> (Destination, P)) outs.
Proof.
  intros Ld C. pose proof (same_file_check_false_spared _ _ _ _ Ld C) as H.
  assert (spared P (File a data) (fst (removal_phase (w, [])))) as Hrem.
  { unfold removal_phase. apply (spared_removal_loop P _ w);
      [apply items_to_remove_absent | reflexivity | assumption]. }
  unfold reconcile.
  assert (os_path_exists w source_folder = true) as ->
    by (apply (spared_source_visible P _ w [] H); now exists P).
  assert (os_path_exists w destination_folder = true) as ->.
  { unfold destination_folder. rewrite exists_lookup.
    assert (visible (lookup_path w (Destination, P)) = true) as V
      by now rewrite Ld.
    apply (visible_prefix w Destination [] P); [now exists P | assumption]. }
  simpl. unfold creation_phase. intros F.
  assert (Forall (fun o => subject o <> (Destination, P))
            (snd (removal_phase (w, [])))) as Hlog0.
  { apply Forall_forall. intros o Ho Hsub.
    assert (In (subject o) (map subject (snd (removal_phase (w, []))))) as Hin
      by now apply in_map.
    unfold removal_phase in Hin. rewrite fold_remove_step_subjects in Hin.
    simpl in Hin. rewrite Hsub in Hin.
    pose proof (proj1 (Forall_forall _ _) (items_to_remove_absent w) _ Hin)
      as [_ Hx]. simpl in Hx.
    rewrite (spared_source_visible P _ w P H (prefix_refl P)) in Hx.
    discriminate. }
  destruct (spared_creation_loop P _ _
              (loop_items_mount Source true (fst (removal_phase (w, []))))
              _ _ Hrem Hlog0 F) as [(Hd & _) Hlog].
  split; assumption.
Qed.

(** ** More of the log sink *)

(** All the cases of a call: the log file there or not, creatable or not,
    appendable or not, outcomes or none. *)
Ltac log_cases s content :=
  destruct s as [[[?old|] [|] [|]] ?con]; destruct content as [|?x ?content];
  unfold update_log, open_w, append_text;
  cbn -[String.append String.concat log_header no_changes nl exn_str].

(** X7: whatever becomes of the log file, [update_log] prints the header
    of the pass and, after it, the outcome lines (or the line "no changes")
    it works with; what it prints before and after are its own error
    reports, at most one each. *)
Theorem update_log_echo (cfg : config) (content : list string)
  (hour : string) (s : io) :
  exists before after,
    io_console (snd (update_log cfg content hour s))
    = io_console s ++ before
      ++ [log_header hour; shown (fst (update_log cfg content hour s))]
      ++ after
    /\ (List.length before <= 1)%nat /\ (List.length after <= 1)%nat
    /\ (log_file (io_log s) <> None \/ log_creatable (io_log s) = true ->
        before = [])
    /\ (log_appendable (io_log s) = true ->
        log_file (io_log s) <> None \/ log_creatable (io_log s) = true ->
        after = []).
Proof.
  exists (match log_file (io_log s) with
          | Some _ => []
          | None =>
              if log_creatable (io_log s) then []
              else [("Error: Log at " ++ log_path cfg
                     ++ " didn't exist and failed to create it due to "
                     ++ exn_str PermissionError ++ ".")%string]
          end),
    (if log_appendable (io_log s)
        && (match log_file (io_log s) with Some _ => true | None => false end
            || log_creatable (io_log s))
     then []
     else [("Error: Failed to open " ++ log_path cfg
            ++ " for writing due to " ++ exn_str PermissionError
            ++ ".")%string]).
  log_cases s content; rewrite <- ?app_assoc; simpl;
    repeat split; auto; try congruence; try discriminate;
    intros; try discriminate; intuition congruence.
Qed.


(** ** When a pass returns *)

Lemma same_file_check_total (w : world) (s d : path) (c : node) :
  stat w s = Ok c -> exists b, same_file_check w s d = Ok b.
Proof.
  intros S. unfold same_file_check, os_path_exists, os_path_isdir,
    os_path_getmtime, os_path_getsize. rewrite S.
  destruct (stat w d) as [cd|e]; simpl; [|eauto].
  destruct (is_dir c); simpl; [eauto|].
  destruct (st_mtime cd =? st_mtime c); simpl; eauto.
Qed.

Lemma create_step_total (w : world) (log : list outcome) (s : path)
  (c : node) :
  stat w s = Ok c -> exists st', create_step (w, log) s = Ok st'.
Proof.
  intros S. unfold create_step.
  destruct (same_file_check_total w s
              (join_rel destination_folder (relpath s)) c S) as [b ->].
  simpl. destruct b; [|eauto].
  destruct (os_path_isdir w s).
  - destruct (os_makedirs _ _); eauto.
  - destruct (shutil_copy2 _ _ _); eauto.
Qed.

Lemma stat_source (w w' : world) (p : list string) :
  w_src w' = w_src w -> stat w' (Source, p) = stat w (Source, p).
Proof. unfold stat. simpl. now intros ->. Qed.

Lemma creation_loop_total (w0 : world) (items : list path) :
  (forall s, In s items -> exists c, stat w0 s = Ok c /\ fst s = Source) ->
  forall st, w_src (fst st) = w_src w0 ->
             exists st', for_each create_step items st = Ok st'.
Proof.
  induction items as [|[m p] r IH]; intros Hs [w log] Hw; cbn [for_each].
  - eauto.
  - destruct (Hs (m, p)) as (c & S & Hm); [now left|]. simpl in Hm, Hw.
    subst m. rewrite <- (stat_source w0 w p Hw) in S.
    destruct (create_step_total w log _ c S) as [[w1 log1] C]. rewrite C.
    cbn [bind]. apply IH.
    + intros s Hin. apply Hs. now right.
    + simpl. destruct (create_step_effect _ _ _ _ _ C)
        as [[-> _]|(o & _ & _ & _ & [[_ H]|[_ ->]])]; congruence.
Qed.

Lemma reconcile_returns (w : world) :
  (forall x, In x (loop_items Source (walk_folder true w Source)) ->
             exists c, stat w x = Ok c) ->
  exists st, reconcile w = Ok st.
Proof.
  intros Hr. unfold reconcile.
  destruct (os_path_exists w source_folder); simpl; [|eauto].
  assert (forall st, w_src (fst st) = w_src w ->
                     exists st', creation_phase (removal_phase st) = Ok st')
    as Phases.
  { intros st Hst. unfold creation_phase.
    assert (w_src (fst (removal_phase st)) = w_src w) as Hs1.
    { unfold removal_phase.
      destruct (removal_loop_effect (items_to_remove (fst st)))
        with (st := st) as (_ & _ & _ & _ & H & _).
      - eapply Forall_impl; [|apply items_to_remove_absent]. simpl. tauto.
      - congruence. }
    apply (creation_loop_total w); [|assumption].
    intros x Hin. unfold walk_folder in Hin. simpl in Hin.
    rewrite Hs1 in Hin.
    assert (In x (loop_items Source (walk_folder true w Source))) as Hin'
        by exact Hin.
    destruct (Hr x Hin') as [c S]. exists c. split; [assumption|].
    apply (proj1 (Forall_forall _ _) (loop_items_mount Source true w) x Hin'). }
  destruct (os_path_exists w destination_folder); simpl.
  - now apply Phases.
  - destruct (os_makedirs w destination_folder) as [w0|e] eqn:M; simpl;
      [|eauto]. apply Phases. simpl. now apply (os_makedirs_src _ _ _ M).
Qed.


(** ** The walk meets no item twice *)

Lemma In_names_fst (n : string) (es : entries_t) :
  In n (dirnames es ++ filenames es) -> In n (map fst es).
Proof.
  intros H. apply In_names_entry in H as [c H].
  apply in_map_iff. now exists (n, c).
Qed.

Lemma names_NoDup (es : entries_t) :
  NoDup (map fst es) -> NoDup (dirnames es ++ filenames es).
Proof.
  induction es as [|[n c] r IH]; simpl; [constructor|].
  intros H. inversion H as [|? ? Hn Hr]. subst.
  assert (NoDup (n :: dirnames r ++ filenames r)) as Hc.
  { constructor; [|auto]. intros Hin. apply Hn. now apply In_names_fst. }
  destruct (is_dir c); [exact Hc|].
  apply (Permutation_NoDup (Permutation_middle _ _ _) Hc).
Qed.

Lemma here_items_NoDup (folder : mount) (top : list string) (es : entries_t) :
  NoDup (map fst es) -> NoDup (here_items folder top es).
Proof.
  intros H. apply names_NoDup in H. unfold here_items.
  induction H as [|n l Hn Hl IH]; simpl; constructor; [|assumption].
  intros Hin. apply in_map_iff in Hin as (k & E & Hk).
  unfold join in E. simpl in E. injection E as E.
  apply app_inv_head in E. injection E as ->. contradiction.
Qed.

Lemma os_walk_NoDup (folder : mount) (topdown : bool) (t : node) :
  forall top, well_formed t ->
              NoDup (loop_items folder (os_walk topdown top t)).
Proof.
  induction t as [a data | a es IH |] using node_induction; intros top Hwf;
    try constructor.
  apply well_formed_dir in Hwf as [Hnd Hwf].
  assert (NoDup (loop_items folder (walk_entries topdown top es))) as Hsub.
  { clear a. induction es as [|[m d] r IHr]; [constructor|].
    simpl. rewrite loop_items_app.
    inversion IH as [|? ? Hd Hr]. inversion Hwf as [|? ? Wd Wr].
    inversion Hnd as [|? ? Hm Hnd']. subst.
    apply NoDup_app; [| now apply IHr |].
    - destruct (is_dir d); [now apply Hd | constructor].
    - intros x Hx Hy. destruct (is_dir d); [|contradiction].
      apply In_loop_items_below in Hx as (_ & n & s & Hs).
      apply In_walk_entries_below in Hy as (_ & n' & k & s' & Hn' & Hs').
      rewrite Hs, <- app_assoc in Hs'. apply app_inv_head in Hs'.
      simpl in Hs'. injection Hs' as -> _. contradiction. }
  rewrite loop_items_os_walk_dir.
  assert (forall x, In x (here_items folder top es) ->
                    ~ In x (loop_items folder (walk_entries topdown top es)))
    as Hcross.
  { intros x Hx Hy. apply In_here_items in Hx as (n & -> & _).
    apply In_walk_entries_below in Hy as (_ & n' & k & s' & _ & Hs').
    simpl in Hs'. apply app_inv_head in Hs'. discriminate. }
  destruct topdown; apply NoDup_app; auto using here_items_NoDup.
  intros x Hx Hy. now apply (Hcross x).
Qed.

Lemma ForallOrdPairs_split {A : Type} (R : A -> A -> Prop)
  (l1 l2 : list A) (x : A) :
  ForallOrdPairs R (l1 ++ x :: l2) ->
  (forall y, In y l1 -> R y x) /\ (forall y, In y l2 -> R x y).
Proof.
  induction l1 as [|a l1 IH]; simpl; intros H.
  - inversion H as [|? ? Hx _]. subst. split; [contradiction|].
    now apply Forall_forall.
  - inversion H as [|? ? Ha Hl]. subst. destruct (IH Hl) as [H1 H2].
    split; [|assumption]. intros y [<-|Hy]; [|auto].
    apply (proj1 (Forall_forall _ _) Ha). apply in_or_app. right. now left.
Qed.

(** An existing path that is not a folder is an entry of an existing
    directory. *)
Lemma lookup_entry_of (w : world) (m : mount) (p : list string) (c : node) :
  lookup_path w (m, p) = Some c -> p <> [] ->
  exists q n a es,
    p = q ++ [n]
    /\ lookup_path w (m, q) = Some (Dir a es)
    /\ find_entry n es = Some c
    /\ entry_of w (m, p) = Ok (d_writable a, Some c).
Proof.
  intros L Hp. destruct (split_last p) as [[q n]|] eqn:S.
  - pose proof (split_last_some _ _ _ S) as ->. exists q, n.
    unfold lookup_path, entry_of in *. simpl in *. rewrite S.
    destruct (root_of w m) as [t|]; [|discriminate].
    destruct (lookup_above_dir _ _ _ _ L) as (a & es & Lq); [discriminate|].
    rewrite lookup_app, Lq in L. simpl in L.
    destruct (find_entry n es) as [d|] eqn:E; [|discriminate].
    injection L as ->. exists a, es. rewrite Lq, E. auto.
  - apply split_last_none in S. contradiction.
Qed.

(** ** What is gone stays gone *)

Lemma same_kind_none_r (x : option node) : same_kind x None -> x = None.
Proof. destruct x as [[| |]|]; simpl; intros H; auto; contradiction. Qed.

Lemma same_kind_none_l (y : option node) : same_kind None y -> y = None.
Proof. destruct y as [[| |]|]; simpl; intros H; auto; contradiction. Qed.

Lemma shrinks_gone (w w' : world) (P : list string) :
  shrinks w w' -> lookup_path w (Destination, P) = None ->
  lookup_path w' (Destination, P) = None.
Proof.
  intros [_ H] L. destruct (H P) as [[_ N]|K]; [assumption|].
  rewrite L in K. now apply same_kind_none_l.
Qed.

Lemma shrinks_was_there (w w' : world) (P : list string) (c : node) :
  shrinks w w' -> lookup_path w' (Destination, P) = Some c ->
  lookup_path w (Destination, P) <> None.
Proof.
  intros S L N. rewrite (shrinks_gone _ _ _ S N) in L. discriminate.
Qed.

(** ** A pass over a replica *)

Lemma replica_settled (w : world) (P : list string) :
  replica w -> settled w P.
Proof.
  intros Rep. specialize (Rep P). unfold settled.
  destruct (lookup_path w (Source, P)) as [[a data|a es|]|]; auto.
  destruct (lookup_path w (Destination, P)) as [[| |]|]; auto.
Qed.

Lemma replica_within (w : world) (P : list string) (c : node) :
  replica w -> lookup_path w (Destination, P) = Some c ->
  visible (lookup_path w (Source, P)) = true.
Proof.
  intros Rep Ld. specialize (Rep P).
  destruct (lookup_path w (Source, P)) as [[a data|a es|]|];
    [reflexivity|reflexivity|contradiction|congruence].
Qed.

(** X12: lines 101-152 of a pass over a destination that is a replica of
    the source make no change and record no outcome. *)
Theorem replica_pass_idle (w : world) :
  well_formed_at w Source -> well_formed_at w Destination ->
  visible (lookup_path w source_folder) = true ->
  replica w -> reconcile w = Ok (w, []).
Proof.
  intros Ws Wd Vs Rep. unfold reconcile. rewrite !exists_lookup, Vs.
  assert (visible (lookup_path w destination_folder) = true) as Vd.
  { pose proof (Rep []) as R0. unfold source_folder, destination_folder in *.
    destruct (lookup_path w (Source, [])) as [[a data|a es|]|];
      try discriminate.
    - destruct R0 as (a' & data' & -> & _). reflexivity.
    - destruct (lookup_path w (Destination, [])) as [[| |]|]; auto. }
  rewrite Vd. cbn [negb fst snd].
  assert (items_to_remove w = []) as Hrm.
  { unfold items_to_remove. apply filter_none. intros [m P] Hin.
    unfold walk_folder in Hin. simpl in Hin.
    destruct (w_dst w) as [td|] eqn:D; [|contradiction].
    pose proof (In_loop_items_below _ _ _ _ _ Hin) as [Hm _].
    apply In_loop_items_lookup in Hin as (r & c & Hr & Hne & L);
      [|now apply Wd]. simpl in *. subst m P.
    apply negb_false_iff. rewrite exists_lookup.
    apply (replica_within w r c Rep). unfold lookup_path. simpl. now rewrite D. }
  unfold removal_phase. cbn [fst]. rewrite Hrm. cbn [fold_left].
  unfold creation_phase. cbn [fst]. apply for_each_unchanged.
  intros [m P] Hin. unfold walk_folder in Hin. simpl in Hin.
  destruct (w_src w) as [ts|] eqn:S; [|contradiction].
  pose proof (In_loop_items_below _ _ _ _ _ Hin) as [Hm _].
  apply In_loop_items_lookup in Hin as (r & c & Hr & Hne & L);
    [|now apply Ws]. simpl in Hr, Hm. subst m P.
  unfold create_step.
  change (join_rel destination_folder (relpath (Source, r)))
    with (Destination, r).
  rewrite (settled_same_file_check w r c); [reflexivity| |].
  - unfold lookup_path. simpl. now rewrite S.
  - now apply replica_settled.
Qed.

(** ** The messages *)

Lemma prefix_empty (s : string) : String.prefix EmptyString s = true.
Proof. destruct s; reflexivity. Qed.

(** X16: the message of an outcome starts with "Error: " when the outcome
    is a failure and with "Info: " when it is not. *)
Theorem render_tags (cfg : config) (o : outcome) :
  String.prefix "Error: " (render cfg o) = is_error o
  /\ String.prefix "Info: " (render cfg o) = negb (is_error o).
Proof.
  destruct o; split; cbn; try reflexivity; try apply prefix_empty;
    destruct (String.append _ _); reflexivity.
Qed.

(** ** The properties at concrete inputs *)

Ltac name_cases n :=
  repeat match goal with
    | H : context [String.eqb n ?s] |- _ =>
        lazymatch type of H with
        | String.eqb n s = false => fail
        | _ =>
            let E := fresh "E" in
            destruct (String.eqb n s) eqn:E;
            [apply String.eqb_eq in E; subst n; simpl in *|]
        end
    | |- context [String.eqb n ?s] =>
        let E := fresh "E" in
        destruct (String.eqb n s) eqn:E;
        [apply String.eqb_eq in E; subst n; simpl in *|]
    end.

Lemma synced_replica : replica Run.synced.
Proof.
  intros P. unfold lookup_path. simpl.
  destruct P as [|n P]; simpl; [reflexivity|].
  name_cases n.
  - destruct P; simpl; [|reflexivity]. eexists _, _. eauto.
  - destruct P; simpl; reflexivity.
  - reflexivity.
Qed.

Lemma pass_outcomes_in_order_witness :
  r_outcomes (Run.pass_of Sample.scenario Sample.no_log) = [SourceMissing]
  \/ (exists e, r_outcomes (Run.pass_of Sample.scenario Sample.no_log)
                = [CreateFolderFailed e])
  \/ exists rem cre,
       r_outcomes (Run.pass_of Sample.scenario Sample.no_log)
       = (if os_path_exists Sample.scenario destination_folder then []
          else [CreatedFolder]) ++ rem ++ cre
       /\ map subject rem
          = (if os_path_exists Sample.scenario destination_folder
             then items_to_remove Sample.scenario else [])
       /\ Forall (fun o => is_removal o = true) rem
       /\ Forall (fun o => is_creation o = true) cre
       /\ subseq (map subject cre)
            (map dest_of
               (loop_items Source (walk_folder true Sample.scenario Source))).
Proof.
  apply (pass_outcomes_in_order Sample.cfg Sample.hour Sample.scenario
           Sample.no_log).
  vm_compute. reflexivity.
Defined.

Lemma removal_phase_spares_source_items_witness :
  same_kind (lookup_path Sample.scenario (Destination, ["sub"]))
    (lookup_path (fst (removal_phase (Sample.scenario, [])))
       (Destination, ["sub"])).
Proof.
  apply (removal_phase_spares_source_items Sample.scenario [] ["sub"]).
  reflexivity.
Defined.

Lemma settled_file_left_alone_witness :
  lookup_path (fst (Run.after Run.stale)) (Destination, ["a.txt"])
  = Some (File (Sample.fa 7) "9876543210")
  /\ Forall (fun o => subject o <> (Destination, ["a.txt"]))
       (snd (Run.after Run.stale)).
Proof.
  apply (settled_file_left_alone Run.stale (fst (Run.after Run.stale))
           (snd (Run.after Run.stale)) ["a.txt"] (Sample.fa 7) "9876543210").
  - reflexivity.
  - reflexivity.
  - vm_compute. reflexivity.
Defined.


Lemma replica_pass_idle_witness : reconcile Run.synced = Ok (Run.synced, []).
Proof.
  apply (replica_pass_idle Run.synced).
  - intros t [= <-]. reflexivity.
  - intros t [= <-]. reflexivity.
  - reflexivity.
  - exact synced_replica.
Defined.

(** ** What a reported copy leaves *)

Lemma removal_of_shrinks (w : world) (p : list string) :
  p <> [] -> shrinks w (fst (removal_of w (Destination, p))).
Proof.
  intros Hp. destruct (removal_of_kind w (Destination, p)) as [O|[e O]].
  - destruct (removal_of_removed _ _ O) as [_ (c & E & _)].
    assert (fst (removal_of w (Destination, p))
            = set_entry_of w (Destination, p) None) as ->.
    { unfold removal_of in *. rewrite E in *.
      destruct c as [| ? [|? ?] |]; simpl in *; try reflexivity.
      discriminate. }
    apply (shrinks_remove w p true (Some c) Hp E).
  - rewrite (removal_of_failed _ _ _ O). apply shrinks_refl.
Qed.

Lemma removal_loop_shrinks (items : list path) :
  Forall (fun item => fst item = Destination /\ snd item <> []) items ->
  forall st, shrinks (fst st) (fst (fold_left remove_step items st)).
Proof.
  induction 1 as [|[m p] items [Hm Hp] _ IH]; intros [w log];
    cbn [fold_left fst].
  - apply shrinks_refl.
  - simpl in Hm, Hp. subst m. rewrite remove_step_removal_of.
    eapply shrinks_trans; [apply (removal_of_shrinks w p Hp)|].
    apply (IH (fst (removal_of w (Destination, p)), _)).
Qed.

Lemma shrinks_no_dir_over_file (w w' : world) :
  shrinks w w' -> no_dir_over_file w -> no_dir_over_file w'.
Proof.
  intros [Hs Hk] Hn P a data HP L. rewrite (lookup_source w _ P Hs) in L.
  destruct (Hk P) as [[_ ->]|K]; [reflexivity|].
  rewrite <- (same_kind_is_dir _ _ K). now apply (Hn P a data).
Qed.

(** What a turn of the creation loop does to the regular files of the
    destination: those at other paths stay, and a copy reported leaves the
    file of the source at the path of the item. *)
Lemma create_step_files (w w1 : world) (log log1 : list outcome)
  (p : list string) :
  p <> [] -> no_dir_over_file w ->
  create_step (w, log) (Source, p) = Ok (w1, log1) ->
  w_src w1 = w_src w
  /\ no_dir_over_file w1
  /\ (forall P a data,
        P <> p -> lookup_path w (Destination, P) = Some (File a data) ->
        lookup_path w1 (Destination, P) = Some (File a data))
  /\ ((exists l1, log1 = log ++ l1 /\ Forall (fun o => is_copy o = false) l1)
      \/ (log1 = log ++ [Copied (Source, p) (Destination, p)]
          /\ exists a data,
               lookup_path w (Source, p) = Some (File a data)
               /\ lookup_path w1 (Destination, p) = Some (File a data))).
Proof.
  intros Hp Hn. unfold create_step.
  change (join_rel destination_folder (relpath (Source, p)))
    with (Destination, p).
  destruct (same_file_check w (Source, p) (Destination, p)) as [[|]|e];
    cbn [bind]; try discriminate.
  2:{ intros [= <- <-]. repeat (split; [auto|]). left. exists [].
      rewrite app_nil_r. split; [reflexivity|constructor]. }
  destruct (os_path_isdir w (Source, p)) eqn:Is.
  - destruct (os_makedirs w (Destination, p)) as [w'|e] eqn:M;
      intros [= <- <-].
    + assert (grows p w w') as G.
      { unfold os_makedirs in M. simpl in M.
        apply grows_makedirs_rev in M. now rewrite rev_involutive in M. }
      rewrite isdir_lookup in Is.
      destruct (in_step_grows w w' p Is G) as (Hs & _ & Hn' & _).
      split; [assumption|]. split; [auto|]. split.
      * intros P a data _ L. destruct G as [_ G].
        destruct (G P) as [K|[N _]]; [|congruence].
        now apply (same_kind_file _ _ a data K).
      * left. exists [Created (Destination, p)].
        split; [reflexivity|repeat constructor].
    + repeat (split; [auto|]). left. eexists. split; [reflexivity|].
      repeat constructor.
  - destruct (shutil_copy2 w (Source, p) (Destination, p)) as [w'|e] eqn:C;
      intros [= <- <-].
    + destruct (shutil_copy2_ok _ _ _ _ C) as (a & data & St & _).
      apply stat_lookup in St.
      pose proof (Hn p a data Hp St) as Id.
      destruct (writes_copy2 w w' p Id C) as (a' & data' & Ls & W).
      destruct (in_step_writes w w' p a' data' Hp Ls W)
        as [(Hs & _ & Hn' & _) _].
      split; [assumption|]. split; [auto|]. split.
      * intros P b d HP L. destruct W as (_ & _ & W).
        now apply (same_kind_file _ _ b d (W P HP)).
      * right. split; [reflexivity|]. exists a', data'.
        split; [assumption|]. now destruct W as (_ & W & _).
    + repeat (split; [auto|]). left. eexists. split; [reflexivity|].
      repeat constructor.
Qed.

Lemma creation_loop_copies (w0 : world) (items : list path) :
  NoDup items ->
  Forall (fun s => fst s = Source /\ snd s <> []) items ->
  forall st st',
    w_src (fst st) = w_src w0 -> no_dir_over_file (fst st) ->
    for_each create_step items st = Ok st' ->
    w_src (fst st') = w_src w0
    /\ (forall P a data,
          (forall x, In x items -> snd x <> P) ->
          lookup_path (fst st) (Destination, P) = Some (File a data) ->
          lookup_path (fst st') (Destination, P) = Some (File a data))
    /\ exists l,
         snd st' = snd st ++ l
         /\ forall o, In o l -> is_copy o = true ->
                      exists p a data,
                        o = Copied (Source, p) (Destination, p)
                        /\ In (Source, p) items
                        /\ lookup_path w0 (Source, p) = Some (File a data)
                        /\ lookup_path (fst st') (Destination, p)
                           = Some (File a data).
Proof.
  induction 1 as [|[m p] items Hx Hnd IH]; intros Hf [w log] st' Hs Hn F;
    cbn [for_each fst snd] in *.
  - injection F as <-. cbn [fst snd]. split; [assumption|]. split; [auto|].
    exists []. rewrite app_nil_r. split; [reflexivity|]. intros o [].
  - inversion Hf as [|? ? [Hm Hp] Hf']. subst. simpl in Hm, Hp. subst m.
    destruct (create_step (w, log) (Source, p)) as [[w1 log1]|e] eqn:C;
      cbn [bind] in F; [|discriminate].
    destruct (create_step_files w w1 log log1 p Hp Hn C)
      as (Hs1 & Hn1 & Hframe & Hlog).
    destruct (IH Hf' (w1, log1) st') as (Hs' & Hkeep & l & Hl & Hcopies);
      cbn [fst snd]; try congruence; try assumption.
    cbn [fst snd] in *.
    split; [assumption|]. split.
    { intros P a data Hout L. apply Hkeep.
      - intros x Hin. apply Hout. now right.
      - apply Hframe; [|assumption]. intros ->.
        apply (Hout (Source, p)); [now left|reflexivity]. }
    assert (forall x, In x items -> snd x <> p) as Hfresh.
    { intros [m q] Hin Hq. simpl in Hq. subst q.
      destruct (proj1 (Forall_forall _ _) Hf' _ Hin) as [Hm _].
      simpl in Hm. subst m. contradiction. }
    destruct Hlog as [(l1 & -> & Hl1)|(-> & a & data & Ls & Ld)].
    + exists (l1 ++ l). rewrite Hl, app_assoc. split; [reflexivity|].
      intros o Ho Hc. apply in_app_or in Ho as [Ho|Ho].
      * rewrite (proj1 (Forall_forall _ _) Hl1 o Ho) in Hc. discriminate.
      * destruct (Hcopies o Ho Hc) as (q & a & data & -> & Hin & H1 & H2).
        exists q, a, data. repeat split; auto. now right.
    + exists ([Copied (Source, p) (Destination, p)] ++ l).
      rewrite Hl, app_assoc. split; [reflexivity|].
      intros o Ho Hc. apply in_app_or in Ho as [[<-|[]]|Ho].
      * exists p, a, data. split; [reflexivity|]. split; [now left|].
        split; [now rewrite <- (lookup_source _ _ p Hs)|].
        now apply Hkeep.
      * destruct (Hcopies o Ho Hc) as (q & b & d & -> & Hin & H1 & H2).
        exists q, b, d. repeat split; auto. now right.
Qed.

(** X19: where the destination holds no directory at the relative path of
    a regular file of the source, a copy that a pass reports is a copy: at
    the end of the pass the destination path named holds the regular file
    of the source item, content, modification time and mode. *)
Theorem copy_is_faithful (w w' : world) (outs : list outcome) (s d : path) :
  well_formed_at w Source -> no_dir_over_file w ->
  reconcile w = Ok (w', outs) -> In (Copied s d) outs ->
  d = dest_of s
  /\ exists a data,
       lookup_path w s = Some (File a data)
       /\ lookup_path w' d = Some (File a data).
Proof.
  intros Ws Hn R Hin.
  assert (forall w0 pre,
             w_src w0 = w_src w -> no_dir_over_file w0 ->
             Forall (fun o => is_copy o = false) pre ->
             creation_phase (removal_phase (w0, pre)) = Ok (w', outs) ->
             d = dest_of s
             /\ exists a data,
                  lookup_path w s = Some (File a data)
                  /\ lookup_path w' d = Some (File a data)) as Phases.
  { intros w0 pre Hs0 Hn0 Hpre C. unfold creation_phase in C.
    assert (Forall (fun item => fst item = Destination /\ snd item <> [])
              (items_to_remove w0)) as Hitems.
    { apply Forall_forall. intros x Hx. unfold items_to_remove in Hx.
      apply filter_In in Hx as [Hx _].
      apply (proj1 (Forall_forall _ _)
               (loop_items_nonempty Destination false w0) x Hx). }
    set (st1 := removal_phase (w0, pre)) in *.
    assert (shrinks w0 (fst st1)) as Sh
        by apply (removal_loop_shrinks _ Hitems (w0, pre)).
    assert (exists rem, snd st1 = pre ++ rem
                        /\ Forall (fun o => is_removal o = true) rem)
      as (rem & Hlog & Hrem).
    { destruct (removal_loop_effect (items_to_remove w0)) with (st := (w0, pre))
        as (rem & Hlog & _ & Hrem & _ & _).
      - eapply Forall_impl; [|exact Hitems]. simpl. tauto.
      - exists rem. auto. }
    assert (w_src (fst st1) = w_src w) as Hs1
        by (destruct Sh as [H _]; congruence).
    destruct (creation_loop_copies w
                (loop_items Source (walk_folder true (fst st1) Source)))
      with (st := st1) (st' := (w', outs))
      as (_ & _ & l & Hl & Hcopies); try assumption.
    - unfold walk_folder. simpl. rewrite Hs1.
      destruct (w_src w) as [t|] eqn:S; [|constructor].
      apply os_walk_NoDup. now apply Ws.
    - apply loop_items_nonempty.
    - now apply (shrinks_no_dir_over_file w0).
    - cbn [fst snd] in *. rewrite Hl, Hlog in Hin.
      apply in_app_or in Hin as [Hin|Hin].
      + apply in_app_or in Hin as [Hin|Hin].
        * pose proof (proj1 (Forall_forall _ _) Hpre _ Hin). discriminate.
        * pose proof (proj1 (Forall_forall _ _) Hrem _ Hin). discriminate.
      + destruct (Hcopies _ Hin eq_refl) as (p & a & data & E & _ & L1 & L2).
        injection E as -> ->. split; [reflexivity|]. eauto. }
  unfold reconcile in R.
  destruct (os_path_exists w source_folder); cbn [negb] in R.
  2:{ injection R as <- <-. destruct Hin as [Hin|[]]. discriminate. }
  destruct (os_path_exists w destination_folder); cbn [negb fst snd] in R.
  - apply (Phases w []); auto.
  - destruct (os_makedirs w destination_folder) as [w0|e] eqn:M;
      cbn [fst snd] in R.
    + apply (Phases w0 [CreatedFolder]); auto.
      * now apply (os_makedirs_src _ _ _ M).
      * unfold os_makedirs in M. simpl in M.
        apply (grows_makedirs_rev []) in M. destruct M as [Hs G].
        intros P a data HP L. rewrite (lookup_source w _ P Hs) in L.
        destruct (G P) as [K|(_ & Hpre & _)].
        -- rewrite <- (same_kind_is_dir _ _ K). now apply (Hn P a data).
        -- apply prefix_nil_r in Hpre. contradiction.
    + injection R as <- <-. destruct Hin as [Hin|[]]. discriminate.
Qed.

(** ** What the reports of removals and creations leave *)

Lemma fills_dir (w w' : world) (P : list string) :
  fills w w' -> is_dir_opt (lookup_path w (Destination, P)) = true ->
  is_dir_opt (lookup_path w' (Destination, P)) = true.
Proof.
  intros F I. destruct (F P) as [K|[I' _]]; [|congruence].
  now rewrite <- (same_kind_is_dir _ _ K).
Qed.

Lemma fills_absent (w w' : world) (P : list string) :
  fills w w' -> lookup_path w (Destination, P) = None ->
  visible (lookup_path w (Source, P)) = false ->
  lookup_path w' (Destination, P) = None.
Proof.
  intros F N V. destruct (F P) as [K|[_ V']]; [|congruence].
  rewrite N in K. now apply same_kind_none_l.
Qed.

Lemma create_step_fills (w w1 : world) (log log1 : list outcome)
  (p : list string) :
  p <> [] -> no_dir_over_file w ->
  create_step (w, log) (Source, p) = Ok (w1, log1) ->
  fills w w1
  /\ exists l1,
       log1 = log ++ l1
       /\ forall d, In (Created d) l1 ->
                    d = (Destination, p)
                    /\ is_dir_opt (lookup_path w1 d) = true.
Proof.
  intros Hp Hn. unfold create_step.
  change (join_rel destination_folder (relpath (Source, p)))
    with (Destination, p).
  assert (fills w w) as Same by (intros P; left; apply same_kind_refl).
  destruct (same_file_check w (Source, p) (Destination, p)) as [[|]|e];
    cbn [bind]; try discriminate.
  2:{ intros [= <- <-]. split; [assumption|]. exists [].
      rewrite app_nil_r. split; [reflexivity|]. intros d []. }
  destruct (os_path_isdir w (Source, p)) eqn:Is.
  - destruct (os_makedirs w (Destination, p)) as [w'|e] eqn:M;
      intros [= <- <-].
    + split.
      * pose proof M as M'. unfold os_makedirs in M'. simpl in M'.
        apply grows_makedirs_rev in M'. rewrite rev_involutive in M'.
        destruct M' as [_ G]. intros P.
        destruct (G P) as [K|(N & Hpre & _)]; [now left|]. right.
        rewrite N. split; [reflexivity|].
        rewrite isdir_lookup in Is.
        apply (visible_prefix w Source P p Hpre).
        destruct (lookup_path w (Source, p)) as [[| |]|]; auto.
      * exists [Created (Destination, p)]. split; [reflexivity|].
        intros d [[= <-]|[]]. split; [reflexivity|].
        destruct (os_makedirs_ok _ _ _ M) as [I _].
        now rewrite isdir_lookup in I.
    + split; [assumption|]. eexists. split; [reflexivity|].
      intros d [[=]|[]].
  - destruct (shutil_copy2 w (Source, p) (Destination, p)) as [w'|e] eqn:C;
      intros [= <- <-].
    + split.
      * destruct (shutil_copy2_ok _ _ _ _ C) as (a & data & St & _).
        apply stat_lookup in St.
        pose proof (Hn p a data Hp St) as Id.
        destruct (writes_copy2 w w' p Id C) as (a' & data' & Ls & _ & _ & W).
        intros P. destruct (list_eq_dec string_dec P p) as [->|HP].
        -- right. split; [assumption|]. now rewrite Ls.
        -- left. now apply W.
      * eexists. split; [reflexivity|]. intros d [[=]|[]].
    + split; [assumption|]. eexists. split; [reflexivity|].
      intros d [[=]|[]].
Qed.

Lemma creation_loop_fills (w0 : world) (items : list path) :
  Forall (fun s => fst s = Source /\ snd s <> []) items ->
  forall st st',
    w_src (fst st) = w_src w0 -> no_dir_over_file (fst st) ->
    for_each create_step items st = Ok st' ->
    (forall P, is_dir_opt (lookup_path (fst st) (Destination, P)) = true ->
               is_dir_opt (lookup_path (fst st') (Destination, P)) = true)
    /\ (forall P, lookup_path (fst st) (Destination, P) = None ->
                  visible (lookup_path w0 (Source, P)) = false ->
                  lookup_path (fst st') (Destination, P) = None)
    /\ exists l,
         snd st' = snd st ++ l
         /\ forall d, In (Created d) l ->
                      is_dir_opt (lookup_path (fst st') d) = true.
Proof.
  induction 1 as [|[m p] items [Hm Hp] _ IH]; intros [w log] st' Hs Hn F;
    cbn [for_each fst snd] in *.
  - injection F as <-. cbn [fst snd]. split; [auto|]. split; [auto|].
    exists []. rewrite app_nil_r. split; [reflexivity|]. intros d [].
  - simpl in Hm, Hp. subst m.
    destruct (create_step (w, log) (Source, p)) as [[w1 log1]|e] eqn:C;
      cbn [bind] in F; [|discriminate].
    destruct (create_step_files w w1 log log1 p Hp Hn C) as (Hs1 & Hn1 & _).
    destruct (create_step_fills w w1 log log1 p Hp Hn C)
      as (Fl & l1 & -> & Hl1).
    destruct (IH (w1, log ++ l1) st') as (Hdir & Habs & l & Hl & Hcr);
      cbn [fst snd]; try congruence; try assumption.
    cbn [fst snd] in *. split; [|split].
    + intros P I. apply Hdir. now apply (fills_dir w).
    + intros P N V. apply Habs; [|assumption].
      apply (fills_absent w); [assumption..|].
      now rewrite (lookup_source w0 w P Hs).
    + exists (l1 ++ l). rewrite Hl, app_assoc. split; [reflexivity|].
      intros d Hd. apply in_app_or in Hd as [Hd|Hd]; [|now apply Hcr].
      destruct (Hl1 d Hd) as [-> I]. now apply Hdir.
Qed.

Lemma removal_loop_report (items : list path) :
  Forall (fun item => fst item = Destination /\ snd item <> []) items ->
  forall st,
  exists rem,
    snd (fold_left remove_step items st) = snd st ++ rem
    /\ Forall (fun o => is_removal o = true) rem
    /\ forall item, In (Removed item) rem ->
                    In item items
                    /\ lookup_path (fst (fold_left remove_step items st)) item
                       = None.
Proof.
  induction 1 as [|[m p] items [Hm Hp] Hrest IH]; intros [w log];
    cbn [fold_left fst snd].
  - exists []. rewrite app_nil_r. split; [reflexivity|].
    split; [constructor|]. intros item [].
  - simpl in Hm, Hp. subst m. rewrite remove_step_removal_of.
    destruct (IH (fst (removal_of w (Destination, p)),
                  log ++ [snd (removal_of w (Destination, p))]))
      as (rem & Hlog & Hrem & Hgone).
    cbn [fst snd] in *.
    exists (snd (removal_of w (Destination, p)) :: rem).
    rewrite Hlog, <- app_assoc. split; [reflexivity|]. split.
    + constructor; [|assumption].
      destruct (removal_of_kind w (Destination, p)) as [->|[e ->]];
        reflexivity.
    + intros item [E|Hin].
      * pose proof (removal_of_subject w (Destination, p)) as Sj.
        rewrite E in Sj. simpl in Sj. subst item. split; [now left|].
        destruct (removal_of_removed _ _ E) as [N _].
        apply (shrinks_gone (fst (removal_of w (Destination, p)))); [|exact N].
        apply (removal_loop_shrinks items Hrest (_, _)).
      * destruct (Hgone item Hin) as [Hi N]. split; [now right|assumption].
Qed.

(** X20: where the destination holds no directory at the relative path of
    a regular file of the source, what a pass reports as done is so when
    the pass ends: an item reported removed had nothing at its relative
    path in the source and is gone, a directory reported created is a
    directory, and so is the destination folder reported created. *)
Theorem reports_hold (w w' : world) (outs : list outcome) :
  no_dir_over_file w -> reconcile w = Ok (w', outs) ->
  (forall item, In (Removed item) outs ->
                fst item = Destination
                /\ os_path_exists w (Source, snd item) = false
                /\ lookup_path w' item = None)
  /\ (forall d, In (Created d) outs -> is_dir_opt (lookup_path w' d) = true)
  /\ (In CreatedFolder outs ->
      is_dir_opt (lookup_path w' destination_folder) = true).
Proof.
  intros Hn R.
  assert (forall w0 pre,
             w_src w0 = w_src w -> no_dir_over_file w0 ->
             (forall o, In o pre ->
                        o = CreatedFolder
                        /\ is_dir_opt (lookup_path w0 destination_folder)
                           = true) ->
             creation_phase (removal_phase (w0, pre)) = Ok (w', outs) ->
             (forall item, In (Removed item) outs ->
                           fst item = Destination
                           /\ os_path_exists w (Source, snd item) = false
                           /\ lookup_path w' item = None)
             /\ (forall d, In (Created d) outs ->
                           is_dir_opt (lookup_path w' d) = true)
             /\ (In CreatedFolder outs ->
                 is_dir_opt (lookup_path w' destination_folder) = true))
    as Phases.
  { intros w0 pre Hs0 Hn0 Hpre C. unfold creation_phase in C.
    assert (Forall (fun item => fst item = Destination /\ snd item <> [])
              (items_to_remove w0)) as Hitems.
    { apply Forall_forall. intros x Hx. unfold items_to_remove in Hx.
      apply filter_In in Hx as [Hx _].
      apply (proj1 (Forall_forall _ _)
               (loop_items_nonempty Destination false w0) x Hx). }
    set (st1 := removal_phase (w0, pre)) in *.
    assert (shrinks w0 (fst st1)) as Sh
        by apply (removal_loop_shrinks _ Hitems (w0, pre)).
    assert (exists rem,
               snd st1 = pre ++ rem
               /\ Forall (fun o => is_removal o = true) rem
               /\ forall item, In (Removed item) rem ->
                               In item (items_to_remove w0)
                               /\ lookup_path (fst st1) item = None)
      as (rem & Hlog & Hrem & Hgone)
        by apply (removal_loop_report _ Hitems (w0, pre)).
    assert (w_src (fst st1) = w_src w) as Hs1
        by (destruct Sh as [H _]; congruence).
    destruct (creation_loop_fills w
                (loop_items Source (walk_folder true (fst st1) Source))
                (loop_items_nonempty Source true (fst st1))
                st1 (w', outs) Hs1
                (shrinks_no_dir_over_file w0 _ Sh Hn0) C)
      as (Hdir & Habs & l & Hl & Hcr).
    destruct (creation_loop_effect _ _ _ C) as (cre & Hl' & _ & Hcre & _).
    cbn [fst snd] in *. rewrite Hl in Hl'. apply app_inv_head in Hl'.
    subst cre. rewrite Hlog in Hl. rewrite Hl. clear Hl.
    split; [|split].
    - intros item Hin. apply in_app_or in Hin as [Hin|Hin].
      + apply in_app_or in Hin as [Hin|Hin].
        * destruct (Hpre _ Hin) as [E _]. discriminate.
        * destruct (Hgone item Hin) as [Hi N].
          destruct (proj1 (Forall_forall _ _) (items_to_remove_absent w0)
                      item Hi) as [Hm E].
          rewrite (exists_source w w0 _ Hs0) in E.
          split; [assumption|]. split; [assumption|].
          destruct item as [m P]. simpl in Hm, E. subst m.
          apply Habs; [assumption|]. now rewrite <- exists_lookup.
      + pose proof (proj1 (Forall_forall _ _) Hcre _ Hin). discriminate.
    - intros d Hin. apply in_app_or in Hin as [Hin|Hin]; [|now apply Hcr].
      apply in_app_or in Hin as [Hin|Hin].
      + destruct (Hpre _ Hin) as [E _]. discriminate.
      + pose proof (proj1 (Forall_forall _ _) Hrem _ Hin). discriminate.
    - intros Hin. apply in_app_or in Hin as [Hin|Hin].
      + apply in_app_or in Hin as [Hin|Hin].
        * destruct (Hpre _ Hin) as [_ I]. apply Hdir.
          destruct Sh as [_ Sh]. destruct (Sh []) as [[N _]|K]; [congruence|].
          unfold destination_folder in *.
          now rewrite <- (same_kind_is_dir _ _ K).
        * pose proof (proj1 (Forall_forall _ _) Hrem _ Hin). discriminate.
      + pose proof (proj1 (Forall_forall _ _) Hcre _ Hin). discriminate. }
  unfold reconcile in R.
  destruct (os_path_exists w source_folder); cbn [negb] in R.
  2:{ injection R as <- <-.
      repeat split; intros; repeat match goal with
        | H : In _ _ |- _ => destruct H as [H|H]; try discriminate
        end; contradiction. }
  destruct (os_path_exists w destination_folder); cbn [negb fst snd] in R.
  - apply (Phases w []); auto. intros o [].
  - destruct (os_makedirs w destination_folder) as [w0|e] eqn:M;
      cbn [fst snd] in R.
    + apply (Phases w0 [CreatedFolder]); auto.
      * now apply (os_makedirs_src _ _ _ M).
      * pose proof M as M'. unfold os_makedirs in M'. simpl in M'.
        apply (grows_makedirs_rev []) in M'. destruct M' as [Hs G].
        intros P a data HP L. rewrite (lookup_source w _ P Hs) in L.
        destruct (G P) as [K|(_ & Hpre & _)].
        -- rewrite <- (same_kind_is_dir _ _ K). now apply (Hn P a data).
        -- apply prefix_nil_r in Hpre. contradiction.
      * intros o [<-|[]]. split; [reflexivity|].
        destruct (os_makedirs_ok _ _ _ M) as [I _].
        now rewrite isdir_lookup in I.
    + injection R as <- <-.
      repeat split; intros; repeat match goal with
        | H : In _ _ |- _ => destruct H as [H|H]; try discriminate
        end; contradiction.
Qed.

Lemma stale_no_dir_over_file : no_dir_over_file Run.stale.
Proof.
  intros P a data HP L. unfold lookup_path in *. simpl in *.
  destruct P as [|n P]; [congruence|]. simpl in *.
  name_cases n; destruct P; try reflexivity; discriminate.
Qed.

Lemma copy_is_faithful_witness :
  (Destination, ["n.txt"]) = dest_of (Source, ["n.txt"])
  /\ exists a data,
       lookup_path Run.stale (Source, ["n.txt"]) = Some (File a data)
       /\ lookup_path (fst (Run.after Run.stale)) (Destination, ["n.txt"])
          = Some (File a data).
Proof.
  apply (copy_is_faithful Run.stale (fst (Run.after Run.stale))
           (snd (Run.after Run.stale))).
  - intros t [= <-]. reflexivity.
  - exact stale_no_dir_over_file.
  - vm_compute. reflexivity.
  - vm_compute. right. left. reflexivity.
Defined.

Lemma reports_hold_witness :
  lookup_path (fst (Run.after Sample.scenario)) (Destination, ["b.txt"])
  = None.
Proof.
  destruct (reports_hold Sample.scenario (fst (Run.after Sample.scenario))
              (snd (Run.after Sample.scenario)))
    as [H _].
  - exact scenario_no_dir_over_file.
  - vm_compute. reflexivity.
  - apply (H (Destination, ["b.txt"])). vm_compute. right. left. reflexivity.
Defined.

(** ** The removal loop, turn by turn *)

Lemma modify_dir_writable (g : node -> option node) :
  (forall d d', g d = Some d' ->
                forall P a' es', lookup d' P = Some (Dir a' es') ->
                                 exists a es, lookup d P = Some (Dir a es)
                                              /\ d_writable a' = d_writable a) ->
  forall q t t',
    modify t q g = Some t' ->
    forall P a' es',
      lookup t' P = Some (Dir a' es') ->
      exists a es, lookup t P = Some (Dir a es)
                   /\ d_writable a' = d_writable a.
Proof.
  intros Hg. induction q as [|k q IH]; intros t t' M P a' es' Lk.
  - simpl in M. now apply (Hg t t' M P a' es').
  - simpl in M. destruct t as [|a es|]; try discriminate.
    destruct (find_entry k es) as [c|] eqn:F; [|discriminate].
    destruct (modify c q g) as [c'|] eqn:Mc; [|discriminate].
    injection M as <-. destruct P as [|j P].
    + simpl in Lk. injection Lk as <- <-. exists a, es. auto.
    + simpl in Lk. simpl. destruct (string_dec k j) as [<-|Hkj].
      * rewrite find_entry_set_same in Lk. rewrite F.
        now apply (IH c c' Mc P a' es').
      * rewrite (find_entry_set_other k j c' es Hkj) in Lk.
        destruct (find_entry j es); [|discriminate]. eauto.
Qed.

Lemma removal_keeps_writable (w : world) (p P : list string) (a' : dattr)
  (es' : entries_t) :
  lookup_path (set_entry_of w (Destination, p) None) (Destination, P)
  = Some (Dir a' es') ->
  exists a es, lookup_path w (Destination, P) = Some (Dir a es)
               /\ d_writable a' = d_writable a.
Proof.
  unfold set_entry_of. simpl.
  destruct (split_last p) as [[q n]|] eqn:S.
  - destruct (w_dst w) as [t|] eqn:D; [|eauto].
    destruct (modify t q _) as [t'|] eqn:M; [|eauto].
    unfold lookup_path. simpl. rewrite D. intros Lk.
    eapply modify_dir_writable; [|exact M|exact Lk].
    clear. intros d d' G P a' es' Lk.
    destruct d as [|a es|]; try discriminate. injection G as <-.
    destruct P as [|j P]; simpl in *.
    + injection Lk as Ha Hes. subst a'. exists a, es. auto.
    + destruct (string_dec n j) as [<-|Hnj].
      * rewrite find_entry_remove_same in Lk. discriminate.
      * rewrite (find_entry_remove_other n j es Hnj) in Lk.
        destruct (find_entry j es); [|discriminate]. eauto.
  - unfold lookup_path. simpl. discriminate.
Qed.

Lemma keeps_writable_refl (w : world) : keeps_writable w w.
Proof. intros P a es a' es' L L'. rewrite L in L'. now injection L' as <- _. Qed.

Lemma lookup_path_snoc (w : world) (m : mount) (p : list string) (n : string) :
  lookup_path w (m, p ++ [n])
  = match lookup_path w (m, p) with
    | Some (Dir _ es) => find_entry n es
    | _ => None
    end.
Proof.
  unfold lookup_path. simpl. destruct (root_of w m) as [t|]; [|reflexivity].
  rewrite lookup_app. destruct (lookup t p) as [[|a es|]|]; try reflexivity.
  simpl. now destruct (find_entry n es).
Qed.

Lemma In_fst_find_entry (n : string) (es : entries_t) :
  In n (map fst es) -> exists c, find_entry n es = Some c.
Proof.
  induction es as [|[m c] r IH]; simpl; [contradiction|].
  intros [->|H].
  - rewrite String.eqb_refl. eauto.
  - destruct (String.eqb n m); eauto.
Qed.

Lemma find_entry_fst (n : string) (c : node) (es : entries_t) :
  find_entry n es = Some c -> In n (map fst es).
Proof.
  intros H. apply find_entry_In in H. apply in_map_iff. now exists (n, c).
Qed.

Lemma removal_outcome_cases (o : outcome) :
  is_removal o = true ->
  o = Removed (subject o) \/ exists e, o = RemoveFailed (subject o) e.
Proof. destruct o; try discriminate; simpl; eauto. Qed.

Lemma removal_of_removed_world (w : world) (item : path) :
  snd (removal_of w item) = Removed item ->
  fst (removal_of w item) = set_entry_of w item None.
Proof.
  unfold removal_of.
  destruct (entry_of w item) as [[[|] [c|]]|e]; simpl; try discriminate.
  destruct c as [| ? [|? ?] |]; simpl; try discriminate; reflexivity.
Qed.

Lemma removal_of_removes (w : world) (item : path) (c : node) :
  entry_of w item = Ok (true, Some c) ->
  (forall a y es, c <> Dir a (y :: es)) ->
  snd (removal_of w item) = Removed item.
Proof.
  intros E Hc. unfold removal_of. rewrite E.
  destruct c as [| a [|y es] |]; try reflexivity. now destruct (Hc a y es).
Qed.

Lemma removal_of_refused (w : world) (item : path) (c : node) :
  entry_of w item = Ok (false, Some c) ->
  removal_of w item = (w, RemoveFailed item PermissionError).
Proof. intros E. unfold removal_of. now rewrite E. Qed.

Lemma In_snoc_removed (y : path) (outs : list outcome) (o : outcome) :
  In (Removed y) (outs ++ [o]) <-> In (Removed y) outs \/ o = Removed y.
Proof.
  rewrite in_app_iff. simpl. split; intros [H|H]; auto.
  destruct H as [H|[]]; auto.
Qed.

Lemma removable_snoc (outs : list outcome) (o : outcome) (y : path)
  (wr : bool) (c : node) :
  (forall k, o <> Removed (join y k)) ->
  removable (outs ++ [o]) y wr c <-> removable outs y wr c.
Proof.
  intros Ho. unfold removable. split; intros [Hw H]; (split; [assumption|]);
    intros a es n Hc Hn; specialize (H a es n Hc Hn).
  - apply In_snoc_removed in H as [H|H]; [assumption|]. now destruct (Ho n).
  - apply In_snoc_removed. now left.
Qed.

Lemma child_nonempty (w : world) (p : list string) (k : string) (c d : node) :
  lookup_path w (Destination, p) = Some c ->
  lookup_path w (Destination, p ++ [k]) = Some d ->
  exists a y es, c = Dir a (y :: es).
Proof.
  intros Lp Lk. rewrite lookup_path_snoc, Lp in Lk.
  destruct c as [|a [|y es]|]; try discriminate. eauto.
Qed.

Section RemovalRun.
Variable w0 : world.
Variable L : list path.
Hypothesis L_dest :
  Forall (fun x => fst x = Destination /\ snd x <> []) L.
Hypothesis L_there : forall x, In x L -> lookup_path w0 x <> None.
Hypothesis L_order : ForallOrdPairs (walk_order false) L.
Hypothesis L_once : NoDup L.
Hypothesis L_closed :
  forall p n, In (Destination, p) L ->
              lookup_path w0 (Destination, p ++ [n]) <> None ->
              In (Destination, p ++ [n]) L.

Lemma below_is_done (done rest : list path) (x y : path) :
  L = done ++ x :: rest -> In y L -> strictly_below x y -> In y done.
Proof.
  intros HL Hy B. pose proof L_order as Ord. rewrite HL in Ord.
  apply ForallOrdPairs_split in Ord as [_ Oafter].
  rewrite HL in Hy. apply in_app_or in Hy as [Hy|[<-|Hy]]; [assumption| |].
  - exfalso. destruct B as [_ (n & r & E)].
    apply (f_equal (@List.length string)) in E.
    rewrite List.length_app in E. simpl in E.
    lia.
  - exfalso. now apply (Oafter _ Hy).
Qed.

Lemma removal_run_turn (done rest : list path) (x : path) (w : world)
  (outs : list outcome) :
  L = done ++ x :: rest -> removal_run w0 done w outs ->
  removal_run w0 (done ++ [x]) (fst (removal_of w x))
    (outs ++ [snd (removal_of w x)]).
Proof.
  intros HL (Sh & Kw & Hsub & Hkind & Hgone & Hkept & Hmiss & Hiff).
  assert (In x L) as Hx by (rewrite HL; apply in_or_app; right; now left).
  destruct (proj1 (Forall_forall _ _) L_dest x Hx) as [Hm Hp].
  destruct x as [m p]. simpl in Hm, Hp. subst m.
  pose proof L_order as Ord. rewrite HL in Ord.
  apply ForallOrdPairs_split in Ord as [Obefore _].
  pose proof L_once as Once. rewrite HL in Once.
  apply NoDup_remove_2 in Once.
  assert (~ In (Destination, p) done) as Hfresh.
  { intros H. apply Once. apply in_or_app. now left. }
  assert (forall o, In o outs -> subject o <> (Destination, p)) as Hnew.
  { intros o Ho E. apply Hfresh. rewrite <- Hsub, <- E. now apply in_map. }
  assert (forall y, In y done -> fst y = Destination) as Hdone.
  { intros y Hy. apply (proj1 (Forall_forall _ _) L_dest). rewrite HL.
    apply in_or_app. now left. }
  assert (forall y, In (Removed y) outs -> In y done) as Hrd.
  { intros y Hy. rewrite <- Hsub. apply in_map_iff. now exists (Removed y). }
  (* the item is still there *)
  destruct (lookup_path w (Destination, p)) as [c1|] eqn:Lx.
  2:{ exfalso. destruct (Hmiss p Lx) as [N|(y & Hy & Hfy & Hpre)].
      - now apply (L_there _ Hx).
      - pose proof (Hrd _ Hy) as Hyd. destruct y as [m q]. simpl in *. subst m.
        destruct Hpre as [r ->]. destruct r as [|n r].
        + rewrite app_nil_r in *. contradiction.
        + apply (Obefore _ Hyd). split; [reflexivity|]. simpl. eauto. }
  destruct (lookup_path w0 (Destination, p)) as [c0|] eqn:L0.
  2:{ exfalso. now apply (L_there _ Hx). }
  destruct (lookup_entry_of _ _ _ _ Lx Hp)
    as (q & n & a1 & es1 & Ep & Lq1 & F1 & E1).
  destruct (lookup_entry_of _ _ _ _ L0 Hp)
    as (q' & n' & a0 & es0 & Ep' & Lq0 & F0 & E0).
  rewrite Ep in Ep'. apply app_inj_tail in Ep' as [<- <-].
  rewrite (Kw q a0 es0 a1 es1 Lq0 Lq1) in E1.
  clear Lq1 F1 Lq0 F0 Ep q n a1 es1 es0.
  (* what the item holds, then and now *)
  assert (forall k d, lookup_path w (Destination, p ++ [k]) = Some d ->
            (exists a es, c0 = Dir a es /\ In k (map fst es))
            /\ ~ In (Removed (Destination, p ++ [k])) outs) as Halive.
  { intros k d Lk. split.
    - pose proof (shrinks_was_there _ _ _ _ Sh Lk) as N.
      rewrite lookup_path_snoc, L0 in N.
      destruct c0 as [|a es|]; try congruence.
      exists a, es. split; [reflexivity|].
      destruct (find_entry k es) as [d0|] eqn:F; [|congruence].
      now apply (find_entry_fst k d0).
    - intros H. rewrite (Hgone _ H) in Lk. discriminate. }
  assert (forall a es k, c0 = Dir a es -> In k (map fst es) ->
            In (Removed (Destination, p ++ [k])) outs
            \/ exists d, lookup_path w (Destination, p ++ [k]) = Some d)
    as Hchild.
  { intros a es k -> Hk. apply In_fst_find_entry in Hk as [d0 F].
    assert (lookup_path w0 (Destination, p ++ [k]) <> None) as N.
    { rewrite lookup_path_snoc, L0, F. discriminate. }
    pose proof (L_closed _ k Hx N) as Hin.
    assert (In (Destination, p ++ [k]) done) as Hd.
    { apply (below_is_done done rest (Destination, p));
        [assumption|assumption|].
      split; [reflexivity|]. simpl. now exists k, []. }
    rewrite <- Hsub in Hd. apply in_map_iff in Hd as (o & So & Ho).
    pose proof (proj1 (Forall_forall _ _) Hkind o Ho) as K.
    destruct (removal_outcome_cases o K) as [Eo|[e Eo]];
      rewrite So in Eo; subst o.
    - now left.
    - right. pose proof (Hkept _ _ Ho) as Hk.
      destruct (lookup_path w (Destination, p ++ [k])); [eauto|congruence]. }
  (* the turns before, seen from this one *)
  assert (forall y wr c, In y done -> entry_of w0 y = Ok (wr, Some c) ->
            In (Removed y) (outs ++ [snd (removal_of w (Destination, p))])
            <-> removable (outs ++ [snd (removal_of w (Destination, p))])
                  y wr c) as Hold.
  { intros y wr c Hy Ey.
    assert (snd (removal_of w (Destination, p)) <> Removed y) as N1.
    { intros E. apply (f_equal subject) in E.
      rewrite removal_of_subject in E. simpl in E. rewrite <- E in Hy.
      contradiction. }
    assert (forall k, snd (removal_of w (Destination, p))
                      <> Removed (join y k)) as N2.
    { intros k E. apply (f_equal subject) in E.
      rewrite removal_of_subject in E. simpl in E.
      apply (Obefore _ Hy). rewrite E. unfold join.
      split; [reflexivity|]. simpl. now exists k, []. }
    rewrite (removable_snoc _ _ _ _ _ N2), In_snoc_removed, <- (Hiff y wr c Hy Ey).
    split; [intros [H|H]; [assumption|now destruct (N1 H)]|auto]. }
  destruct (removal_of_kind w (Destination, p)) as [Ho|[e Ho]].
  - (* removed *)
    destruct (removal_of_removed _ _ Ho) as (Hnone & c & E & Hc).
    rewrite E1 in E. injection E as Hwr <-.
    rewrite (removal_of_removed_world _ _ Ho) in *. rewrite Ho in *.
    pose proof (shrinks_remove w _ _ _ Hp E1) as Sh'.
    pose proof (shrinks_trans _ _ _ Sh Sh') as Sh1.
    assert (forall P d, lookup_path w (Destination, P) = Some d -> P <> p ->
              lookup_path (set_entry_of w (Destination, p) None)
                (Destination, P) <> None) as Hstay.
    { intros P d LP HP N. destruct (prefix_dec p P) as [[r ->]|Hpre].
      - destruct r as [|k r]; [now rewrite app_nil_r in HP|].
        destruct (lookup_path_prefix w Destination (p ++ [k]) (p ++ k :: r) d)
          as (d' & Ld' & _); [|assumption|].
        + exists r. now rewrite <- app_assoc.
        + destruct (child_nonempty w p k c1 d' Lx Ld') as (a & y & es & ->).
          now destruct (Hc a y es).
      - pose proof (set_entry_of_same_kind w Destination Destination
                      p P None Hpre) as K.
        rewrite N in K. apply same_kind_none_r in K. congruence. }
    split; [assumption|]. split.
    { intros P a es a' es' LP0 LP1.
      destruct (removal_keeps_writable w p P a' es' LP1)
        as (a2 & es2 & LP & ->).
      apply (Kw P a es a2 es2 LP0 LP). }
    split. { rewrite map_app, Hsub. reflexivity. }
    split. { apply Forall_app. split; [assumption|]. now repeat constructor. }
    split.
    { intros y Hy. apply In_snoc_removed in Hy as [Hy|Hy].
      - pose proof (Hgone _ Hy) as G. pose proof (Hdone _ (Hrd _ Hy)) as Hf.
        destruct y as [m P]. simpl in Hf. subst m.
        now apply (shrinks_gone _ _ _ Sh').
      - injection Hy as <-. exact Hnone. }
    split.
    { intros y e Hy. apply in_app_or in Hy as [Hy|[Hy|[]]]; [|discriminate].
      pose proof (Hkept _ _ Hy) as K.
      assert (In y done) as Hyd.
      { rewrite <- Hsub. apply in_map_iff. now exists (RemoveFailed y e). }
      pose proof (Hdone _ Hyd) as Hf. destruct y as [m P]. simpl in Hf. subst m.
      destruct (lookup_path w (Destination, P)) as [d|] eqn:LP; [|congruence].
      apply (Hstay P d LP). intros ->. contradiction. }
    split.
    { intros P LP. destruct (prefix_dec p P) as [Hpre|Hpre].
      - right. exists (Destination, p). split; [|auto].
        apply in_or_app. right. now left.
      - pose proof (set_entry_of_same_kind w Destination Destination
                      p P None Hpre) as K.
        rewrite LP in K. apply same_kind_none_r in K.
        destruct (Hmiss P K) as [N|(y & Hy & Hfy & Hpy)]; [now left|].
        right. exists y. split; [|auto]. apply in_or_app. now left. }
    intros y wr c Hy Ey. apply in_app_or in Hy as [Hy|[<-|[]]].
    + apply Hold; assumption.
    + rewrite E0 in Ey. injection Ey as <- <-. split.
      * intros _. split; [assumption|]. intros a es k Hc0 Hk.
        destruct (Hchild a es k Hc0 Hk) as [H|[d Ld]].
        -- apply in_or_app. now left.
        -- destruct (child_nonempty w p k c1 d Lx Ld) as (a' & y & es' & ->).
           now destruct (Hc a' y es').
      * intros _. apply in_or_app. right. now left.
  - (* refused *)
    rewrite (removal_of_failed _ _ _ Ho) in *. rewrite Ho in *.
    split; [assumption|]. split; [assumption|].
    split. { rewrite map_app, Hsub. reflexivity. }
    split. { apply Forall_app. split; [assumption|]. now repeat constructor. }
    split.
    { intros y Hy. apply In_snoc_removed in Hy as [Hy|Hy]; [|discriminate].
      now apply Hgone. }
    split.
    { intros y e' Hy. apply in_app_or in Hy as [Hy|[Hy|[]]].
      - now apply (Hkept _ e').
      - injection Hy as <- _. congruence. }
    split.
    { intros P LP. destruct (Hmiss P LP) as [N|(y & Hy & Hfy & Hpy)];
        [now left|].
      right. exists y. split; [|auto]. apply in_or_app. now left. }
    intros y wr c Hy Ey. apply in_app_or in Hy as [Hy|[<-|[]]].
    + apply Hold; assumption.
    + rewrite E0 in Ey. injection Ey as <- <-. split.
      * intros H. exfalso. apply In_snoc_removed in H as [H|H];
          [|discriminate]. now apply (Hnew _ H).
      * intros [Hwr Hall]. exfalso. rewrite Hwr in E1.
        assert (forall a y es, c1 <> Dir a (y :: es)) as Hc.
        { intros a [k d] es ->.
          assert (lookup_path w (Destination, p ++ [k]) = Some d) as Lk.
          { rewrite lookup_path_snoc, Lx. simpl. now rewrite String.eqb_refl. }
          destruct (Halive k d Lk) as [(a0' & es0 & Hc0 & Hk) Hnot].
          apply Hnot. specialize (Hall a0' es0 k Hc0 Hk).
          apply In_snoc_removed in Hall as [H|H]; [assumption|discriminate]. }
        rewrite (removal_of_removes _ _ _ E1 Hc) in Ho. discriminate.
Qed.

Lemma removal_run_loop (rest : list path) :
  forall done st outs,
    L = done ++ rest -> removal_run w0 done (fst st) outs ->
    exists outs',
      snd (fold_left remove_step rest st) = snd st ++ outs'
      /\ removal_run w0 L (fst (fold_left remove_step rest st))
           (outs ++ outs').
Proof.
  induction rest as [|x rest IH]; intros done [w log] outs HL Inv;
    cbn [fold_left fst snd] in *.
  - exists []. rewrite !app_nil_r in *. subst. auto.
  - pose proof (removal_run_turn done rest x w outs HL Inv) as Inv'.
    rewrite remove_step_removal_of.
    assert (L = (done ++ [x]) ++ rest) as HL'
        by (rewrite <- app_assoc; exact HL).
    destruct (IH (done ++ [x])
                (fst (removal_of w x), log ++ [snd (removal_of w x)])
                (outs ++ [snd (removal_of w x)]) HL' Inv')
      as (outs' & Hlog & Hinv).
    exists (snd (removal_of w x) :: outs'). cbn [fst snd] in *.
    rewrite Hlog, <- !app_assoc in *. auto.
Qed.
End RemovalRun.

Lemma items_to_remove_In (w : world) (P : list string) (c : node) :
  P <> [] -> lookup_path w (Destination, P) = Some c ->
  os_path_exists w (Source, P) = false ->
  In (Destination, P) (items_to_remove w).
Proof.
  intros HP Lk E. unfold items_to_remove. apply filter_In. split.
  - unfold walk_folder, lookup_path in *. simpl in *.
    destruct (w_dst w) as [t|]; [|discriminate].
    apply (lookup_In_loop_items Destination false t c [] P HP Lk).
  - simpl. unfold join_rel, relpath. simpl. now rewrite E.
Qed.

Lemma items_to_remove_there (w : world) (t : node) (x : path) :
  w_dst w = Some t -> well_formed t -> In x (items_to_remove w) ->
  fst x = Destination /\ snd x <> []
  /\ lookup_path w x <> None
  /\ os_path_exists w (Source, snd x) = false.
Proof.
  intros D Wf Hx. unfold items_to_remove in Hx.
  apply filter_In in Hx as [Hx Hf].
  apply negb_true_iff in Hf. unfold join_rel, relpath in Hf. simpl in Hf.
  unfold walk_folder in Hx. simpl in Hx. rewrite D in Hx.
  pose proof (In_loop_items_below _ _ _ _ _ Hx) as [Hm _].
  apply In_loop_items_lookup in Hx as (r & c & Hr & Hne & Lk);
    [|assumption].
  simpl in Hr. destruct x as [m P]. simpl in *. subst m P.
  unfold lookup_path. simpl. rewrite D, Lk. repeat split; auto.
  discriminate.
Qed.

Lemma removal_phase_run (w : world) (t : node) (log : list outcome) :
  w_dst w = Some t -> well_formed t ->
  exists outs,
    snd (removal_phase (w, log)) = log ++ outs
    /\ removal_run w (items_to_remove w) (fst (removal_phase (w, log))) outs.
Proof.
  intros D Wf. unfold removal_phase. cbn [fst].
  pose proof (items_to_remove_there w t) as Hitems.
  destruct (removal_run_loop w (items_to_remove w)) with
    (rest := items_to_remove w) (done := @nil path) (st := (w, log))
    (outs := @nil outcome) as (outs & Hlog & Hrun).
  - apply Forall_forall. intros x Hx.
    destruct (Hitems x D Wf Hx) as (? & ? & _). auto.
  - intros x Hx. now destruct (Hitems x D Wf Hx) as (_ & _ & ? & _).
  - unfold items_to_remove. apply ForallOrdPairs_filter.
    unfold walk_folder. simpl. rewrite D. now apply os_walk_ordered.
  - unfold items_to_remove. apply NoDup_filter.
    unfold walk_folder. simpl. rewrite D. now apply os_walk_NoDup.
  - intros p n Hin Lk.
    destruct (lookup_path w (Destination, p ++ [n])) as [c|] eqn:Lc;
      [|congruence].
    apply (items_to_remove_In w (p ++ [n]) c); [now destruct p|assumption|].
    destruct (Hitems _ D Wf Hin) as (_ & _ & _ & E). simpl in E.
    destruct (os_path_exists w (Source, p ++ [n])) eqn:E'; [|reflexivity].
    rewrite exists_lookup in E'.
    destruct (visible_prefix w Source p (p ++ [n])) as [V _];
      [now exists [n]|assumption|].
    rewrite exists_lookup in E. congruence.
  - reflexivity.
  - split; [apply shrinks_refl|]. split; [apply keeps_writable_refl|].
    split; [reflexivity|]. split; [constructor|].
    split; [intros x []|]. split; [intros x e []|].
    split; [intros P N; now left|]. intros x wr c [].
  - exists outs. split; assumption.
Qed.




(** ** The delay between two passes *)

Lemma digits2_pos_bounds (m : positive) :
  2 ^ (Zpos (digits2_pos m) - 1) <= Zpos m < 2 ^ Zpos (digits2_pos m).
Proof.
  induction m as [m IH|m IH|]; cbn [digits2_pos].
  - rewrite Pos2Z.inj_succ.
    replace (Z.succ (Zpos (digits2_pos m)) - 1)
      with (Z.succ (Zpos (digits2_pos m) - 1)) by lia.
    rewrite (Z.pow_succ_r 2 (Zpos (digits2_pos m) - 1)) by lia.
    rewrite (Z.pow_succ_r 2 (Zpos (digits2_pos m))) by lia.
    revert IH. generalize (2 ^ (Zpos (digits2_pos m) - 1)).
    generalize (2 ^ Zpos (digits2_pos m)). intros a b IH.
    rewrite Pos2Z.inj_xI. lia.
  - rewrite Pos2Z.inj_succ.
    replace (Z.succ (Zpos (digits2_pos m)) - 1)
      with (Z.succ (Zpos (digits2_pos m) - 1)) by lia.
    rewrite (Z.pow_succ_r 2 (Zpos (digits2_pos m) - 1)) by lia.
    rewrite (Z.pow_succ_r 2 (Zpos (digits2_pos m))) by lia.
    revert IH. generalize (2 ^ (Zpos (digits2_pos m) - 1)).
    generalize (2 ^ Zpos (digits2_pos m)). intros a b IH.
    rewrite Pos2Z.inj_xO. lia.
  - cbn. split; [apply Z.le_refl|reflexivity].
Qed.

(** What a valid finite float is made of: the exponent is no less than
    the least one, the mantissa has at most 53 digits, and exactly 53 above
    the least exponent. *)
Lemma bounded_facts (m : positive) (e : Z) :
  bounded prec emax m e = true ->
  -1074 <= e /\ Zpos m < 2 ^ 53 /\ (-1074 < e -> 2 ^ 52 <= Zpos m).
Proof.
  unfold bounded, canonical_mantissa, fexp, SpecFloat.emin, prec, emax.
  intros H. apply andb_prop in H as [H _]. apply Z.eqb_eq in H.
  assert (0 < Zpos (digits2_pos m)) as Hd by reflexivity.
  pose proof (digits2_pos_bounds m) as [Hlo Hhi].
  revert H Hd Hlo Hhi. generalize (Zpos (digits2_pos m)). intros d H Hd Hlo Hhi.
  assert (d <= 53 /\ -1074 <= e /\ (-1074 < e -> d = 53)) as (H1 & H2 & H3)
      by (clear Hlo Hhi; lia).
  split; [assumption|]. split.
  - apply Z.lt_le_trans with (2 ^ d); [assumption|].
    apply Z.pow_le_mono_r; [reflexivity|assumption].
  - intros He. rewrite (H3 He) in Hlo. exact Hlo.
Qed.

Lemma shl_align_value (mx : positive) (ex ez : Z) :
  ez <= ex -> Zpos (fst (shl_align mx ex ez)) = Zpos mx * 2 ^ (ex - ez).
Proof.
  intros H. unfold shl_align. destruct (ez - ex) as [|p|p] eqn:E.
  - replace (ex - ez) with 0 by lia. cbn [fst]. now rewrite Z.mul_1_r.
  - lia.
  - replace (ex - ez) with (Zpos p) by lia. cbn [fst].
    change (Pos.iter xO mx p) with (shift_pos p mx).
    rewrite shift_pos_correct. change (2 ^ Zpos p) with (Zpower_pos 2 p).
    apply Z.mul_comm.
Qed.

Lemma shl_align_exponent (mx : positive) (ex ez : Z) :
  snd (shl_align mx ex ez) = ex \/ snd (shl_align mx ex ez) = ez.
Proof. unfold shl_align. destruct (ez - ex); simpl; auto. Qed.

Lemma two_le_pow (k : Z) : 0 < k -> 2 <= 2 ^ k.
Proof.
  intros H. change 2 with (2 ^ 1) at 1.
  apply Z.pow_le_mono_r; [reflexivity|]. clear -H. lia.
Qed.

(** A mantissa at the greater of two exponents, brought to the lesser,
    is above every mantissa there. *)
Lemma above_shifted (m n p : Z) :
  n < 2 ^ 53 -> 2 ^ 52 <= m -> 2 <= p -> n < m * p.
Proof.
  intros Hn Hm Hp. apply Z.lt_le_trans with (2 ^ 52 * 2); [exact Hn|].
  apply Z.mul_le_mono_nonneg; [discriminate|assumption|discriminate|assumption].
Qed.

(** The order of two valid finite floats is the order of their mantissas
    brought to the lesser exponent. *)
Lemma SFcompare_finite (sx sy : bool) (mx my : positive) (ex ey : Z) :
  bounded prec emax mx ex = true -> bounded prec emax my ey = true ->
  SFcompare (S754_finite sy my ey) (S754_finite sx mx ex)
  = Some (cond_Zopp sy (Zpos (fst (shl_align my ey (Z.min ex ey))))
          ?= cond_Zopp sx (Zpos (fst (shl_align mx ex (Z.min ex ey))))).
Proof.
  intros Bx By.
  destruct (bounded_facts _ _ Bx) as (Hex & Hmx & Hnx).
  destruct (bounded_facts _ _ By) as (Hey & Hmy & Hny).
  rewrite (shl_align_value my ey) by apply Z.le_min_r.
  rewrite (shl_align_value mx ex) by apply Z.le_min_l.
  unfold SFcompare. f_equal. symmetry.
  destruct (Z.compare_spec ey ex) as [E|E|E].
  - subst ey. rewrite Z.min_id, Z.sub_diag. cbn [Z.pow]. rewrite !Z.mul_1_r.
    rewrite Pos.compare_cont_spec.
    destruct sy, sx; cbn [cond_Zopp Z.opp Z.compare];
      destruct (my ?= mx)%positive; reflexivity.
  - rewrite (Z.min_r ex ey) by (clear -E; lia). rewrite Z.sub_diag.
    cbn [Z.pow]. rewrite Z.mul_1_r.
    assert (Zpos my < Zpos mx * 2 ^ (ex - ey)) as Hlt.
    { apply above_shifted; [assumption| |].
      - apply Hnx. clear -E Hey. lia.
      - apply two_le_pow. clear -E. lia. }
    revert Hlt. generalize (Zpos mx * 2 ^ (ex - ey)). intros v Hlt.
    destruct sy, sx; cbn [cond_Zopp];
      first [apply Z.compare_lt_iff | apply Z.compare_gt_iff];
      clear -Hlt; lia.
  - rewrite (Z.min_l ex ey) by (clear -E; lia). rewrite Z.sub_diag.
    cbn [Z.pow]. rewrite Z.mul_1_r.
    assert (Zpos mx < Zpos my * 2 ^ (ey - ex)) as Hlt.
    { apply above_shifted; [assumption| |].
      - apply Hny. clear -E Hex. lia.
      - apply two_le_pow. clear -E. lia. }
    revert Hlt. generalize (Zpos my * 2 ^ (ey - ex)). intros v Hlt.
    destruct sy, sx; cbn [cond_Zopp];
      first [apply Z.compare_lt_iff | apply Z.compare_gt_iff];
      clear -Hlt; lia.
Qed.

(** The rounding of a negative value is not above zero. *)
Lemma binary_round_neg (m : positive) (e : Z) :
  SFltb (S754_zero false) (binary_round prec emax true m e) = false.
Proof.
  unfold binary_round, binary_round_aux.
  destruct (shl_align _ _ _) as [mz ez].
  destruct (shr_fexp _ _ _ _ _) as [mrs' e'].
  destruct (shr_fexp _ _ _ _ _) as [mrs'' e''].
  destruct (shr_m mrs''); [reflexivity| |reflexivity].
  destruct (Z.leb _ _); reflexivity.
Qed.

Lemma shr_1_m (r : shr_record) :
  0 <= shr_m r -> shr_m (shr_1 r) = shr_m r / 2.
Proof.
  destruct r as [m r s]. cbn [shr_m]. intros H. unfold shr_1.
  destruct m as [|[p|p|]|p]; cbn [shr_m].
  - reflexivity.
  - rewrite Pos2Z.inj_xI. apply Z.div_unique with 1; lia.
  - rewrite Pos2Z.inj_xO. apply Z.div_unique with 0; lia.
  - reflexivity.
  - now destruct H.
Qed.

Lemma pow2_xI (p : positive) :
  2 ^ Zpos p~1 = 2 * 2 ^ Zpos p * 2 ^ Zpos p.
Proof.
  replace (Zpos p~1) with (1 + Zpos p + Zpos p) by lia.
  rewrite !Z.pow_add_r by lia. reflexivity.
Qed.

Lemma pow2_xO (p : positive) : 2 ^ Zpos p~0 = 2 ^ Zpos p * 2 ^ Zpos p.
Proof.
  replace (Zpos p~0) with (Zpos p + Zpos p) by lia.
  rewrite Z.pow_add_r by lia. reflexivity.
Qed.

Lemma iter_shr_1_m (p : positive) :
  forall r, 0 <= shr_m r ->
            shr_m (SpecFloat.iter_pos shr_1 p r) = shr_m r / 2 ^ Zpos p.
Proof.
  assert (forall r, 0 <= shr_m r -> 0 <= shr_m (shr_1 r)) as Hpos.
  { intros r H. rewrite shr_1_m by assumption. now apply Z.div_pos. }
  assert (forall q, 0 < 2 ^ Zpos q) as Hpow.
  { intros q. now apply Z.pow_pos_nonneg. }
  assert (forall a q, 0 <= a -> 0 <= a / 2 ^ Zpos q) as Hdiv.
  { intros a q H. apply Z.div_pos; [assumption|apply Hpow]. }
  induction p as [p IH|p IH|]; intros r H; cbn [SpecFloat.iter_pos].
  - assert (0 <= shr_m (shr_1 r)) as H1 by auto.
    assert (0 <= shr_m (SpecFloat.iter_pos shr_1 p (shr_1 r))) as H2
        by (rewrite IH by assumption; auto).
    rewrite (IH _ H2), (IH _ H1), (shr_1_m _ H), pow2_xI.
    pose proof (Hpow p) as Hp. revert Hp. generalize (2 ^ Zpos p).
    intros u Hp. rewrite !Z.div_div by lia. now rewrite Z.mul_assoc.
  - assert (0 <= shr_m (SpecFloat.iter_pos shr_1 p r)) as H2
        by (rewrite IH by assumption; auto).
    rewrite (IH _ H2), (IH _ H), pow2_xO.
    pose proof (Hpow p) as Hp. revert Hp. generalize (2 ^ Zpos p).
    intros u Hp. rewrite Z.div_div by lia. reflexivity.
  - rewrite shr_1_m by assumption. reflexivity.
Qed.

Lemma shr_record_of_loc_m (m : Z) (l : location) :
  shr_m (shr_record_of_loc m l) = m.
Proof. destruct l as [|[| |]]; reflexivity. Qed.

(** Shifting a positive mantissa to its place leaves it positive: the
    shift drops fewer digits than the mantissa has. *)
Lemma shr_fexp_pos (m : positive) (e : Z) (l : location) :
  -1074 <= e ->
  0 < shr_m (fst (shr_fexp prec emax (Zpos m) e l))
  /\ -1074 <= snd (shr_fexp prec emax (Zpos m) e l).
Proof.
  intros He. unfold shr_fexp, shr, fexp, SpecFloat.emin, prec, emax.
  cbn [Zdigits2].
  pose proof (digits2_pos_bounds m) as [Hlo _].
  assert (0 < Zpos (digits2_pos m)) as Hd by reflexivity.
  revert Hlo Hd. generalize (Zpos (digits2_pos m)). intros d Hlo Hd.
  destruct (Z.max (d + e - 53) (3 - 1024 - 53) - e) as [|q|q] eqn:E;
    cbn [fst snd].
  - rewrite shr_record_of_loc_m. split; [reflexivity|assumption].
  - rewrite iter_shr_1_m by (rewrite shr_record_of_loc_m; discriminate).
    rewrite shr_record_of_loc_m. split.
    + apply Z.div_str_pos. split; [now apply Z.pow_pos_nonneg|].
      apply Z.le_trans with (2 ^ (d - 1)); [|assumption].
      apply Z.pow_le_mono_r; [reflexivity|]. clear -E He Hd. lia.
    + clear -He. lia.
  - rewrite shr_record_of_loc_m. split; [reflexivity|assumption].
Qed.

Lemma round_nearest_even_pos (m : Z) (l : location) :
  0 < m -> 0 < round_nearest_even m l.
Proof.
  intros H. destruct l as [|[| |]]; cbn [round_nearest_even];
    try destruct (Z.even m); lia.
Qed.

(** The rounding of a positive value at no less than the least exponent
    is above zero: it does not underflow to zero. *)
Lemma binary_round_pos (m : positive) (e : Z) :
  -1074 <= e ->
  SFltb (S754_zero false) (binary_round prec emax false m e) = true.
Proof.
  intros He. unfold binary_round.
  pose proof (shl_align_exponent m e
                (fexp prec emax (Zpos (digits2_pos m) + e))) as Hs.
  destruct (shl_align _ _ _) as [mz ez]. cbn [snd] in Hs.
  assert (-1074 <= ez) as Hez.
  { destruct Hs as [->| ->]; [assumption|].
    unfold fexp, SpecFloat.emin, prec, emax. lia. }
  unfold binary_round_aux.
  pose proof (shr_fexp_pos mz ez loc_Exact Hez) as [H1 H1'].
  destruct (shr_fexp prec emax (Zpos mz) ez loc_Exact) as [mrs' e'].
  cbn [fst snd] in H1, H1'.
  pose proof (round_nearest_even_pos _ (loc_of_shr_record mrs') H1) as Hr.
  destruct (round_nearest_even (shr_m mrs') (loc_of_shr_record mrs'))
    as [|r|r]; try discriminate.
  pose proof (shr_fexp_pos r e' loc_Exact H1') as [H2 _].
  destruct (shr_fexp prec emax (Zpos r) e' loc_Exact) as [mrs'' e''].
  cbn [fst] in H2.
  destruct (shr_m mrs''); try discriminate.
  destruct (Z.leb _ _); reflexivity.
Qed.

(** The sign of a difference of valid floats: [x - y] is above zero
    exactly when [y] is below [x]. *)
Lemma SFsub_sign (x y : spec_float) :
  SpecFloat.valid_binary prec emax x = true ->
  SpecFloat.valid_binary prec emax y = true ->
  SFltb (S754_zero false) (SFsub prec emax x y) = SFltb y x.
Proof.
  intros Vx Vy.
  destruct x as [sx|sx| |sx mx ex], y as [sy|sy| |sy my ey];
    try reflexivity;
    try (destruct sx; reflexivity); try (destruct sy; reflexivity);
    try (destruct sx, sy; reflexivity).
  cbn [SpecFloat.valid_binary] in Vx, Vy.
  unfold SFltb at 2. rewrite (SFcompare_finite sx sy mx my ex ey Vx Vy).
  unfold SFsub.
  destruct (bounded_facts _ _ Vx) as (Hex & _).
  destruct (bounded_facts _ _ Vy) as (Hey & _).
  generalize (cond_Zopp sx (Zpos (fst (shl_align mx ex (Z.min ex ey))))).
  generalize (cond_Zopp sy (Zpos (fst (shl_align my ey (Z.min ex ey))))).
  intros b a.
  destruct (a - b) as [|p|p] eqn:E; cbn [binary_normalize].
  - replace (b ?= a) with Eq; [reflexivity|].
    symmetry. apply Z.compare_eq_iff. clear -E. lia.
  - rewrite binary_round_pos by (clear -Hex Hey; lia).
    replace (b ?= a) with Lt; [reflexivity|].
    symmetry. apply Z.compare_lt_iff. clear -E. lia.
  - rewrite binary_round_neg.
    destruct (b ?= a) eqn:C; try reflexivity.
    rewrite Z.compare_lt_iff in C. clear -E C. lia.
Qed.

Lemma sub_sign (a b : float) : (0 <? a - b)%float = (b <? a)%float.
Proof.
  rewrite !FloatAxioms.ltb_spec, FloatAxioms.sub_spec. change (Prim2SF 0) with (S754_zero false).
  apply SFsub_sign; apply Prim2SF_valid.
Qed.

(** A float above zero is no NaN and not below zero. *)
Lemma above_zero (d : float) :
  (0 <? d)%float = true -> (d <? 0)%float = false /\ is_nan d = false.
Proof.
  unfold is_nan. intros H. rewrite FloatAxioms.ltb_spec in H. rewrite FloatAxioms.ltb_spec, FloatAxioms.eqb_spec.
  change (Prim2SF 0) with (S754_zero false) in *.
  destruct (Prim2SF d) as [s|s| |s m e]; try discriminate;
    destruct s; try discriminate; split; try reflexivity.
  unfold SFeqb, SFcompare.
  now rewrite Z.compare_refl, Pos.compare_cont_refl.
Qed.

(** An order that holds one way does not hold strictly the other way. *)
Lemma leb_not_ltb (a b : float) :
  (a <=? b)%float = true -> (b <? a)%float = false.
Proof.
  intros H. rewrite FloatAxioms.leb_spec in H. rewrite FloatAxioms.ltb_spec. revert H.
  unfold SFleb, SFltb.
  pose proof (Prim2SF_valid a) as Va. pose proof (Prim2SF_valid b) as Vb.
  destruct (Prim2SF a) as [sx|sx| |sx mx ex],
           (Prim2SF b) as [sy|sy| |sy my ey];
    try reflexivity; try discriminate;
    try (destruct sx; (reflexivity || discriminate));
    try (destruct sy; (reflexivity || discriminate));
    try (destruct sx, sy; (reflexivity || discriminate)).
  cbn [SpecFloat.valid_binary] in Va, Vb.
  rewrite (SFcompare_finite sx sy mx my ex ey Va Vb).
  rewrite (SFcompare_finite sy sx my mx ey ex Vb Va).
  rewrite (Z.min_comm ey ex).
  generalize (cond_Zopp sx (Zpos (fst (shl_align mx ex (Z.min ex ey))))).
  generalize (cond_Zopp sy (Zpos (fst (shl_align my ey (Z.min ex ey))))).
  intros y x. rewrite (Z.compare_antisym x y).
  destruct (x ?= y); simpl; congruence.
Qed.





(** ** Defects of the pass, at concrete inputs *)

(** C1 fails on the code: a regular file [f] in the source and a directory
    [f] in the destination. [shutil.copy2] puts the copy inside the
    directory, the pass records no error, and the destination is left with
    the path [f/f], which the source does not have. *)
Theorem file_over_directory_diverges :
  exists w',
    reconcile Sample.file_over_dir
    = Ok (w', [Copied (Source, ["f"]) (Destination, ["f"])])
    /\ tree_paths (w_src w') = [["f"]]
    /\ tree_paths (w_dst w') = [["f"]; ["f"; "f"]]
    /\ os_path_isdir w' (Destination, ["f"]) = true.
Proof. eexists. repeat split. Qed.

(** C7 fails on the code, from the same input: the second of two passes
    in succession removes the copy the first one left inside the directory
    and makes it again. *)
Theorem file_over_directory_not_idempotent :
  outcomes_of (second_pass Sample.file_over_dir)
  = Some [Removed (Destination, ["f"; "f"]);
          Copied (Source, ["f"]) (Destination, ["f"])].
Proof. reflexivity. Qed.

(** C6 fails on the code, from the same input as C1: the equivalence
    check reports that the file [f] of the source needs a write, the
    creation phase records it as copied to [f] of the destination, and
    [f] of the destination is the directory it was: the content and the
    modification time of the source file are on [f/f] inside it. *)
Theorem file_over_directory_copy_misplaced :
  removal_phase (Sample.file_over_dir, []) = (Sample.file_over_dir, [])
  /\ same_file_check Sample.file_over_dir (Source, ["f"]) (Destination, ["f"])
     = Ok true
  /\ exists w',
       creation_phase (Sample.file_over_dir, [])
       = Ok (w', [Copied (Source, ["f"]) (Destination, ["f"])])
       /\ os_path_isdir w' (Destination, ["f"]) = true
       /\ lookup_path w' (Destination, ["f"; "f"])
          = Some (File (Sample.fa 7) "0123456789").
Proof. repeat split. eexists. repeat split. Qed.

(** C3 fails on the code: [same_file_check] is called outside the [try]
    blocks. With a dangling link in the source and a destination item of
    that name that cannot be removed, the [FileNotFoundError] of
    [os.path.getmtime] escapes the pass. *)
Theorem unreadable_source_escapes :
  remove_step (Sample.dangling_source, []) (Destination, ["l"])
  = (Sample.dangling_source,
     [RemoveFailed (Destination, ["l"]) PermissionError])
  /\ reconcile Sample.dangling_source = Raise FileNotFoundError
  /\ folder_synchronization Sample.cfg Sample.hour Sample.dangling_source
       Sample.no_log = Raise FileNotFoundError.
Proof. repeat split. Qed.

(** C4 fails on the code: only [os.path.exists] is asked of the source
    folder. When it is a regular file the pass goes on, finds nothing of the
    destination in the source, and empties the destination. *)
Theorem source_file_empties_destination :
  exists w',
    reconcile Sample.source_is_file
    = Ok (w', [Removed (Destination, ["f"; "g"]);
               Removed (Destination, ["f"])])
    /\ tree_paths (w_dst Sample.source_is_file) = [["f"]; ["f"; "g"]]
    /\ tree_paths (w_dst w') = [].
Proof. eexists. repeat split. Qed.

(** The part of C4 the code does: a missing source folder ends the pass
    with one outcome and the filesystem untouched. *)
Lemma missing_source_is_fatal (w : world) :
  w_src w = None -> reconcile w = Ok (w, [SourceMissing]).
Proof.
  intros H. unfold reconcile, os_path_exists, stat. simpl. rewrite H.
  reflexivity.
Qed.
